(** * Collaborative Lists: the per-list coordinator and the share handlers

    A shallow embedding of [worker/src/list-do.ts] (class [ListDO], the
    Durable Object that owns one list) and of the share handlers of the
    worker's router ([handleAddShare], [handleUpdateShare],
    [handleRemoveShare]), with the properties the specification states
    about them; then of the rest of the router (roles, list and item
    handlers, the user index), of the reducers with which the client mirrors
    the item list, and of the URL-safe base64 of the token utilities, with
    the properties the code itself shows.

    Conventions of the embedding:
    - a JavaScript [Map] is an association list in insertion order with
      unique keys ([JsMap]): iteration order is observable in snapshots and
      broadcasts;
    - a plain object used as a dictionary ([Record<string, T>]) is a [gmap];
    - a [Uint8Array] is a list of [Z] in [0, 256);
    - every handler is one atomic state transition of the actor; its effects
      (socket sends, storage writes) are appended to a log, in program order;
    - [Date.now()] and the sockets whose [send] throws are inputs of a
      handler. *)

From stdpp Require Import base option list strings gmap fin_maps.
From Stdlib Require Import ZArith Lia Ascii.

Open Scope Z_scope.
Open Scope string_scope.
Open Scope list_scope.

(** ** JavaScript [Map]: insertion-ordered association list *)

Module JsMap.
Section JsMap.
Context {V : Type}.

(** [Map.prototype.get] *)
Fixpoint get (k : string) (m : list (string * V)) : option V :=
  match m with
  | [] => None
  | (k', v) :: rest => if String.eqb k k' then Some v else get k rest
  end.

(** [Map.prototype.set]: an existing key keeps its position, a new key is
    appended. *)
Fixpoint set (k : string) (v : V) (m : list (string * V)) : list (string * V) :=
  match m with
  | [] => [(k, v)]
  | (k', v') :: rest =>
      if String.eqb k k' then (k', v) :: rest else (k', v') :: set k v rest
  end.

(** [Map.prototype.delete] *)
Fixpoint delete (k : string) (m : list (string * V)) : list (string * V) :=
  match m with
  | [] => []
  | (k', v') :: rest =>
      if String.eqb k k' then rest else (k', v') :: delete k rest
  end.

Definition keys (m : list (string * V)) : list string := map fst m.
Definition values (m : list (string * V)) : list V := map snd m.

(** A well-formed [Map] holds every key once. *)
Definition wf (m : list (string * V)) : Prop := NoDup (keys m).
End JsMap.
End JsMap.

(** ** Data model ([worker/src/types.ts]) *)

(** Values of [Record<string, any>] item fields. *)
Inductive JsValue :=
| JNull
| JBool (b : bool)
| JNum (n : Z)
| JStr (s : string).

Inductive FieldType := TText | TNumber | TCheckbox | TSelect.

Record Field := mkField {
  field_id : string;
  field_label : string;
  field_type : FieldType;
  field_options : option (list string)
}.

Record Item := mkItem {
  item_id : string;
  item_fields : gmap string JsValue;
  item_checked : bool;
  item_updatedAt : Z
}.

Inductive ShareRole := ShareViewer | ShareEditor.

Record Share := mkShare {
  share_email : string;
  share_role : ShareRole
}.

Record ListMeta := mkListMeta {
  meta_id : string;
  meta_name : string;
  meta_schema : list Field;
  meta_createdAt : Z;
  meta_ownerEmail : string;
  meta_shares : list Share
}.

Record JWTPayload := mkJWT {
  jwt_email : string;
  jwt_name : string;
  jwt_color : string
}.

Record PresenceUser := mkPresenceUser {
  pu_email : string;
  pu_name : string;
  pu_color : string
}.

Inductive Role := Owner | Editor | Viewer.

Definition is_viewer (r : Role) : bool :=
  match r with Viewer => true | _ => false end.

(** [interface ConnectedClient]; the socket [ws] is identified with the key
    under which the client is registered. *)
Record ConnectedClient := mkClient {
  client_user : PresenceUser;
  client_role : Role
}.

(** ** Wire protocol *)

(** A parsed client message: the properties the coordinator reads from the
    value returned by [JSON.parse]. *)
Record ClientMsg := mkMsg {
  msg_type : string;
  msg_itemId : string;
  msg_checked : bool;
  msg_fields : gmap string JsValue;
  msg_data : list Z
}.

(** What a socket delivers in [event.data]: an [ArrayBuffer], or text.
    [Text None] is text on which [JSON.parse] throws. *)
Inductive WsData :=
| Binary (bytes : list Z)
| Text (parsed : option ClientMsg).

(** Messages the coordinator sends. *)
Inductive ServerMsg :=
| ItemsChanged (items : list Item)
| CrdtSync (data : list Z)
| Presence (users : list PresenceUser)
| ErrorMsg (message : string)
| ItemAdded (item : Item)
| ItemUpdated (item : Item)
| ItemDeleted (itemId : string)
| SchemaChanged (schema : list Field)
| Relayed (msg : ClientMsg)
| BinaryFrame (bytes : list Z).

(** ** Storage and the effect log *)

Inductive StoragePut :=
| PutItems (obj : gmap string Item)
| PutSchema (schema : list Field)
| PutMeta (meta : ListMeta)
| PutYjsDoc (bytes : list Z).

Record Storage := mkStorage {
  st_items : option (gmap string Item);
  st_schema : option (list Field);
  st_meta : option ListMeta;
  st_yjsDoc : option (list Z)
}.

Definition storage_put (p : StoragePut) (st : Storage) : Storage :=
  match p with
  | PutItems o => mkStorage (Some o) (st_schema st) (st_meta st) (st_yjsDoc st)
  | PutSchema f => mkStorage (st_items st) (Some f) (st_meta st) (st_yjsDoc st)
  | PutMeta m => mkStorage (st_items st) (st_schema st) (Some m) (st_yjsDoc st)
  | PutYjsDoc b => mkStorage (st_items st) (st_schema st) (st_meta st) (Some b)
  end.

Inductive Event :=
| EvSend (key : string) (m : ServerMsg)        (* [ws.send] returned *)
| EvSendFailed (key : string) (m : ServerMsg)  (* [ws.send] threw *)
| EvPut (p : StoragePut)                       (* [state.storage.put] *)
| EvIndexPut (meta : ListMeta)                 (* [env.LISTS_INDEX.put] *)
| EvConsoleError.                              (* [console.error] *)

(** ** The coordinator's state *)

Record ListDO := mkListDO {
  clients : list (string * ConnectedClient);
  items : list (string * Item);
  schema : list Field;
  listMeta : option ListMeta;
  yjsDocState : option (list Z);
  storage : Storage;
  timers : nat;          (* pending [setTimeout] presence callbacks *)
  log : list Event
}.

Definition set_clients (c : list (string * ConnectedClient)) (s : ListDO) : ListDO :=
  mkListDO c (items s) (schema s) (listMeta s) (yjsDocState s) (storage s) (timers s) (log s).
Definition set_items (i : list (string * Item)) (s : ListDO) : ListDO :=
  mkListDO (clients s) i (schema s) (listMeta s) (yjsDocState s) (storage s) (timers s) (log s).
Definition set_schema (f : list Field) (s : ListDO) : ListDO :=
  mkListDO (clients s) (items s) f (listMeta s) (yjsDocState s) (storage s) (timers s) (log s).
Definition set_listMeta (m : option ListMeta) (s : ListDO) : ListDO :=
  mkListDO (clients s) (items s) (schema s) m (yjsDocState s) (storage s) (timers s) (log s).
Definition set_yjsDocState (y : option (list Z)) (s : ListDO) : ListDO :=
  mkListDO (clients s) (items s) (schema s) (listMeta s) y (storage s) (timers s) (log s).
Definition set_storage (st : Storage) (s : ListDO) : ListDO :=
  mkListDO (clients s) (items s) (schema s) (listMeta s) (yjsDocState s) st (timers s) (log s).
Definition set_timers (n : nat) (s : ListDO) : ListDO :=
  mkListDO (clients s) (items s) (schema s) (listMeta s) (yjsDocState s) (storage s) n (log s).
Definition emit (e : Event) (s : ListDO) : ListDO :=
  mkListDO (clients s) (items s) (schema s) (listMeta s) (yjsDocState s) (storage s) (timers s)
           (log s ++ [e]).

(** [state.storage.put]: writes the store and is logged. *)
Definition put (p : StoragePut) (s : ListDO) : ListDO :=
  emit (EvPut p) (set_storage (storage_put p (storage s)) s).

(** The object [saveItems] builds, [for (const [id, item] of this.items)
    obj[id] = item], as its own properties, which is what [storage.put]
    keeps. [obj] is a plain object: the assignment [obj["__proto__"] = item]
    runs the setter of [Object.prototype], which replaces the prototype of
    [obj] and adds no property, so an item under that identifier is left
    out. *)
Definition items_object (m : list (string * Item)) : gmap string Item :=
  foldl (fun obj e => if String.eqb (fst e) "__proto__" then obj
                      else <[fst e := snd e]> obj) ∅ m.

Definition saveItems (s : ListDO) : ListDO := put (PutItems (items_object (items s))) s.

Definition saveSchema (s : ListDO) : ListDO := put (PutSchema (schema s)) s.

Definition saveMeta (s : ListDO) : ListDO :=
  match listMeta s with
  | Some m => emit (EvIndexPut m) (put (PutMeta m) s)
  | None => s
  end.

Definition saveYjsDoc (s : ListDO) : ListDO :=
  match yjsDocState s with
  | Some bytes => put (PutYjsDoc bytes) s
  | None => s
  end.

(** ** Broadcasting *)

Section Sending.
(** The sockets whose [send] throws while the handler runs. *)
Variable down : string -> bool.

Definition excluded (key : string) (excludeKey : option string) : bool :=
  match excludeKey with
  | Some k => String.eqb key k
  | None => false
  end.

(** The loop [for (const [key, client] of this.clients)] of [broadcast]
    (and of the binary relay): a failed send deletes the entry being
    visited, which leaves the rest of the iteration as it was. *)
Fixpoint send_loop (message : ServerMsg) (excludeKey : option string)
         (entries : list (string * ConnectedClient)) (s : ListDO) : ListDO :=
  match entries with
  | [] => s
  | (key, _) :: rest =>
      if excluded key excludeKey then send_loop message excludeKey rest s
      else if down key then
        send_loop message excludeKey rest
          (set_clients (JsMap.delete key (clients s)) (emit (EvSendFailed key message) s))
      else send_loop message excludeKey rest (emit (EvSend key message) s)
  end.

Definition broadcast (message : ServerMsg) (excludeKey : option string) (s : ListDO) : ListDO :=
  send_loop message excludeKey (clients s) s.

(** The users of [broadcastPresence]: the first client of each email. *)
Fixpoint presence_users (seen : gset string) (cs : list (string * ConnectedClient))
  : list PresenceUser :=
  match cs with
  | [] => []
  | (_, client) :: rest =>
      let email := pu_email (client_user client) in
      if bool_decide (email ∈ seen) then presence_users seen rest
      else client_user client :: presence_users ({[email]} ∪ seen) rest
  end.

Definition broadcastPresence (s : ListDO) : ListDO :=
  broadcast (Presence (presence_users ∅ (clients s))) None s.
End Sending.

(** ** Requests and responses of [ListDO.fetch] *)

(** The body of [PATCH /item/:id], a [Partial<Item>]. *)
Record ItemUpdates := mkUpdates {
  upd_id : option string;
  upd_fields : option (gmap string JsValue);
  upd_checked : option bool;
  upd_updatedAt : option Z
}.

(** The query parameters of a WebSocket upgrade; [up_nonce] stands for the
    [Date.now()] and [Math.random()] parts of the client key. *)
Record Upgrade := mkUpgrade {
  up_email : option string;
  up_name : option string;
  up_color : option string;
  up_role : option Role;
  up_nonce : string
}.

(** The requests [fetch] tells apart, in the order it tests them. *)
Inductive Request :=
| ReqOptions                                        (* method OPTIONS *)
| ReqUpgrade (u : Upgrade)                          (* Upgrade: websocket *)
| ReqInit (meta : ListMeta)                         (* POST /init *)
| ReqGetItems                                       (* GET /items *)
| ReqAddItem (item : Item)                          (* POST /item *)
| ReqUpdateItem (itemId : string) (updates : ItemUpdates)  (* PATCH /item/:id *)
| ReqDeleteItem (itemId : string)                   (* DELETE /item/:id *)
| ReqUpdateSchema (schema : list Field)             (* PATCH /schema *)
| ReqClearDone                                      (* POST /clear-done *)
| ReqOther.

Inductive Body :=
| BodyNone
| BodyText (text : string)
| BodyOk
| BodyListing (schema : list Field) (items : list Item)
| BodyItem (item : Item)
| BodyCleared (cleared : nat)
| BodySocket (clientKey : string)
| BodyError (error : string)
| BodyShares (shares : list Share).

Record Response := mkResponse {
  status : Z;
  body : Body
}.

(** [a || d] on a query parameter: [null] and the empty string are falsy. *)
Definition or_default (d : string) (a : option string) : string :=
  match a with
  | None => d
  | Some "" => d
  | Some x => x
  end.

(** [new Uint8Array(numbers)]: every element is taken modulo 256. *)
Definition Uint8Array_from (numbers : list Z) : list Z :=
  map (fun n => n mod 256) numbers.

(** The ledger update of both delta branches: the stored bytes followed by
    the update, or the update alone when nothing is stored. *)
Definition merge_update (update : list Z) (s : ListDO) : ListDO :=
  match yjsDocState s with
  | Some stored => set_yjsDocState (Some (stored ++ update)) s
  | None => set_yjsDocState (Some update) s
  end.

(** [{ ...existing, ...updates, updatedAt: Date.now() }] *)
Definition apply_updates (existing : Item) (updates : ItemUpdates) (now : Z) : Item :=
  mkItem (default (item_id existing) (upd_id updates))
         (default (item_fields existing) (upd_fields updates))
         (default (item_checked existing) (upd_checked updates))
         now.

(** [{ ...item.fields, ...msg.fields }]: the entries of the message win. *)
Definition merge_fields (fields patch : gmap string JsValue) : gmap string JsValue :=
  patch ∪ fields.

(** Control flow inside the message listener: fall through to the next
    [if], [return], or [throw] into the enclosing [catch]. *)
Inductive Flow :=
| Next (s : ListDO)
| Return (s : ListDO)
| Throw (s : ListDO).

Definition and_then (f : Flow) (k : ListDO -> Flow) : Flow :=
  match f with
  | Next s => k s
  | other => other
  end.

Notation "f >>> k" := (and_then f k) (at level 60, right associativity).

(** [try { ... } catch (e) { console.error(...) }] *)
Definition caught (f : Flow) : ListDO :=
  match f with
  | Next s | Return s => s
  | Throw s => emit EvConsoleError s
  end.

Definition view_only : ServerMsg := ErrorMsg "View-only access".

(** [`${userEmail}-${Date.now()}-${Math.random()}`] *)
Definition clientKeyOf (u : Upgrade) : string :=
  String.append (or_default "" (up_email u)) (String.append "-" (up_nonce u)).

(** The ledger part of the snapshot: sent when [yjsDocState] is set and not
    empty. *)
Definition ledger_snapshot (s : ListDO) : list ServerMsg :=
  match yjsDocState s with
  | Some bytes => if (0 <? length bytes)%nat then [CrdtSync bytes] else []
  | None => []
  end.

Section Handlers.
Variable down : string -> bool.
Variable now : Z.

(** [server.send(m)] on the socket of [clientKey]; it may throw. *)
Definition server_send (clientKey : string) (m : ServerMsg) (s : ListDO) : Flow :=
  if down clientKey then Throw (emit (EvSendFailed clientKey m) s)
  else Next (emit (EvSend clientKey m) s).

(** The loop of [POST /clear-done] over [toDelete]. *)
Fixpoint clear_loop (toDelete : list string) (s : ListDO) : ListDO :=
  match toDelete with
  | [] => s
  | id :: rest =>
      clear_loop rest
        (broadcast down (ItemDeleted id) None (set_items (JsMap.delete id (items s)) s))
  end.

Definition checked_ids (m : list (string * Item)) : list string :=
  map fst (filter (fun e => item_checked (snd e) = true) m).

(** [handleWebSocket]: [None] when a snapshot [send] throws out of it. *)
Definition handleWebSocket (u : Upgrade) (s : ListDO) : ListDO * option Response :=
  let userEmail := or_default "" (up_email u) in
  let userName := or_default "Anonymous" (up_name u) in
  let userColor := or_default "#3B82F6" (up_color u) in
  let userRole := default Viewer (up_role u) in
  let clientKey := clientKeyOf u in
  let s1 := set_clients
              (JsMap.set clientKey
                 (mkClient (mkPresenceUser userEmail userName userColor) userRole)
                 (clients s)) s in
  let snapshot :=
    server_send clientKey (ItemsChanged (JsMap.values (items s1))) s1 >>> fun s2 =>
    match yjsDocState s2 with
    | Some bytes =>
        if (0 <? length bytes)%nat then server_send clientKey (CrdtSync bytes) s2
        else Next s2
    | None => Next s2
    end in
  match snapshot with
  | Next s3 => (set_timers (S (timers s3)) s3, Some (mkResponse 101 (BodySocket clientKey)))
  | Return s3 | Throw s3 => (s3, None)
  end.

(** [fetch], for an initialised object ([initialize] returns at once). *)
Definition fetch (req : Request) (s : ListDO) : ListDO * option Response :=
  match req with
  | ReqOptions => (s, Some (mkResponse 204 BodyNone))
  | ReqUpgrade u => handleWebSocket u s
  | ReqInit meta =>
      let s1 := set_schema (meta_schema meta) (set_listMeta (Some meta) s) in
      (saveSchema (saveMeta s1), Some (mkResponse 200 BodyOk))
  | ReqGetItems =>
      (s, Some (mkResponse 200 (BodyListing (schema s) (JsMap.values (items s)))))
  | ReqAddItem item =>
      let s1 := set_items (JsMap.set (item_id item) item (items s)) s in
      let s2 := saveItems s1 in
      (broadcast down (ItemAdded item) None s2, Some (mkResponse 200 (BodyItem item)))
  | ReqUpdateItem itemId updates =>
      match JsMap.get itemId (items s) with
      | None => (s, Some (mkResponse 404 (BodyText "Not found")))
      | Some existing =>
          let updated := apply_updates existing updates now in
          let s1 := set_items (JsMap.set itemId updated (items s)) s in
          let s2 := saveItems s1 in
          (broadcast down (ItemUpdated updated) None s2,
           Some (mkResponse 200 (BodyItem updated)))
      end
  | ReqDeleteItem itemId =>
      let s1 := set_items (JsMap.delete itemId (items s)) s in
      let s2 := saveItems s1 in
      (broadcast down (ItemDeleted itemId) None s2, Some (mkResponse 200 BodyOk))
  | ReqUpdateSchema sch =>
      let s1 := set_schema sch s in
      let s2 := match listMeta s1 with
                | Some m =>
                    saveMeta
                      (set_listMeta
                         (Some (mkListMeta (meta_id m) (meta_name m) sch (meta_createdAt m)
                                           (meta_ownerEmail m) (meta_shares m))) s1)
                | None => s1
                end in
      let s3 := saveSchema s2 in
      (broadcast down (SchemaChanged sch) None s3, Some (mkResponse 200 BodyOk))
  | ReqClearDone =>
      let toDelete := checked_ids (items s) in
      let s1 := clear_loop toDelete s in
      (saveItems s1, Some (mkResponse 200 (BodyCleared (length toDelete))))
  | ReqOther => (s, Some (mkResponse 404 (BodyText "Not found")))
  end.

(** The [message] listener of the socket registered under [clientKey] by a
    client of role [userRole] (both captured by the closure). *)
Definition onMessage (clientKey : string) (userRole : Role) (data : WsData) (s : ListDO)
  : ListDO :=
  caught
    match data with
    | Binary update =>
        if is_viewer userRole then Return s
        else
          let s1 := saveYjsDoc (merge_update update s) in
          Return (send_loop down (BinaryFrame update) (Some clientKey) (clients s1) s1)
    | Text None => Throw s
    | Text (Some msg) =>
        (if String.eqb (msg_type msg) "crdt-update" then
           if is_viewer userRole then
             server_send clientKey view_only s >>> Return
           else
             let s1 := saveYjsDoc (merge_update (Uint8Array_from (msg_data msg)) s) in
             Next (broadcast down (Relayed msg) (Some clientKey) s1)
         else Next s) >>> fun s =>
        (if String.eqb (msg_type msg) "item-toggle" then
           if is_viewer userRole then
             server_send clientKey view_only s >>> Return
           else
             match JsMap.get (msg_itemId msg) (items s) with
             | Some item =>
                 let item' := mkItem (item_id item) (item_fields item) (msg_checked msg) now in
                 let s1 := set_items (JsMap.set (msg_itemId msg) item' (items s)) s in
                 let s2 := saveItems s1 in
                 Next (broadcast down (ItemUpdated item') None s2)
             | None => Next s
             end
         else Next s) >>> fun s =>
        (if String.eqb (msg_type msg) "item-update-fields" then
           if is_viewer userRole then
             server_send clientKey view_only s >>> Return
           else
             match JsMap.get (msg_itemId msg) (items s) with
             | Some item =>
                 let item' := mkItem (item_id item)
                                     (merge_fields (item_fields item) (msg_fields msg))
                                     (item_checked item) now in
                 let s1 := set_items (JsMap.set (msg_itemId msg) item' (items s)) s in
                 let s2 := saveItems s1 in
                 Next (broadcast down (ItemUpdated item') (Some clientKey) s2)
             | None => Next s
             end
         else Next s)
    end.

(** The [close] and [error] listeners. *)
Definition onClose (clientKey : string) (s : ListDO) : ListDO :=
  broadcastPresence down (set_clients (JsMap.delete clientKey (clients s)) s).

(** A pending [setTimeout(() => this.broadcastPresence(), 50)] fires. *)
Definition onTimer (s : ListDO) : ListDO :=
  match timers s with
  | O => s
  | S n => broadcastPresence down (set_timers n s)
  end.
End Handlers.

(** ** The actor: one handler per arriving event *)

Inductive Input :=
| InFetch (req : Request)
| InMessage (clientKey : string) (userRole : Role) (data : WsData)
| InClose (clientKey : string)
| InError (clientKey : string)
| InTimer.

(** An event with the clock and the broken sockets at the time it is
    handled. *)
Record Arrival := mkArrival {
  at_now : Z;
  at_down : string -> bool;
  at_input : Input
}.

Definition step (s : ListDO) (a : Arrival) : ListDO :=
  match at_input a with
  | InFetch req => fst (fetch (at_down a) (at_now a) req s)
  | InMessage clientKey userRole data =>
      onMessage (at_down a) (at_now a) clientKey userRole data s
  | InClose clientKey | InError clientKey => onClose (at_down a) clientKey s
  | InTimer => onTimer (at_down a) s
  end.

Definition run (s : ListDO) (arrivals : list Arrival) : ListDO := foldl step s arrivals.

Definition empty_storage : Storage := mkStorage None None None None.

(** A freshly constructed, initialised object with nothing stored. *)
Definition initial : ListDO := mkListDO [] [] [] None None empty_storage 0 [].

(** ** Reading the log *)

(** The events a handler added. *)
Definition since (s s' : ListDO) : list Event := drop (length (log s)) (log s').

(** The messages a socket accepted, oldest first. *)
Fixpoint received (key : string) (l : list Event) : list ServerMsg :=
  match l with
  | [] => []
  | EvSend k m :: rest => if String.eqb k key then m :: received key rest else received key rest
  | _ :: rest => received key rest
  end.

(** Messages that announce a change of the item store or of the ledger. *)
Definition announces_mutation (m : ServerMsg) : bool :=
  match m with
  | ItemAdded _ | ItemUpdated _ | ItemDeleted _ | Relayed _ | BinaryFrame _ => true
  | _ => false
  end.

(** Every announcement of a mutation in the trace comes after a storage
    write of the same trace. *)
Fixpoint persisted_first (written : bool) (l : list Event) : bool :=
  match l with
  | [] => true
  | EvPut _ :: rest => persisted_first true rest
  | EvSend _ m :: rest =>
      if announces_mutation m then written && persisted_first written rest
      else persisted_first written rest
  | _ :: rest => persisted_first written rest
  end.

(** All send attempts of the trace, accepted or not. *)
Fixpoint attempts (l : list Event) : list (string * ServerMsg) :=
  match l with
  | [] => []
  | EvSend k m :: rest | EvSendFailed k m :: rest => (k, m) :: attempts rest
  | _ :: rest => attempts rest
  end.

(** What one round of the sending loop logs for the client [key], and the
    clients it prunes. *)
Definition loop_event (down : string -> bool) (message : ServerMsg)
           (excludeKey : option string) (key : string) : list Event :=
  if excluded key excludeKey then []
  else if down key then [EvSendFailed key message]
  else [EvSend key message].

Definition loop_events (down : string -> bool) (message : ServerMsg)
           (excludeKey : option string) (keys : list string) : list Event :=
  flat_map (loop_event down message excludeKey) keys.

Definition pruned (down : string -> bool) (excludeKey : option string) (key : string) : bool :=
  negb (excluded key excludeKey) && down key.

Definition prune (keys : list string) (c : list (string * ConnectedClient))
  : list (string * ConnectedClient) :=
  foldl (fun c k => JsMap.delete k c) c keys.

(** ** The worker's share handlers (the router of the worker)

    The key-value namespace [LISTS_INDEX] holds the list records under
    [list:<id>] and each user's list identifiers under [user-lists:<email>];
    the two families of keys are kept as two maps. *)

Record Env := mkEnv {
  ALLOWED_EMAILS : string;
  kv_lists : gmap string ListMeta;
  kv_user_lists : gmap string (list string)
}.

Definition put_list (listId : string) (meta : ListMeta) (env : Env) : Env :=
  mkEnv (ALLOWED_EMAILS env) (<[listId := meta]> (kv_lists env)) (kv_user_lists env).

Definition put_user_lists (email : string) (ids : list string) (env : Env) : Env :=
  mkEnv (ALLOWED_EMAILS env) (kv_lists env) (<[email := ids]> (kv_user_lists env)).

Definition with_shares (shares : list Share) (meta : ListMeta) : ListMeta :=
  mkListMeta (meta_id meta) (meta_name meta) (meta_schema meta) (meta_createdAt meta)
             (meta_ownerEmail meta) shares.

(** [s.split(sep)] for a one-character separator. *)
Fixpoint split_on (sep : Ascii.ascii) (s : string) : list string :=
  match s with
  | EmptyString => [EmptyString]
  | String c rest =>
      if Ascii.eqb c sep then EmptyString :: split_on sep rest
      else match split_on sep rest with
           | [] => [String c EmptyString]
           | piece :: pieces => String c piece :: pieces
           end
  end.

Definition getListMeta (listId : string) (env : Env) : option ListMeta :=
  kv_lists env !! listId.

Definition addListToUserIndex (email listId : string) (env : Env) : Env :=
  let ids := default [] (kv_user_lists env !! email) in
  if bool_decide (listId ∈ ids) then env
  else put_user_lists email (ids ++ [listId]) env.

Definition removeListFromUserIndex (email listId : string) (env : Env) : Env :=
  match kv_user_lists env !! email with
  | None => env
  | Some ids => put_user_lists email (filter (fun id => id ≠ listId) ids) env
  end.

(** [share.role = role] on the share that [find] returned: the first one
    with that email. *)
Fixpoint set_role (email : string) (role : ShareRole) (shares : list Share) : list Share :=
  match shares with
  | [] => []
  | sh :: rest =>
      if String.eqb (share_email sh) email then mkShare (share_email sh) role :: rest
      else sh :: set_role email role rest
  end.

Definition share_emails (meta : ListMeta) : list string :=
  map share_email (meta_shares meta).

Definition json (code : Z) (b : Body) : option Response := Some (mkResponse code b).

Section ShareHandlers.
(** String primitives of the platform. [decodeURIComponent] throws on a
    malformed escape: [None]. *)
Variable toLowerCase : string -> string.
Variable trim : string -> string.
Variable decodeURIComponent : string -> option string.

Definition isAllowedEmail (email allowedEmails : string) : bool :=
  let allowed := map (fun e => toLowerCase (trim e)) (split_on ","%char allowedEmails) in
  bool_decide (toLowerCase email ∈ allowed).

(** The handlers return the environment they leave and their response,
    [None] when they throw. *)
Definition handleAddShare (listId email : string) (role : ShareRole)
           (user : JWTPayload) (env : Env) : Env * option Response :=
  match getListMeta listId env with
  | None => (env, json 404 (BodyError "Not found"))
  | Some meta =>
      if negb (String.eqb (meta_ownerEmail meta) (jwt_email user)) then
        (env, json 403 (BodyError "Forbidden"))
      else if negb (isAllowedEmail email (ALLOWED_EMAILS env)) then
        (env, json 400 (BodyError "Email not in allowed list"))
      else if String.eqb (toLowerCase email) (jwt_email user) then
        (env, json 400 (BodyError "Cannot share with yourself"))
      else if existsb (fun sh => String.eqb (share_email sh) (toLowerCase email))
                      (meta_shares meta) then
        (env, json 400 (BodyError "Already shared with this user"))
      else
        let meta' := with_shares (meta_shares meta ++ [mkShare (toLowerCase email) role]) meta in
        let env1 := put_list listId meta' env in
        let env2 := addListToUserIndex (toLowerCase email) listId env1 in
        (env2, json 200 (BodyShares (meta_shares meta')))
  end.

Definition handleUpdateShare (listId targetEmail : string) (role : ShareRole)
           (user : JWTPayload) (env : Env) : Env * option Response :=
  match getListMeta listId env with
  | None => (env, json 404 (BodyError "Not found"))
  | Some meta =>
      if negb (String.eqb (meta_ownerEmail meta) (jwt_email user)) then
        (env, json 403 (BodyError "Forbidden"))
      else
        match decodeURIComponent targetEmail with
        | None => (env, None)
        | Some decoded =>
            let decodedEmail := toLowerCase decoded in
            if existsb (fun sh => String.eqb (share_email sh) decodedEmail) (meta_shares meta)
            then
              let meta' := with_shares (set_role decodedEmail role (meta_shares meta)) meta in
              (put_list listId meta' env, json 200 (BodyShares (meta_shares meta')))
            else (env, json 404 (BodyError "Share not found"))
        end
  end.

Definition handleRemoveShare (listId targetEmail : string)
           (user : JWTPayload) (env : Env) : Env * option Response :=
  match getListMeta listId env with
  | None => (env, json 404 (BodyError "Not found"))
  | Some meta =>
      if negb (String.eqb (meta_ownerEmail meta) (jwt_email user)) then
        (env, json 403 (BodyError "Forbidden"))
      else
        match decodeURIComponent targetEmail with
        | None => (env, None)
        | Some decoded =>
            let decodedEmail := toLowerCase decoded in
            let meta' :=
              with_shares (filter (fun sh => share_email sh ≠ decodedEmail) (meta_shares meta))
                          meta in
            let env1 := put_list listId meta' env in
            let env2 := removeListFromUserIndex decodedEmail listId env1 in
            (env2, json 200 (BodyShares (meta_shares meta')))
        end
  end.

(** The share operations of the router, with the authenticated user. *)
Inductive ShareOp :=
| AddShare (listId email : string) (role : ShareRole)         (* POST /list/:id/shares *)
| UpdateShare (listId targetEmail : string) (role : ShareRole) (* PATCH /list/:id/shares/:email *)
| RemoveShare (listId targetEmail : string).                  (* DELETE /list/:id/shares/:email *)

Definition share_op (user : JWTPayload) (op : ShareOp) (env : Env) : Env * option Response :=
  match op with
  | AddShare listId email role => handleAddShare listId email role user env
  | UpdateShare listId targetEmail role => handleUpdateShare listId targetEmail role user env
  | RemoveShare listId targetEmail => handleRemoveShare listId targetEmail user env
  end.

Definition share_ops (env : Env) (ops : list (JWTPayload * ShareOp)) : Env :=
  foldl (fun env o => fst (share_op (fst o) (snd o) env)) env ops.
End ShareHandlers.

(** The invariant of a list record: the owner is not among the shares, and
    no email is shared with twice. *)
Definition shares_ok (meta : ListMeta) : Prop :=
  (meta_ownerEmail meta ∉ share_emails meta) ∧ NoDup (share_emails meta).

Definition index_ok (env : Env) : Prop :=
  ∀ listId meta, kv_lists env !! listId = Some meta → shares_ok meta.

(** ASCII instances of the string primitives, for the examples. *)
Definition lower_char (c : Ascii.ascii) : Ascii.ascii :=
  let n := Ascii.nat_of_ascii c in
  if ((65 <=? n) && (n <=? 90))%nat then Ascii.ascii_of_nat (n + 32) else c.

Fixpoint ascii_toLowerCase (s : string) : string :=
  match s with
  | EmptyString => EmptyString
  | String c rest => String (lower_char c) (ascii_toLowerCase rest)
  end.

Fixpoint trim_start (s : string) : string :=
  match s with
  | String " "%char rest => trim_start rest
  | _ => s
  end.

Definition ascii_trim (s : string) : string :=
  String.rev (trim_start (String.rev (trim_start s))).

(** [decodeURIComponent] on text without [%] escapes. *)
Definition plain_decode (s : string) : option string := Some s.

Definition owner_jwt : JWTPayload := mkJWT "carol@example.org" "Carol" "#3B82F6".

Definition camping_meta : ListMeta :=
  mkListMeta "L1" "Camping" [] 90 "carol@example.org"
             [mkShare "alice@example.org" ShareEditor; mkShare "bob@example.org" ShareViewer].

Definition camping_env : Env :=
  mkEnv "alice@example.org, bob@example.org,carol@example.org, Dave@Example.org"
        {[ "L1" := camping_meta ]}
        {[ "carol@example.org" := ["L1"]; "alice@example.org" := ["L1"];
           "bob@example.org" := ["L1"] ]}.

(** ** A small list, used to exercise the handlers

    The owner's list "Camping" of the specification's scenarios: three
    connected sessions (an editor, a viewer, the owner) and two items, the
    first of them checked. *)

Definition alice : ConnectedClient :=
  mkClient (mkPresenceUser "alice@example.org" "Alice" "#EF4444") Editor.
Definition bob : ConnectedClient :=
  mkClient (mkPresenceUser "bob@example.org" "Bob" "#10B981") Viewer.
Definition carol : ConnectedClient :=
  mkClient (mkPresenceUser "carol@example.org" "Carol" "#3B82F6") Owner.

Definition tent : Item :=
  mkItem "i1" {[ "item" := JStr "Tent"; "weight" := JNum 2000 ]} true 100.
Definition stove : Item :=
  mkItem "i2" {[ "item" := JStr "Stove"; "weight" := JNum 450 ]} false 101.

Definition camping : ListDO :=
  mkListDO [("k1", alice); ("k2", bob); ("k3", carol)]
           [("i1", tent); ("i2", stove)]
           [] None None
           (mkStorage (Some (items_object [("i1", tent); ("i2", stove)])) None None None)
           0 [].

Definition all_up : string -> bool := fun _ => false.

(** The structured intents that mutate the list. *)
Definition is_intent (msg : ClientMsg) : bool :=
  String.eqb (msg_type msg) "crdt-update"
  || String.eqb (msg_type msg) "item-toggle"
  || String.eqb (msg_type msg) "item-update-fields".

(** The rejection the specification promises to a viewer: nothing changes,
    and the only message sent is one error reply to the sender. *)
Definition rejected_with_one_error (clientKey : string) (s s' : ListDO) : Prop :=
  items s' = items s ∧ yjsDocState s' = yjsDocState s ∧ storage s' = storage s
  ∧ attempts (since s s') = [(clientKey, view_only)].

(** A response that reports no error to the caller. *)
Definition succeeded (r : option Response) : bool :=
  match r with
  | Some resp => (200 <=? status resp)%Z && (status resp <? 300)%Z
  | None => false
  end.

(** The soft failure the specification promises for an unknown item: the
    store is unchanged and the caller sees no error. *)
Definition soft_fail (s : ListDO) (out : ListDO * option Response) : Prop :=
  items (fst out) = items s ∧ succeeded (snd out) = true.

Definition toggle_intent (itemId : string) (checked : bool) : ClientMsg :=
  mkMsg "item-toggle" itemId checked ∅ [].
Definition update_fields_intent (itemId : string) (fields : gmap string JsValue) : ClientMsg :=
  mkMsg "item-update-fields" itemId false fields [].
Definition crdt_update_intent (data : list Z) : ClientMsg :=
  mkMsg "crdt-update" "" false ∅ data.

(** The log only grows. *)
Definition extends (s s' : ListDO) : Prop := log s `prefix_of` log s'.

Definition flow_state (f : Flow) : ListDO :=
  match f with Next s | Return s | Throw s => s end.

(** The bytes both delta branches store: the old ledger followed by the
    update. *)
Definition appended (update : list Z) (s : ListDO) : list Z :=
  default [] (yjsDocState s) ++ update.

(** The registry and the item store are maps: no key twice. *)
Definition well_formed (s : ListDO) : Prop := JsMap.wf (clients s) ∧ JsMap.wf (items s).

(** ** Further parts of the coordinator *)

(** [broadcastToEditors]: the loop of [broadcast] with one more guard,
    [if (client.role === 'viewer') continue]. *)
Fixpoint editors_loop (down : string -> bool) (message : ServerMsg)
         (excludeKey : option string)
         (entries : list (string * ConnectedClient)) (s : ListDO) : ListDO :=
  match entries with
  | [] => s
  | (key, client) :: rest =>
      if excluded key excludeKey then editors_loop down message excludeKey rest s
      else if is_viewer (client_role client) then editors_loop down message excludeKey rest s
      else if down key then
        editors_loop down message excludeKey rest
          (set_clients (JsMap.delete key (clients s)) (emit (EvSendFailed key message) s))
      else editors_loop down message excludeKey rest (emit (EvSend key message) s)
  end.

Definition broadcastToEditors (down : string -> bool) (message : ServerMsg)
           (excludeKey : option string) (s : ListDO) : ListDO :=
  editors_loop down message excludeKey (clients s) s.

(** The emails of the connected sessions, in registry order. *)
Definition client_emails (cs : list (string * ConnectedClient)) : list string :=
  map (fun e => pu_email (client_user (snd e))) cs.

(** The stored ledger as bytes, [null] read as empty. *)
Definition ledger_bytes (s : ListDO) : list Z := default [] (yjsDocState s).

(** What storage keeps of an item store [m]: an object that has, under
    every identifier but "__proto__", the item that [m] holds under it, and
    that has no property "__proto__". *)
Definition stored_as (m : list (string * Item)) (obj : gmap string Item) : Prop :=
  obj !! "__proto__" = None
  ∧ ∀ id, id ≠ "__proto__" → obj !! id = JsMap.get id m.

(** Memory and storage agree: the stored items are those of the item store
    (as far as an object can hold them), and the stored ledger, schema and
    list record are the ones in memory. *)
Definition durable (s : ListDO) : Prop :=
  stored_as (items s) (default ∅ (st_items (storage s)))
  ∧ yjsDocState s = st_yjsDoc (storage s)
  ∧ schema s = default [] (st_schema (storage s))
  ∧ listMeta s = st_meta (storage s).

(** Every item is stored under its own identifier. *)
Definition keyed (m : list (string * Item)) : Prop :=
  Forall (fun e => item_id (snd e) = fst e) m.

(** The messages that tell a client about the item list. *)
Definition about_items (m : ServerMsg) : bool :=
  match m with
  | ItemsChanged _ | ItemAdded _ | ItemUpdated _ | ItemDeleted _ => true
  | _ => false
  end.

(** The states the message listener can leave: it ignores the message, logs
    a malformed one, refuses a viewer, stores and relays a ledger delta, or
    replaces one stored item by an item of the same identifier and
    broadcasts it. *)
Inductive MessageOutcome (down : string → bool) (clientKey : string) (s : ListDO)
  : ListDO → Prop :=
| Ignored : MessageOutcome down clientKey s s
| Malformed : MessageOutcome down clientKey s (emit EvConsoleError s)
| Refused :
    MessageOutcome down clientKey s (caught (server_send down clientKey view_only s >>> Return))
| DeltaStored (bytes : list Z) (m : ServerMsg) :
    about_items m = false →
    MessageOutcome down clientKey s
      (broadcast down m (Some clientKey) (saveYjsDoc (merge_update bytes s)))
| ItemReplaced (k : string) (old new : Item) (excludeKey : option string) :
    JsMap.get k (items s) = Some old →
    item_id new = item_id old →
    (excludeKey = None ∨ excludeKey = Some clientKey) →
    MessageOutcome down clientKey s
      (broadcast down (ItemUpdated new) excludeKey
         (saveItems (set_items (JsMap.set k new (items s)) s))).

(** ** The client's mirror of the item list

    The reducers the list view hands to the sync hook ([onItemsChanged],
    [onItemAdded], [onItemUpdated], [onItemDeleted]) and the dispatch of the
    hook's [onmessage]: binary frames and the other message types leave the
    items alone. *)

Definition onItemAdded (prev : list Item) (item : Item) : list Item :=
  if existsb (fun p => String.eqb (item_id p) (item_id item)) prev then prev
  else prev ++ [item].

Definition onItemUpdated (prev : list Item) (item : Item) : list Item :=
  map (fun p => if String.eqb (item_id p) (item_id item) then item else p) prev.

Definition onItemDeleted (prev : list Item) (itemId : string) : list Item :=
  filter (fun p => item_id p ≠ itemId) prev.

Definition reconcile (mirror : list Item) (m : ServerMsg) : list Item :=
  match m with
  | ItemsChanged items => items
  | ItemAdded item => onItemAdded mirror item
  | ItemUpdated item => onItemUpdated mirror item
  | ItemDeleted itemId => onItemDeleted mirror itemId
  | _ => mirror
  end.

(** The mirror after a sequence of received messages. *)
Definition replay (mirror : list Item) (msgs : list ServerMsg) : list Item :=
  foldl reconcile mirror msgs.

(** The arrivals a passive session [k] can follow: its socket works, it
    is not the one that sends or closes, an added item has a new identifier
    and an update over HTTP does not rename its item. *)
Definition followable (k : string) (s : ListDO) (a : Arrival) : Prop :=
  at_down a k = false
  ∧ match at_input a with
    | InFetch (ReqAddItem item) => JsMap.get (item_id item) (items s) = None
    | InFetch (ReqUpdateItem itemId updates) =>
        upd_id updates = None ∨ upd_id updates = Some itemId
    | InMessage clientKey _ _ => clientKey ≠ k
    | InClose clientKey | InError clientKey => clientKey ≠ k
    | _ => True
    end.

Fixpoint all_followable (k : string) (s : ListDO) (arrivals : list Arrival) : Prop :=
  match arrivals with
  | [] => True
  | a :: rest => followable k s a ∧ all_followable k (step s a) rest
  end.

(** What the server must satisfy for a mirror to follow it. *)
Definition tracking (k : string) (s : ListDO) : Prop :=
  well_formed s ∧ keyed (items s) ∧ k ∈ JsMap.keys (clients s).

(** A state that differs from [s] by events the session [k] does not see:
    [k] is still registered, the items are the same and nothing was sent
    to [k]. *)
Definition quiet (k : string) (s s0 : ListDO) : Prop :=
  JsMap.wf (clients s0) ∧ k ∈ JsMap.keys (clients s0) ∧ items s0 = items s
  ∧ ∃ pre, log s0 = log s ++ pre ∧ received k pre = [].

(** An afternoon on the list "Camping": the editor behind "k1" and the
    owner behind "k3" work, somebody joins, a socket closes, a timer
    fires. *)
Definition afternoon : list Arrival :=
  [mkArrival 210 all_up (InMessage "k1" Editor (Text (Some (toggle_intent "i1" false))));
   mkArrival 220 all_up
     (InMessage "k3" Owner
        (Text (Some (update_fields_intent "i2" {[ "weight" := JNum 500 ]}))));
   mkArrival 230 all_up
     (InFetch (ReqAddItem (mkItem "i3" {[ "item" := JStr "Lamp" ]} true 229)));
   mkArrival 240 all_up (InMessage "k1" Editor (Binary [2; 4; 4]));
   mkArrival 250 (String.eqb "k3")
     (InFetch (ReqUpdateItem "i2" (mkUpdates None None (Some true) None)));
   mkArrival 260 all_up
     (InFetch (ReqUpgrade
        (mkUpgrade (Some "dave@example.org") (Some "Dave") None (Some Editor) "260-0.7")));
   mkArrival 270 all_up InTimer;
   mkArrival 280 all_up (InFetch ReqClearDone);
   mkArrival 290 all_up (InClose "k1");
   mkArrival 300 all_up (InFetch (ReqDeleteItem "i3"))].

(** ** The worker's list and item handlers

    The worker finds the list record in the key-value namespace, resolves
    the caller's role and forwards to the list's Durable Object, one object
    per list identifier ([idFromName]); an object that was never used is a
    freshly constructed one. *)

Definition role_of_share (r : ShareRole) : Role :=
  match r with ShareViewer => Viewer | ShareEditor => Editor end.

Definition getUserRole (user : JWTPayload) (list : ListMeta) : option Role :=
  if String.eqb (meta_ownerEmail list) (jwt_email user) then Some Owner
  else match List.find (fun sh => String.eqb (share_email sh) (jwt_email user))
                       (meta_shares list) with
       | Some share => Some (role_of_share (share_role share))
       | None => None
       end.

Record World := mkWorld {
  w_env : Env;
  w_objects : gmap string ListDO
}.

Definition object_of (listId : string) (w : World) : ListDO :=
  default initial (w_objects w !! listId).

(** The object's own writes to the namespace ([saveMeta]). *)
Definition index_puts (env : Env) (events : list Event) : Env :=
  foldl (fun env e => match e with
                      | EvIndexPut m => put_list (meta_id m) m env
                      | _ => env
                      end) env events.

(** [stub.fetch(...)] on the object of the list. *)
Definition stub_fetch (down : string → bool) (now : Z) (listId : string) (req : Request)
           (w : World) : World * option Response :=
  let obj := object_of listId w in
  let out := fetch down now req obj in
  (mkWorld (index_puts (w_env w) (since obj (fst out)))
           (<[listId := fst out]> (w_objects w)),
   snd out).

Inductive WBody :=
| WError (error : string)
| WOk
| WResult (result : Body)                       (* the object's JSON, passed on *)
| WList (meta : ListMeta) (myRole : Role)
| WLists (lists : list (ListMeta * Role))
| WDetail (meta : ListMeta) (schema : list Field) (items : list Item) (myRole : Role).

Record WResponse := mkWResponse {
  w_status : Z;
  w_body : WBody
}.

Definition reply (code : Z) (b : WBody) : option WResponse := Some (mkWResponse code b).

(** [await resp.json()]: text that is not JSON makes it throw. *)
Definition resp_json (r : option Response) : option Body :=
  match r with
  | Some resp => match body resp with
                 | BodyText _ | BodyNone | BodySocket _ => None
                 | b => Some b
                 end
  | None => None
  end.

Definition can_edit (role : option Role) : bool :=
  match role with
  | Some Owner | Some Editor => true
  | _ => false
  end.

Section Worker.
Variable down : string → bool.
Variable now : Z.

Definition handleGetLists (user : JWTPayload) (w : World) : World * option WResponse :=
  let userListIds := default [] (kv_user_lists (w_env w) !! jwt_email user) in
  let lists :=
    flat_map (fun listId =>
                match getListMeta listId (w_env w) with
                | Some meta => match getUserRole user meta with
                               | Some role => [(meta, role)]
                               | None => []
                               end
                | None => []
                end) userListIds in
  (w, reply 200 (WLists lists)).

(** [id] stands for [crypto.randomUUID()]. *)
Definition handleCreateList (id name : string) (schema : list Field) (user : JWTPayload)
           (w : World) : World * option WResponse :=
  let meta := mkListMeta id name schema now (jwt_email user) [] in
  let env1 := put_list id meta (w_env w) in
  let env2 := addListToUserIndex (jwt_email user) id env1 in
  let w3 := fst (stub_fetch down now id (ReqInit meta) (mkWorld env2 (w_objects w))) in
  (w3, reply 201 (WList meta Owner)).

Definition handleGetList (listId : string) (user : JWTPayload) (w : World)
  : World * option WResponse :=
  match getListMeta listId (w_env w) with
  | None => (w, reply 404 (WError "Not found"))
  | Some meta =>
      match getUserRole user meta with
      | None => (w, reply 403 (WError "Forbidden"))
      | Some role =>
          let out := stub_fetch down now listId ReqGetItems w in
          match resp_json (snd out) with
          | Some (BodyListing schema items) =>
              (fst out, reply 200 (WDetail meta schema items role))
          | _ => (fst out, None)
          end
      end
  end.

Definition handleDeleteList (listId : string) (user : JWTPayload) (w : World)
  : World * option WResponse :=
  match getListMeta listId (w_env w) with
  | None => (w, reply 404 (WError "Not found"))
  | Some meta =>
      if negb (String.eqb (meta_ownerEmail meta) (jwt_email user)) then
        (w, reply 403 (WError "Forbidden"))
      else
        let env := w_env w in
        let env1 := mkEnv (ALLOWED_EMAILS env) (delete listId (kv_lists env))
                          (kv_user_lists env) in
        let env2 := removeListFromUserIndex (jwt_email user) listId env1 in
        let env3 := foldl (fun env share => removeListFromUserIndex (share_email share) listId env)
                          env2 (meta_shares meta) in
        (mkWorld env3 (w_objects w), reply 200 WOk)
  end.

Definition handleUpdateSchema (listId : string) (schema : list Field) (user : JWTPayload)
           (w : World) : World * option WResponse :=
  match getListMeta listId (w_env w) with
  | None => (w, reply 404 (WError "Not found"))
  | Some meta =>
      if negb (can_edit (getUserRole user meta)) then (w, reply 403 (WError "Forbidden"))
      else
        let w1 := fst (stub_fetch down now listId (ReqUpdateSchema schema) w) in
        let meta' := mkListMeta (meta_id meta) (meta_name meta) schema (meta_createdAt meta)
                                (meta_ownerEmail meta) (meta_shares meta) in
        (mkWorld (put_list listId meta' (w_env w1)) (w_objects w1), reply 200 WOk)
  end.

Definition handleAddItem (listId : string) (item : Item) (user : JWTPayload) (w : World)
  : World * option WResponse :=
  match getListMeta listId (w_env w) with
  | None => (w, reply 404 (WError "Not found"))
  | Some meta =>
      if negb (can_edit (getUserRole user meta)) then (w, reply 403 (WError "Forbidden"))
      else
        let out := stub_fetch down now listId (ReqAddItem item) w in
        match resp_json (snd out) with
        | Some result => (fst out, reply 201 (WResult result))
        | None => (fst out, None)
        end
  end.

Definition handleDeleteItem (listId itemId : string) (user : JWTPayload) (w : World)
  : World * option WResponse :=
  match getListMeta listId (w_env w) with
  | None => (w, reply 404 (WError "Not found"))
  | Some meta =>
      if negb (can_edit (getUserRole user meta)) then (w, reply 403 (WError "Forbidden"))
      else (fst (stub_fetch down now listId (ReqDeleteItem itemId) w), reply 200 WOk)
  end.

Definition handleUpdateItem (listId itemId : string) (updates : ItemUpdates)
           (user : JWTPayload) (w : World) : World * option WResponse :=
  match getListMeta listId (w_env w) with
  | None => (w, reply 404 (WError "Not found"))
  | Some meta =>
      if negb (can_edit (getUserRole user meta)) then (w, reply 403 (WError "Forbidden"))
      else
        let out := stub_fetch down now listId (ReqUpdateItem itemId updates) w in
        match resp_json (snd out) with
        | Some result => (fst out, reply 200 (WResult result))
        | None => (fst out, None)
        end
  end.

Definition handleClearDone (listId : string) (user : JWTPayload) (w : World)
  : World * option WResponse :=
  match getListMeta listId (w_env w) with
  | None => (w, reply 404 (WError "Not found"))
  | Some meta =>
      if negb (can_edit (getUserRole user meta)) then (w, reply 403 (WError "Forbidden"))
      else
        let out := stub_fetch down now listId ReqClearDone w in
        match resp_json (snd out) with
        | Some result => (fst out, reply 200 (WResult result))
        | None => (fst out, None)
        end
  end.

(** The worker's [handleWebSocket]: the identity and the role it resolved
    are written over the query of the request before it is forwarded. The
    response of the object is returned as it is. *)
Definition routeWebSocket (listId nonce : string) (user : JWTPayload) (w : World)
  : World * option WResponse :=
  match getListMeta listId (w_env w) with
  | None => (w, reply 404 (WError "Not found"))
  | Some meta =>
      match getUserRole user meta with
      | None => (w, reply 403 (WError "Forbidden"))
      | Some role =>
          let u := mkUpgrade (Some (jwt_email user)) (Some (jwt_name user))
                             (Some (jwt_color user)) (Some role) nonce in
          let out := stub_fetch down now listId (ReqUpgrade u) w in
          match snd out with
          | Some resp => (fst out, reply (status resp) (WResult (body resp)))
          | None => (fst out, None)
          end
      end
  end.

(** The list operations of the router that change a list or open a
    session on it. *)
Inductive ListOp :=
| OpUpdateSchema (schema : list Field)
| OpAddItem (item : Item)
| OpDeleteItem (itemId : string)
| OpUpdateItem (itemId : string) (updates : ItemUpdates)
| OpClearDone
| OpSocket (nonce : string).

Definition list_op (listId : string) (op : ListOp) (user : JWTPayload) (w : World)
  : World * option WResponse :=
  match op with
  | OpUpdateSchema schema => handleUpdateSchema listId schema user w
  | OpAddItem item => handleAddItem listId item user w
  | OpDeleteItem itemId => handleDeleteItem listId itemId user w
  | OpUpdateItem itemId updates => handleUpdateItem listId itemId updates user w
  | OpClearDone => handleClearDone listId user w
  | OpSocket nonce => routeWebSocket listId nonce user w
  end.
End Worker.

Definition is_socket (op : ListOp) : bool :=
  match op with OpSocket _ => true | _ => false end.

Definition camping_world : World :=
  mkWorld camping_env {[ "L1" := camping ]}.

Definition alice_jwt : JWTPayload := mkJWT "alice@example.org" "Alice" "#EF4444".
Definition bob_jwt : JWTPayload := mkJWT "bob@example.org" "Bob" "#10B981".
Definition mallory_jwt : JWTPayload := mkJWT "mallory@example.org" "Mallory" "#000000".

(** The list identifiers in a user's index, none when there is no entry. *)
Definition user_ids (env : Env) (email : string) : list string :=
  default [] (kv_user_lists env !! email).

(** ** URL-safe base64 (the token utilities of the worker)

    [btoa] and [atob] are the platform's; [atob] throws on text that is not
    base64: [None]. *)

(** [s.replace(/c/g, d)] for single characters. *)
Fixpoint replace_char (c d : Ascii.ascii) (s : string) : string :=
  match s with
  | EmptyString => EmptyString
  | String x rest => String (if Ascii.eqb x c then d else x) (replace_char c d rest)
  end.

(** [s.replace(/=+$/, '')] *)
Fixpoint strip_padding (s : string) : string :=
  match s with
  | EmptyString => EmptyString
  | String x rest =>
      match strip_padding rest with
      | EmptyString => if Ascii.eqb x "="%char then EmptyString else String x EmptyString
      | rest' => String x rest'
      end
  end.

(** ['='.repeat(n)] *)
Fixpoint padding (n : nat) : string :=
  match n with
  | O => EmptyString
  | S n => String "="%char (padding n)
  end.

Fixpoint has_char (c : Ascii.ascii) (s : string) : bool :=
  match s with
  | EmptyString => false
  | String x rest => Ascii.eqb x c || has_char c rest
  end.

Section Base64Url.
Variable btoa : string → string.
Variable atob : string → option string.

Definition base64UrlEncode (str : string) : string :=
  strip_padding (replace_char "/"%char "_"%char (replace_char "+"%char "-"%char (btoa str))).

Definition base64UrlDecode (str : string) : option string :=
  let base64 := replace_char "_"%char "/"%char (replace_char "-"%char "+"%char str) in
  let padded := String.append base64 (padding ((4 - String.length base64 mod 4) mod 4)) in
  atob padded.
End Base64Url.

(** Standard base64 text, as [btoa] produces it: a multiple of four
    characters, none of them [-] or [_], with at most two [=], all at the
    end. *)
Definition is_base64 (b : string) : bool :=
  (String.length b mod 4 =? 0)%nat
  && (String.length b - String.length (strip_padding b) <=? 2)%nat
  && negb (has_char "-"%char b) && negb (has_char "_"%char b)
  && negb (has_char "="%char (strip_padding b)).

(** An implementation of [btoa] and [atob] on byte strings, to run the
    token utilities on examples. *)
Definition b64_char (n : nat) : Ascii.ascii :=
  if (n <? 26)%nat then Ascii.ascii_of_nat (65 + n)
  else if (n <? 52)%nat then Ascii.ascii_of_nat (71 + n)
  else if (n <? 62)%nat then Ascii.ascii_of_nat (n - 4)
  else if (n =? 62)%nat then "+"%char
  else "/"%char.

Definition b64_index (c : Ascii.ascii) : option nat :=
  let n := Ascii.nat_of_ascii c in
  if ((65 <=? n) && (n <=? 90))%nat then Some (n - 65)%nat
  else if ((97 <=? n) && (n <=? 122))%nat then Some (n - 71)%nat
  else if ((48 <=? n) && (n <=? 57))%nat then Some (n + 4)%nat
  else if (n =? 43)%nat then Some 62%nat
  else if (n =? 47)%nat then Some 63%nat
  else None.

Fixpoint btoa_bytes (l : list nat) : string :=
  match l with
  | [] => EmptyString
  | [a] =>
      String (b64_char (a / 4)) (String (b64_char ((a mod 4) * 16)) "==")
  | [a; b] =>
      String (b64_char (a / 4))
        (String (b64_char ((a mod 4) * 16 + b / 16))
           (String (b64_char ((b mod 16) * 4)) "="))
  | a :: b :: c :: rest =>
      String (b64_char (a / 4))
        (String (b64_char ((a mod 4) * 16 + b / 16))
           (String (b64_char ((b mod 16) * 4 + c / 64))
              (String (b64_char (c mod 64)) (btoa_bytes rest))))
  end%nat.

Definition btoa_ascii (s : string) : string :=
  btoa_bytes (map Ascii.nat_of_ascii (String.list_ascii_of_string s)).

Fixpoint atob_chars (l : list Ascii.ascii) : option (list nat) :=
  match l with
  | [] => Some []
  | a :: b :: c :: d :: rest =>
      match b64_index a, b64_index b with
      | Some i, Some j =>
          let first := (i * 4 + j / 16)%nat in
          if Ascii.eqb c "="%char then
            if Ascii.eqb d "="%char then
              match rest with [] => Some [first] | _ => None end
            else None
          else
            match b64_index c with
            | Some k =>
                let second := ((j mod 16) * 16 + k / 4)%nat in
                if Ascii.eqb d "="%char then
                  match rest with [] => Some [first; second] | _ => None end
                else
                  match b64_index d, atob_chars rest with
                  | Some m, Some bytes =>
                      Some (first :: second :: ((k mod 4) * 64 + m)%nat :: bytes)
                  | _, _ => None
                  end
            | None => None
            end
      | _, _ => None
      end
  | _ => None
  end.

Definition atob_ascii (s : string) : option string :=
  match atob_chars (String.list_ascii_of_string s) with
  | Some bytes => Some (String.string_of_list_ascii (map Ascii.ascii_of_nat bytes))
  | None => None
  end.

(** * Properties *)

(** ** [JsMap] *)

Section JsMapFacts.
Context {V : Type}.
Implicit Types (m : list (string * V)) (k : string) (v : V).

Lemma get_set_eq m k v : JsMap.get k (JsMap.set k v m) = Some v.
Proof.
  induction m as [|[k' v'] m IH]; simpl.
  - by rewrite String.eqb_refl.
  - destruct (String.eqb k k') eqn:E; simpl; rewrite ?E; [done | exact IH].
Qed.

Lemma get_set_ne m k k' v : k' ≠ k → JsMap.get k' (JsMap.set k v m) = JsMap.get k' m.
Proof.
  intros Hne. induction m as [|[k0 v0] m IH]; simpl.
  - destruct (String.eqb k' k) eqn:E; [|done].
    apply String.eqb_eq in E. congruence.
  - destruct (String.eqb k k0) eqn:E; simpl.
    + apply String.eqb_eq in E. subst k0.
      destruct (String.eqb k' k) eqn:E'; [|done].
      apply String.eqb_eq in E'. congruence.
    + by rewrite IH.
Qed.

Lemma keys_set_present m k v v0 :
  JsMap.get k m = Some v0 → JsMap.keys (JsMap.set k v m) = JsMap.keys m.
Proof.
  induction m as [|[k' v'] m IH]; simpl; [done|].
  destruct (String.eqb k k') eqn:E; simpl; [done|].
  intros H. f_equal. by apply IH.
Qed.

Lemma get_None_not_key m k : JsMap.get k m = None ↔ k ∉ JsMap.keys m.
Proof.
  induction m as [|[k' v'] m IH]; simpl.
  - split; [intros _; apply not_elem_of_nil | done].
  - destruct (String.eqb k k') eqn:E.
    + apply String.eqb_eq in E. subst. split; [done|].
      intros H. exfalso. apply H. left.
    + apply String.eqb_neq in E. rewrite IH. rewrite not_elem_of_cons. tauto.
Qed.

Lemma delete_absent m k : JsMap.get k m = None → JsMap.delete k m = m.
Proof.
  induction m as [|[k' v'] m IH]; simpl; [done|].
  destruct (String.eqb k k') eqn:E; [done|]. intros H. f_equal. by apply IH.
Qed.

Lemma get_delete_ne m k k' : k' ≠ k → JsMap.get k' (JsMap.delete k m) = JsMap.get k' m.
Proof.
  intros Hne. induction m as [|[k0 v0] m IH]; simpl; [done|].
  destruct (String.eqb k k0) eqn:E; simpl.
  - apply String.eqb_eq in E. subst k0.
    destruct (String.eqb k' k) eqn:E'; [|done].
    apply String.eqb_eq in E'. congruence.
  - by rewrite IH.
Qed.

Lemma keys_delete_subseteq m k : JsMap.keys (JsMap.delete k m) ⊆ JsMap.keys m.
Proof.
  induction m as [|[k' v'] m IH]; simpl; [done|].
  destruct (String.eqb k k'); simpl.
  - intros x Hx. by right.
  - intros x Hx. apply elem_of_cons in Hx as [->|Hx]; [left | right; by apply IH].
Qed.

Lemma get_delete_eq m k : JsMap.wf m → JsMap.get k (JsMap.delete k m) = None.
Proof.
  unfold JsMap.wf. induction m as [|[k' v'] m IH]; simpl; [done|].
  intros Hnd. apply NoDup_cons in Hnd as [Hk Hnd].
  destruct (String.eqb k k') eqn:E; simpl.
  - apply String.eqb_eq in E. subst. by apply get_None_not_key.
  - rewrite E. by apply IH.
Qed.

Lemma wf_delete m k : JsMap.wf m → JsMap.wf (JsMap.delete k m).
Proof.
  unfold JsMap.wf. induction m as [|[k' v'] m IH]; simpl; [done|].
  intros Hnd. apply NoDup_cons in Hnd as [Hk Hnd].
  destruct (String.eqb k k'); simpl; [done|].
  apply NoDup_cons. split; [|by apply IH].
  intros Hin. apply Hk. by apply (keys_delete_subseteq m k).
Qed.

Lemma keys_set_absent m k v :
  JsMap.get k m = None → JsMap.keys (JsMap.set k v m) = JsMap.keys m ++ [k].
Proof.
  induction m as [|[k' v'] m IH]; simpl; [done|].
  destruct (String.eqb k k') eqn:E; simpl; [done|].
  intros H. f_equal. by apply IH.
Qed.

Lemma wf_set m k v : JsMap.wf m → JsMap.wf (JsMap.set k v m).
Proof.
  unfold JsMap.wf. intros Hnd.
  destruct (JsMap.get k m) as [v0|] eqn:G.
  - by rewrite (keys_set_present _ _ _ _ G).
  - rewrite (keys_set_absent _ _ _ G).
    apply NoDup_app. split_and!; [done | | apply NoDup_singleton].
    intros x Hx Hx'. apply list_elem_of_singleton in Hx'. subst.
    by apply get_None_not_key in G.
Qed.
End JsMapFacts.

(** ** The effect log *)

Lemma since_app s s' ext : log s' = log s ++ ext → since s s' = ext.
Proof. intros H. unfold since. rewrite H. by rewrite drop_app_length. Qed.

Lemma since_refl s : since s s = [].
Proof. apply since_app. by rewrite app_nil_r. Qed.

Lemma received_app key l1 l2 : received key (l1 ++ l2) = received key l1 ++ received key l2.
Proof.
  induction l1 as [|e l1 IH]; simpl; [done|].
  destruct e; try done. destruct (String.eqb key0 key); simpl; by rewrite IH.
Qed.

Lemma attempts_app l1 l2 : attempts (l1 ++ l2) = attempts l1 ++ attempts l2.
Proof. induction l1 as [|e l1 IH]; simpl; [done|]. destruct e; simpl; by rewrite ?IH. Qed.

(** ** The sending loop *)

Section SendLoop.
Variable down : string -> bool.
Variable message : ServerMsg.
Variable excludeKey : option string.

Lemma send_loop_log entries s :
  log (send_loop down message excludeKey entries s)
  = log s ++ loop_events down message excludeKey (JsMap.keys entries).
Proof.
  revert s. induction entries as [|[key c] rest IH]; intros s; simpl.
  - by rewrite app_nil_r.
  - unfold loop_event. destruct (excluded key excludeKey); [apply IH|].
    destruct (down key); rewrite IH; simpl; by rewrite <- app_assoc.
Qed.

Lemma send_loop_clients entries s :
  clients (send_loop down message excludeKey entries s)
  = prune (filter (fun k => pruned down excludeKey k = true) (JsMap.keys entries)) (clients s).
Proof.
  revert s. induction entries as [|[key c] rest IH]; intros s; simpl; [done|].
  rewrite filter_cons.
  destruct (decide (pruned down excludeKey key = true)) as [Hp|Hp];
    unfold pruned in Hp; destruct (excluded key excludeKey), (down key);
    simpl in Hp; try done; by rewrite IH.
Qed.

Lemma send_loop_frame entries s :
  let s' := send_loop down message excludeKey entries s in
  items s' = items s ∧ yjsDocState s' = yjsDocState s ∧ storage s' = storage s
  ∧ schema s' = schema s ∧ listMeta s' = listMeta s ∧ timers s' = timers s.
Proof.
  revert s. induction entries as [|[key c] rest IH]; intros s; simpl; [done|].
  destruct (excluded key excludeKey); [apply IH|].
  destruct (down key).
  - destruct (IH (set_clients (JsMap.delete key (clients s))
                    (emit (EvSendFailed key message) s))) as (?&?&?&?&?&?).
    by split_and!.
  - destruct (IH (emit (EvSend key message) s)) as (?&?&?&?&?&?). by split_and!.
Qed.

Lemma get_prune_other keys c k : k ∉ keys → JsMap.get k (prune keys c) = JsMap.get k c.
Proof.
  revert c. induction keys as [|k0 keys IH]; intros c Hk; simpl; [done|].
  apply not_elem_of_cons in Hk as [Hne Hk].
  rewrite IH by done. by apply get_delete_ne.
Qed.

Lemma wf_prune keys c : JsMap.wf c → JsMap.wf (prune keys c).
Proof.
  revert c. induction keys as [|k0 keys IH]; intros c Hwf; simpl; [done|].
  apply IH. by apply wf_delete.
Qed.

Lemma get_prune_None keys c k : JsMap.get k c = None → JsMap.get k (prune keys c) = None.
Proof.
  revert c. induction keys as [|k0 keys IH]; intros c Hk; simpl; [done|].
  apply IH. apply get_None_not_key. apply get_None_not_key in Hk.
  intros Hin. apply Hk. by apply (keys_delete_subseteq c k0).
Qed.

Lemma get_prune_in keys c k : JsMap.wf c → k ∈ keys → JsMap.get k (prune keys c) = None.
Proof.
  revert c. induction keys as [|k0 keys IH]; intros c Hwf Hk; simpl.
  - by apply elem_of_nil in Hk.
  - destruct (decide (k = k0)) as [->|Hne].
    + apply get_prune_None. by apply get_delete_eq.
    + apply elem_of_cons in Hk as [?|Hk]; [done|].
      apply IH; [by apply wf_delete | done].
Qed.

Lemma loop_events_cons k keys :
  loop_events down message excludeKey (k :: keys)
  = loop_event down message excludeKey k ++ loop_events down message excludeKey keys.
Proof. done. Qed.

Lemma received_loop_event_other k0 k :
  k0 ≠ k → received k (loop_event down message excludeKey k0) = [].
Proof.
  intros Hne. unfold loop_event. destruct (excluded k0 excludeKey); [done|].
  destruct (down k0); simpl; [done|].
  destruct (String.eqb k0 k) eqn:E; [|done]. apply String.eqb_eq in E. congruence.
Qed.

Lemma received_loop_events_other keys k :
  k ∉ keys → received k (loop_events down message excludeKey keys) = [].
Proof.
  induction keys as [|k0 keys IH]; intros Hk; [done|].
  apply not_elem_of_cons in Hk as [Hne Hk].
  rewrite loop_events_cons, received_app, IH by done.
  by rewrite received_loop_event_other.
Qed.

(** A client that is registered once, not excluded and reachable gets
    the message exactly once. *)
Lemma received_loop_events keys k :
  NoDup keys → k ∈ keys → excluded k excludeKey = false → down k = false →
  received k (loop_events down message excludeKey keys) = [message].
Proof.
  induction keys as [|k0 keys IH]; intros Hnd Hk Hex Hup.
  - by apply elem_of_nil in Hk.
  - apply NoDup_cons in Hnd as [Hk0 Hnd]. rewrite loop_events_cons, received_app.
    destruct (decide (k = k0)) as [->|Hne].
    + rewrite received_loop_events_other by done.
      unfold loop_event. rewrite Hex, Hup. simpl. by rewrite String.eqb_refl.
    + apply elem_of_cons in Hk as [?|Hk]; [done|].
      rewrite IH by done. by rewrite received_loop_event_other.
Qed.

Lemma excluded_eq k0 k :
  excluded k excludeKey = true → excluded k0 excludeKey = false → k0 ≠ k.
Proof.
  unfold excluded. destruct excludeKey as [x|]; [|done].
  intros H1 H2 ->. congruence.
Qed.

Lemma received_loop_events_excluded keys k :
  excluded k excludeKey = true → received k (loop_events down message excludeKey keys) = [].
Proof.
  intros Hex. induction keys as [|k0 keys IH]; [done|].
  rewrite loop_events_cons, received_app, IH, app_nil_r.
  destruct (excluded k0 excludeKey) eqn:E0.
  - unfold loop_event. by rewrite E0.
  - apply received_loop_event_other. by eapply excluded_eq.
Qed.

Lemma attempts_loop_events keys :
  attempts (loop_events down message excludeKey keys)
  = map (fun k => (k, message)) (filter (fun k => excluded k excludeKey = false) keys).
Proof.
  induction keys as [|k0 keys IH]; [done|].
  rewrite loop_events_cons, attempts_app, IH, filter_cons. unfold loop_event.
  destruct (decide (excluded k0 excludeKey = false)) as [He|He].
  - rewrite He. by destruct (down k0).
  - by destruct (excluded k0 excludeKey).
Qed.

Lemma persisted_first_app_sends l1 l2 :
  persisted_first true l1 = true → persisted_first true l2 = true →
  persisted_first true (l1 ++ l2) = true.
Proof.
  intros H1 H2. induction l1 as [|e l1 IH]; [done|].
  simpl in *. destruct e; try by apply IH.
  destruct (announces_mutation m); by apply IH.
Qed.

Lemma persisted_first_loop_events keys :
  persisted_first true (loop_events down message excludeKey keys) = true.
Proof.
  induction keys as [|k0 keys IH]; [done|].
  rewrite loop_events_cons. apply persisted_first_app_sends; [|done].
  unfold loop_event. destruct (excluded k0 excludeKey); [done|].
  destruct (down k0); simpl; [done|]. by destruct (announces_mutation message).
Qed.
End SendLoop.

(** ** Broadcast *)

Lemma broadcast_log down message excludeKey s :
  log (broadcast down message excludeKey s)
  = log s ++ loop_events down message excludeKey (JsMap.keys (clients s)).
Proof. apply send_loop_log. Qed.

Lemma broadcast_frame down message excludeKey s :
  let s' := broadcast down message excludeKey s in
  items s' = items s ∧ yjsDocState s' = yjsDocState s ∧ storage s' = storage s
  ∧ schema s' = schema s ∧ listMeta s' = listMeta s ∧ timers s' = timers s.
Proof. apply send_loop_frame. Qed.

(** What the sending loop guarantees when some sockets are broken: the
    broken ones leave the registry, the others get the message once and
    stay. *)
Lemma send_loop_isolates down message excludeKey s :
  JsMap.wf (clients s) →
  let s' := send_loop down message excludeKey (clients s) s in
  (∀ bad, bad ∈ JsMap.keys (clients s) → excluded bad excludeKey = false →
          down bad = true → JsMap.get bad (clients s') = None)
  ∧ (∀ k, k ∈ JsMap.keys (clients s) → excluded k excludeKey = false → down k = false →
          received k (since s s') = [message]
          ∧ JsMap.get k (clients s') = JsMap.get k (clients s)).
Proof.
  intros Hwf s'. subst s'. rewrite send_loop_clients.
  rewrite (since_app _ _ _ (send_loop_log down message excludeKey (clients s) s)).
  split.
  - intros bad Hin Hex Hdown. apply get_prune_in; [done|].
    apply list_elem_of_filter. split; [|done]. unfold pruned. by rewrite Hex, Hdown.
  - intros k Hin Hex Hup. split.
    + by apply received_loop_events.
    + apply get_prune_other. intros Hk. apply list_elem_of_filter in Hk as [Hp _].
      unfold pruned in Hp. by rewrite Hup, andb_false_r in Hp.
Qed.

(** C8. In every broadcast, a registered session whose socket fails is
    removed from the registry, and every other registered session that the
    broadcast addresses and whose socket works receives the message (once)
    and stays registered: one failing peer does not stop delivery to the
    rest. *)
Theorem broadcast_isolates_failed_peer down message excludeKey s bad :
  JsMap.wf (clients s) →
  bad ∈ JsMap.keys (clients s) →
  excluded bad excludeKey = false →
  down bad = true →
  let s' := broadcast down message excludeKey s in
  JsMap.get bad (clients s') = None
  ∧ ∀ k, k ∈ JsMap.keys (clients s) → excluded k excludeKey = false → down k = false →
         received k (since s s') = [message]
         ∧ JsMap.get k (clients s') = JsMap.get k (clients s).
Proof.
  intros Hwf Hin Hex Hdown s'.
  destruct (send_loop_isolates down message excludeKey s Hwf) as [Hbad Hgood].
  split; [by apply Hbad | exact Hgood].
Qed.

Lemma broadcast_isolates_failed_peer_witness :
  let s' := broadcast (String.eqb "k2") (ItemDeleted "i1") None camping in
  JsMap.get "k2" (clients s') = None
  ∧ ∀ k, k ∈ JsMap.keys (clients camping) → excluded k None = false →
         String.eqb "k2" k = false →
         received k (since camping s') = [ItemDeleted "i1"]
         ∧ JsMap.get k (clients s') = JsMap.get k (clients camping).
Proof.
  apply (broadcast_isolates_failed_peer (String.eqb "k2") (ItemDeleted "i1") None camping "k2").
  - unfold JsMap.wf. compute_done.
  - compute_done.
  - reflexivity.
  - reflexivity.
Defined.

(** ** The ledger *)

Lemma ledger_store update s :
  let s1 := saveYjsDoc (merge_update update s) in
  clients s1 = clients s ∧ items s1 = items s
  ∧ yjsDocState s1 = Some (appended update s)
  ∧ st_yjsDoc (storage s1) = Some (appended update s)
  ∧ st_items (storage s1) = st_items (storage s)
  ∧ log s1 = log s ++ [EvPut (PutYjsDoc (appended update s))].
Proof.
  unfold saveYjsDoc, merge_update, appended.
  destruct (yjsDocState s) as [stored|] eqn:E; simpl; by split_and!.
Qed.

Lemma excluded_Some_ne k clientKey : k ≠ clientKey → excluded k (Some clientKey) = false.
Proof. intros Hne. simpl. by apply String.eqb_neq. Qed.

(** The binary relay of a ledger delta runs the same loop, with the sender
    excluded. *)
Lemma binary_relay_isolates_failed_peer down now clientKey userRole update s :
  JsMap.wf (clients s) →
  is_viewer userRole = false →
  let s' := onMessage down now clientKey userRole (Binary update) s in
  (∀ bad, bad ∈ JsMap.keys (clients s) → bad ≠ clientKey → down bad = true →
          JsMap.get bad (clients s') = None)
  ∧ (∀ k, k ∈ JsMap.keys (clients s) → k ≠ clientKey → down k = false →
          received k (since s s') = [BinaryFrame update]
          ∧ JsMap.get k (clients s') = JsMap.get k (clients s)).
Proof.
  intros Hwf Hrole s'. subst s'. unfold onMessage. rewrite Hrole. simpl.
  destruct (ledger_store update s) as (Hc & _ & _ & _ & _ & Hl).
  set (s1 := saveYjsDoc (merge_update update s)) in *.
  destruct (send_loop_isolates down (BinaryFrame update) (Some clientKey) s1) as [Hbad Hgood].
  { by rewrite Hc. }
  split.
  - intros bad Hin Hne Hdown. rewrite <- Hc in Hin.
    apply Hbad; [done | by apply excluded_Some_ne | done].
  - intros k Hin Hne Hup. rewrite <- Hc in Hin.
    destruct (Hgood k Hin (excluded_Some_ne _ _ Hne) Hup) as [Hr Hg].
    rewrite <- Hc. split; [|done].
    erewrite since_app in Hr by apply send_loop_log.
    erewrite since_app; [|by rewrite send_loop_log, Hl, <- app_assoc].
    done.
Qed.

Lemma binary_delta_ledger down now clientKey userRole update s :
  is_viewer userRole = false →
  let s' := onMessage down now clientKey userRole (Binary update) s in
  yjsDocState s' = Some (appended update s)
  ∧ st_yjsDoc (storage s') = Some (appended update s)
  ∧ items s' = items s
  ∧ since s s' = EvPut (PutYjsDoc (appended update s))
                 :: loop_events down (BinaryFrame update) (Some clientKey) (JsMap.keys (clients s)).
Proof.
  intros Hrole s'. subst s'. unfold onMessage. rewrite Hrole. simpl.
  destruct (ledger_store update s) as (Hc & Hi & Hy & Hst & _ & Hl).
  set (s1 := saveYjsDoc (merge_update update s)) in *.
  destruct (send_loop_frame down (BinaryFrame update) (Some clientKey) (clients s1) s1)
    as (Hi' & Hy' & Hst' & _).
  rewrite Hy', Hst', Hi'. split_and!; try done.
  apply since_app. by rewrite send_loop_log, Hl, Hc, <- app_assoc.
Qed.

(** Two deltas in a row leave the stored bytes of the first followed by the
    bytes of the second. *)
Lemma two_deltas_ledger down now k1 r1 k2 r2 a b s :
  is_viewer r1 = false → is_viewer r2 = false →
  yjsDocState (onMessage down now k2 r2 (Binary b) (onMessage down now k1 r1 (Binary a) s))
  = Some (default [] (yjsDocState s) ++ a ++ b).
Proof.
  intros H1 H2.
  destruct (binary_delta_ledger down now k1 r1 a s H1) as (Hy & _).
  destruct (binary_delta_ledger down now k2 r2 b
              (onMessage down now k1 r1 (Binary a) s) H2) as (Hy' & _).
  rewrite Hy'. unfold appended at 1. rewrite Hy. simpl. unfold appended.
  by rewrite <- app_assoc.
Qed.

(** C1 (the code departs from the claim). The coordinator appends the bytes
    of each delta to the stored ledger, so the stored state depends on the
    order of arrival: from an empty ledger, delta [1] then delta [2] leaves
    the bytes 1, 2, while delta [2] then delta [1] leaves 2, 1, in the binary
    encoding and in the [crdt-update] encoding alike. *)
Theorem ledger_merge_depends_on_order :
  let a := [1] in
  let b := [2] in
  let bin (first second : list Z) :=
    yjsDocState (onMessage all_up 0 "k3" Owner (Binary second)
                   (onMessage all_up 0 "k1" Editor (Binary first) initial)) in
  let txt (first second : list Z) :=
    yjsDocState (onMessage all_up 0 "k3" Owner (Text (Some (crdt_update_intent second)))
                   (onMessage all_up 0 "k1" Editor (Text (Some (crdt_update_intent first)))
                      initial)) in
  bin a b = Some [1; 2] ∧ bin b a = Some [2; 1] ∧ bin a b ≠ bin b a
  ∧ txt a b = Some [1; 2] ∧ txt b a = Some [2; 1] ∧ txt a b ≠ txt b a.
Proof. vm_compute. by split_and!. Qed.

(** ** What [saveItems] stores *)

Lemma items_object_lookup_from (acc : gmap string Item) (m : list (string * Item)) k :
  JsMap.wf m →
  foldl (fun obj e => if String.eqb (fst e) "__proto__" then obj
                      else <[fst e := snd e]> obj) acc m !! k
  = if String.eqb k "__proto__" then acc !! k
    else match JsMap.get k m with Some v => Some v | None => acc !! k end.
Proof.
  unfold JsMap.wf. revert acc. induction m as [|[k0 v0] m IH]; intros acc Hnd; simpl.
  { by destruct (String.eqb k "__proto__"). }
  simpl in Hnd. apply NoDup_cons in Hnd as [Hfresh Hnd]. rewrite IH by done.
  destruct (String.eqb k "__proto__") eqn:Ek.
  - destruct (String.eqb k0 "__proto__") eqn:E0; [done|].
    apply String.eqb_eq in Ek. apply String.eqb_neq in E0.
    apply lookup_insert_ne. congruence.
  - destruct (String.eqb k0 "__proto__") eqn:E0.
    + apply String.eqb_eq in E0. subst k0. by rewrite Ek.
    + destruct (String.eqb k k0) eqn:E.
      * apply String.eqb_eq in E. subst k0.
        apply get_None_not_key in Hfresh. rewrite Hfresh. apply lookup_insert_eq.
      * apply String.eqb_neq in E. destruct (JsMap.get k m); [done|].
        by rewrite lookup_insert_ne.
Qed.

Lemma items_object_stored m : JsMap.wf m → stored_as m (items_object m).
Proof.
  intros Hwf. unfold stored_as, items_object. split.
  - by rewrite items_object_lookup_from.
  - intros id Hne. rewrite items_object_lookup_from by done.
    apply String.eqb_neq in Hne. rewrite Hne.
    destruct (JsMap.get id m); [done | apply lookup_empty].
Qed.

Lemma wf_deletes {V} (m : list (string * V)) (ids : list string) :
  JsMap.wf m → JsMap.wf (foldl (fun m id => JsMap.delete id m) m ids).
Proof.
  revert m. induction ids as [|id ids IH]; intros m Hk; simpl; [done|].
  by apply IH, wf_delete.
Qed.

(** ** Item mutations *)

(** The common shape of the item mutations that persist first: replace the
    item map, [saveItems], then broadcast. *)
Lemma save_then_broadcast down message excludeKey its s :
  let s' := broadcast down message excludeKey (saveItems (set_items its s)) in
  items s' = its
  ∧ st_items (storage s') = Some (items_object its)
  ∧ yjsDocState s' = yjsDocState s
  ∧ st_yjsDoc (storage s') = st_yjsDoc (storage s)
  ∧ since s s' = EvPut (PutItems (items_object its))
                 :: loop_events down message excludeKey (JsMap.keys (clients s)).
Proof.
  intros s'. subst s'.
  destruct (broadcast_frame down message excludeKey (saveItems (set_items its s)))
    as (Hi & Hy & Hst & _).
  rewrite Hi, Hy, Hst. split_and!; try done.
  apply since_app. rewrite broadcast_log. simpl. by rewrite <- app_assoc.
Qed.

Lemma persisted_first_save_then_broadcast down message excludeKey its s :
  persisted_first false
    (since s (broadcast down message excludeKey (saveItems (set_items its s)))) = true.
Proof.
  destruct (save_then_broadcast down message excludeKey its s) as (_ & _ & _ & _ & ->).
  simpl. apply persisted_first_loop_events.
Qed.

(** The three structured intents are told apart by their type. *)
Lemma onMessage_toggle down now clientKey userRole msg s :
  msg_type msg = "item-toggle" → is_viewer userRole = false →
  onMessage down now clientKey userRole (Text (Some msg)) s
  = match JsMap.get (msg_itemId msg) (items s) with
    | Some item =>
        let item' := mkItem (item_id item) (item_fields item) (msg_checked msg) now in
        broadcast down (ItemUpdated item') None
          (saveItems (set_items (JsMap.set (msg_itemId msg) item' (items s)) s))
    | None => s
    end.
Proof.
  intros Ht Hr. unfold onMessage. rewrite Ht, Hr. simpl.
  by destruct (JsMap.get (msg_itemId msg) (items s)).
Qed.

Lemma onMessage_update_fields down now clientKey userRole msg s :
  msg_type msg = "item-update-fields" → is_viewer userRole = false →
  onMessage down now clientKey userRole (Text (Some msg)) s
  = match JsMap.get (msg_itemId msg) (items s) with
    | Some item =>
        let item' := mkItem (item_id item) (merge_fields (item_fields item) (msg_fields msg))
                            (item_checked item) now in
        broadcast down (ItemUpdated item') (Some clientKey)
          (saveItems (set_items (JsMap.set (msg_itemId msg) item' (items s)) s))
    | None => s
    end.
Proof.
  intros Ht Hr. unfold onMessage. rewrite Ht, Hr. simpl.
  by destruct (JsMap.get (msg_itemId msg) (items s)).
Qed.

Lemma onMessage_crdt_update down now clientKey userRole msg s :
  msg_type msg = "crdt-update" → is_viewer userRole = false →
  onMessage down now clientKey userRole (Text (Some msg)) s
  = broadcast down (Relayed msg) (Some clientKey)
      (saveYjsDoc (merge_update (Uint8Array_from (msg_data msg)) s)).
Proof. intros Ht Hr. unfold onMessage. rewrite Ht, Hr. done. Qed.

(** *** Persisting before announcing: the paths that do *)

Lemma add_persists_first down now item s :
  persisted_first false (since s (fst (fetch down now (ReqAddItem item) s))) = true.
Proof. apply persisted_first_save_then_broadcast. Qed.

Lemma delete_persists_first down now itemId s :
  persisted_first false (since s (fst (fetch down now (ReqDeleteItem itemId) s))) = true.
Proof. apply persisted_first_save_then_broadcast. Qed.

Lemma update_persists_first down now itemId updates s :
  persisted_first false (since s (fst (fetch down now (ReqUpdateItem itemId updates) s))) = true.
Proof.
  simpl. destruct (JsMap.get itemId (items s)); simpl.
  - apply persisted_first_save_then_broadcast.
  - by rewrite since_refl.
Qed.

Lemma toggle_persists_first down now clientKey userRole msg s :
  msg_type msg = "item-toggle" → is_viewer userRole = false →
  persisted_first false
    (since s (onMessage down now clientKey userRole (Text (Some msg)) s)) = true.
Proof.
  intros Ht Hr. rewrite onMessage_toggle by done.
  destruct (JsMap.get (msg_itemId msg) (items s)).
  - apply persisted_first_save_then_broadcast.
  - by rewrite since_refl.
Qed.

Lemma update_fields_persists_first down now clientKey userRole msg s :
  msg_type msg = "item-update-fields" → is_viewer userRole = false →
  persisted_first false
    (since s (onMessage down now clientKey userRole (Text (Some msg)) s)) = true.
Proof.
  intros Ht Hr. rewrite onMessage_update_fields by done.
  destruct (JsMap.get (msg_itemId msg) (items s)).
  - apply persisted_first_save_then_broadcast.
  - by rewrite since_refl.
Qed.

Lemma binary_delta_persists_first down now clientKey userRole update s :
  is_viewer userRole = false →
  persisted_first false
    (since s (onMessage down now clientKey userRole (Binary update) s)) = true.
Proof.
  intros Hr. destruct (binary_delta_ledger down now clientKey userRole update s Hr)
    as (_ & _ & _ & ->).
  simpl. apply persisted_first_loop_events.
Qed.

Lemma crdt_update_persists_first down now clientKey userRole msg s :
  msg_type msg = "crdt-update" → is_viewer userRole = false →
  persisted_first false
    (since s (onMessage down now clientKey userRole (Text (Some msg)) s)) = true.
Proof.
  intros Ht Hr. rewrite onMessage_crdt_update by done.
  destruct (ledger_store (Uint8Array_from (msg_data msg)) s) as (Hc & _ & _ & _ & _ & Hl).
  erewrite since_app; [|by rewrite broadcast_log, Hl, <- app_assoc].
  simpl. apply persisted_first_loop_events.
Qed.

(** C2 (the code departs from the claim). [POST /clear-done] announces every
    deletion to the sessions inside its loop and calls [saveItems] only after
    the loop: on the list of three sessions with the checked item "i1", the
    three [item-deleted] messages are sent before the item store is written,
    while every other mutation path writes first. *)
Theorem clear_done_announces_before_persisting :
  let s' := fst (fetch all_up 200 ReqClearDone camping) in
  since camping s'
  = [EvSend "k1" (ItemDeleted "i1"); EvSend "k2" (ItemDeleted "i1");
     EvSend "k3" (ItemDeleted "i1"); EvPut (PutItems (items_object [("i2", stove)]))]
  ∧ persisted_first false (since camping s') = false
  ∧ items s' = [("i2", stove)].
Proof. vm_compute. by split_and!. Qed.

(** ** Viewers *)

Lemma viewer_reply down clientKey s :
  let s' := caught (server_send down clientKey view_only s >>> Return) in
  items s' = items s ∧ yjsDocState s' = yjsDocState s ∧ storage s' = storage s
  ∧ clients s' = clients s ∧ attempts (since s s') = [(clientKey, view_only)].
Proof.
  unfold server_send. destruct (down clientKey); simpl; split_and!; try done.
  - erewrite since_app; [|by simpl; rewrite <- app_assoc]. done.
  - erewrite since_app; [|done]. done.
Qed.

Lemma reply_ends_listener down clientKey m s k :
  (server_send down clientKey m s >>> Return) >>> k
  = server_send down clientKey m s >>> Return.
Proof. unfold server_send. by destruct (down clientKey). Qed.

(** C3 (as amended). Whatever a viewer session sends, the item store, the
    ledger, the storage and the registry stay as they were and nothing is
    sent to any other session. A structured intent ([crdt-update],
    [item-toggle], [item-update-fields]) is answered by exactly one
    "View-only access" error sent to the sender; a binary ledger frame is
    dropped without any reply. *)
Theorem viewer_attempt_changes_nothing down now clientKey data s :
  let s' := onMessage down now clientKey Viewer data s in
  items s' = items s ∧ yjsDocState s' = yjsDocState s ∧ storage s' = storage s
  ∧ clients s' = clients s
  ∧ attempts (since s s')
    = match data with
      | Text (Some msg) => if is_intent msg then [(clientKey, view_only)] else []
      | _ => []
      end.
Proof.
  destruct data as [update|[msg|]]; simpl.
  - by rewrite since_refl.
  - unfold onMessage, is_intent. simpl.
    destruct (String.eqb (msg_type msg) "crdt-update"); simpl.
    { rewrite reply_ends_listener. apply viewer_reply. }
    destruct (String.eqb (msg_type msg) "item-toggle"); simpl.
    { rewrite reply_ends_listener. apply viewer_reply. }
    destruct (String.eqb (msg_type msg) "item-update-fields"); simpl.
    { apply viewer_reply. }
    by rewrite since_refl.
  - split_and!; try done. change (onMessage down now clientKey Viewer (Text None) s)
      with (emit EvConsoleError s).
    by rewrite (since_app s (emit EvConsoleError s) [EvConsoleError]).
Qed.

(** C3, the claim as stated fails: a viewer that sends a binary ledger frame
    gets no error reply at all. *)
Lemma viewer_binary_frame_gets_no_reply :
  ¬ rejected_with_one_error "k2" camping
      (onMessage all_up 200 "k2" Viewer (Binary [2; 7]) camping).
Proof. intros (_ & _ & _ & H). vm_compute in H. discriminate H. Qed.

(** ** Echo to the originator *)

(** [item-update-fields] leaves the sender out of its broadcast. *)
Lemma update_fields_not_echoed down now clientKey userRole msg s :
  msg_type msg = "item-update-fields" → is_viewer userRole = false →
  received clientKey (since s (onMessage down now clientKey userRole (Text (Some msg)) s)) = [].
Proof.
  intros Ht Hr. rewrite onMessage_update_fields by done.
  destruct (JsMap.get (msg_itemId msg) (items s)) as [item|].
  - cbv zeta. set (item' := mkItem _ _ _ _).
    destruct (save_then_broadcast down (ItemUpdated item') (Some clientKey)
                (JsMap.set (msg_itemId msg) item' (items s)) s) as (_ & _ & _ & _ & ->).
    simpl. apply received_loop_events_excluded. simpl. apply String.eqb_refl.
  - by rewrite since_refl.
Qed.

(** [item-toggle] does not: a registered sender whose socket works gets its
    own toggle back. *)
Lemma toggle_echoed down now clientKey userRole msg item s :
  msg_type msg = "item-toggle" → is_viewer userRole = false →
  JsMap.wf (clients s) → clientKey ∈ JsMap.keys (clients s) → down clientKey = false →
  JsMap.get (msg_itemId msg) (items s) = Some item →
  received clientKey (since s (onMessage down now clientKey userRole (Text (Some msg)) s))
  = [ItemUpdated (mkItem (item_id item) (item_fields item) (msg_checked msg) now)].
Proof.
  intros Ht Hr Hwf Hin Hup Hget. rewrite onMessage_toggle by done. rewrite Hget.
  cbv zeta. set (item' := mkItem _ _ _ _).
  destruct (save_then_broadcast down (ItemUpdated item') None
              (JsMap.set (msg_itemId msg) item' (items s)) s) as (_ & _ & _ & _ & ->).
  simpl. by apply received_loop_events.
Qed.

(** C4 (the code departs from the claim). The [item-toggle] branch calls
    [broadcast] without the sender's key: when the editor behind "k1"
    unchecks item "i1", the resulting [item-updated] goes to "k1" itself as
    well as to "k2" and "k3". The sibling branch [item-update-fields]
    excludes the sender. *)
Theorem toggle_is_echoed_to_its_sender :
  let toggled := mkItem "i1" (item_fields tent) false 200 in
  let s' := onMessage all_up 200 "k1" Editor (Text (Some (toggle_intent "i1" false))) camping in
  let s'' := onMessage all_up 200 "k1" Editor
               (Text (Some (update_fields_intent "i1" {[ "weight" := JNum 1900 ]}))) camping in
  attempts (since camping s')
  = [("k1", ItemUpdated toggled); ("k2", ItemUpdated toggled); ("k3", ItemUpdated toggled)]
  ∧ received "k1" (since camping s') = [ItemUpdated toggled]
  ∧ received "k1" (since camping s'') = [].
Proof. vm_compute. by split_and!. Qed.

Lemma attempts_broadcast_all down message keys :
  attempts (loop_events down message None keys) = map (fun k => (k, message)) keys.
Proof.
  rewrite attempts_loop_events. f_equal.
  induction keys as [|k keys IH]; [done|].
  rewrite filter_cons. destruct (decide (excluded k None = false)); [|done].
  by rewrite IH.
Qed.

(** ** Unknown items *)

(** C6 (as amended). An operation that names an unknown item identifier
    never changes the item store. An [item-toggle] or [item-update-fields]
    intent sent by a session that may edit silently does nothing: the whole
    state, log included, is as it was, so nothing is stored or sent and no
    error is reported. [DELETE /item/:id] reports no error either, it
    answers 200, but it is not silent: it writes the items to storage and
    then sends [item-deleted] for the unknown identifier to every registered
    session. [PATCH /item/:id] is answered by 404 "Not found" and changes
    nothing. *)
Theorem unknown_item_leaves_store down now clientKey userRole itemId updates s :
  JsMap.get itemId (items s) = None →
  is_viewer userRole = false →
  let deleted := fetch down now (ReqDeleteItem itemId) s in
  (∀ msg, msg_type msg = "item-toggle" ∨ msg_type msg = "item-update-fields" →
          msg_itemId msg = itemId →
          onMessage down now clientKey userRole (Text (Some msg)) s = s)
  ∧ soft_fail s deleted
  ∧ snd deleted = Some (mkResponse 200 BodyOk)
  ∧ (∃ obj later, since s (fst deleted) = EvPut (PutItems obj) :: later
                  ∧ attempts later
                    = map (fun k => (k, ItemDeleted itemId)) (JsMap.keys (clients s)))
  ∧ fetch down now (ReqUpdateItem itemId updates) s
    = (s, Some (mkResponse 404 (BodyText "Not found"))).
Proof.
  intros Hget Hrole deleted. subst deleted. split_and!.
  - intros msg [Ht|Ht] <-.
    + rewrite onMessage_toggle by done. by rewrite Hget.
    + rewrite onMessage_update_fields by done. by rewrite Hget.
  - unfold soft_fail. simpl. split; [|done].
    destruct (save_then_broadcast down (ItemDeleted itemId) None
                (JsMap.delete itemId (items s)) s) as (-> & _).
    by apply delete_absent.
  - done.
  - simpl.
    destruct (save_then_broadcast down (ItemDeleted itemId) None
                (JsMap.delete itemId (items s)) s) as (_ & _ & _ & _ & ->).
    eexists _, _. split; [reflexivity|]. apply attempts_broadcast_all.
  - simpl. by rewrite Hget.
Qed.

Lemma unknown_item_leaves_store_witness :
  let deleted := fetch all_up 200 (ReqDeleteItem "ghost") camping in
  (∀ msg, msg_type msg = "item-toggle" ∨ msg_type msg = "item-update-fields" →
          msg_itemId msg = "ghost" →
          onMessage all_up 200 "k1" Editor (Text (Some msg)) camping = camping)
  ∧ soft_fail camping deleted
  ∧ snd deleted = Some (mkResponse 200 BodyOk)
  ∧ (∃ obj later, since camping (fst deleted) = EvPut (PutItems obj) :: later
                  ∧ attempts later
                    = map (fun k => (k, ItemDeleted "ghost")) (JsMap.keys (clients camping)))
  ∧ fetch all_up 200 (ReqUpdateItem "ghost" (mkUpdates None None (Some true) None)) camping
    = (camping, Some (mkResponse 404 (BodyText "Not found"))).
Proof.
  apply (unknown_item_leaves_store all_up 200 "k1" Editor "ghost"
           (mkUpdates None None (Some true) None) camping).
  - reflexivity.
  - reflexivity.
Defined.

(** C6, the claim as stated fails: updating an unknown item over
    [PATCH /item/:id] reports an error to the caller. *)
Lemma update_of_unknown_item_is_an_error :
  ¬ soft_fail camping
      (fetch all_up 200 (ReqUpdateItem "ghost" (mkUpdates None None (Some true) None)) camping).
Proof. intros [_ H]. vm_compute in H. discriminate H. Qed.

(** ** Adding an item *)

(** [POST /item] is an upsert: with an item whose identifier is already in
    the item store it succeeds (200, the item as body), puts the supplied
    item in the place of the stored one without adding an entry or touching
    another item, calls [saveItems] and then sends [item-added] to every
    registered session. What [saveItems] writes holds every item under its
    identifier, but none under the identifier "__proto__". *)
Lemma add_existing_item_upserts down now item old s :
  JsMap.wf (items s) →
  JsMap.get (item_id item) (items s) = Some old →
  let out := fetch down now (ReqAddItem item) s in
  snd out = Some (mkResponse 200 (BodyItem item))
  ∧ JsMap.get (item_id item) (items (fst out)) = Some item
  ∧ JsMap.keys (items (fst out)) = JsMap.keys (items s)
  ∧ (∀ k, k ≠ item_id item → JsMap.get k (items (fst out)) = JsMap.get k (items s))
  ∧ (∃ obj, st_items (storage (fst out)) = Some obj
            ∧ stored_as (items (fst out)) obj
            ∧ since s (fst out)
              = EvPut (PutItems obj)
                :: loop_events down (ItemAdded item) None (JsMap.keys (clients s)))
  ∧ attempts (since s (fst out))
    = map (fun k => (k, ItemAdded item)) (JsMap.keys (clients s)).
Proof.
  intros Hwf Hget out. subst out. simpl.
  destruct (save_then_broadcast down (ItemAdded item) None
              (JsMap.set (item_id item) item (items s)) s) as (Hi & Hst & _ & _ & Hl).
  rewrite Hi, Hst, Hl. split_and!; try done.
  - apply get_set_eq.
  - by eapply keys_set_present.
  - intros k Hne. by apply get_set_ne.
  - eexists. split_and!; [done | | done]. by apply items_object_stored, wf_set.
  - simpl. apply attempts_broadcast_all.
Qed.

(** C9 (the code departs from the claim). [POST /item] with an identifier
    the item store already holds replaces the item and sends [item-added],
    but it does not persist the store when that identifier is "__proto__":
    [saveItems] copies the items into a plain object with [obj[id] = item],
    which for this identifier sets the prototype of the object and adds no
    property. After the item "__proto__" is added to the list of two items
    and then added again, the item store holds the second version in the
    place of the first, the request is answered 200 and every session is
    sent [item-added], while the object written to storage holds the other
    two items only. *)
Theorem add_of_proto_item_is_not_persisted :
  let rope := mkItem "__proto__" {[ "item" := JStr "Rope" ]} false 150 in
  let cord := mkItem "__proto__" {[ "item" := JStr "Cord" ]} true 160 in
  let s1 := fst (fetch all_up 150 (ReqAddItem rope) camping) in
  let out := fetch all_up 160 (ReqAddItem cord) s1 in
  items s1 = [("i1", tent); ("i2", stove); ("__proto__", rope)]
  ∧ snd out = Some (mkResponse 200 (BodyItem cord))
  ∧ items (fst out) = [("i1", tent); ("i2", stove); ("__proto__", cord)]
  ∧ attempts (since s1 (fst out))
    = [("k1", ItemAdded cord); ("k2", ItemAdded cord); ("k3", ItemAdded cord)]
  ∧ st_items (storage (fst out)) = Some {[ "i1" := tent; "i2" := stove ]}
  ∧ (∀ obj, st_items (storage (fst out)) = Some obj → obj !! "__proto__" = None).
Proof.
  intros rope cord s1 out.
  assert (st_items (storage (fst out)) = Some {[ "i1" := tent; "i2" := stove ]}) as Hst
    by (vm_compute; reflexivity).
  split_and!; try (vm_compute; reflexivity).
  intros obj Hobj. rewrite Hst in Hobj. injection Hobj as <-. reflexivity.
Qed.

(** ** Updating fields *)

(** C10. An [item-update-fields] intent on an existing item, sent by a
    session that may edit, stores under the same key an item whose field
    map is the old one with the entries of the message written over it,
    whose [updatedAt] is the current time, and whose identifier and checked
    flag are the old ones; every field the message does not name keeps its
    value, and every other item, and the order of the items, is unchanged. *)
Theorem update_fields_changes_only_named_fields down now clientKey userRole msg item s :
  msg_type msg = "item-update-fields" →
  is_viewer userRole = false →
  JsMap.get (msg_itemId msg) (items s) = Some item →
  let s' := onMessage down now clientKey userRole (Text (Some msg)) s in
  ∃ item',
    JsMap.get (msg_itemId msg) (items s') = Some item'
    ∧ (∀ f v, msg_fields msg !! f = Some v → item_fields item' !! f = Some v)
    ∧ (∀ f, msg_fields msg !! f = None → item_fields item' !! f = item_fields item !! f)
    ∧ item_updatedAt item' = now
    ∧ item_checked item' = item_checked item
    ∧ item_id item' = item_id item
    ∧ (∀ k, k ≠ msg_itemId msg → JsMap.get k (items s') = JsMap.get k (items s))
    ∧ JsMap.keys (items s') = JsMap.keys (items s).
Proof.
  intros Ht Hr Hget s'. subst s'. rewrite onMessage_update_fields by done.
  rewrite Hget. cbv zeta. set (item' := mkItem _ _ _ _).
  destruct (save_then_broadcast down (ItemUpdated item') (Some clientKey)
              (JsMap.set (msg_itemId msg) item' (items s)) s) as (Hi & _).
  rewrite Hi. exists item'. split_and!; try done.
  - apply get_set_eq.
  - intros f v Hf. simpl. unfold merge_fields. by apply lookup_union_Some_l.
  - intros f Hf. simpl. unfold merge_fields. by apply lookup_union_r.
  - intros k Hne. by apply get_set_ne.
  - by eapply keys_set_present.
Qed.

Lemma update_fields_changes_only_named_fields_witness :
  let msg := update_fields_intent "i1" {[ "weight" := JNum 1900 ]} in
  let s' := onMessage all_up 200 "k1" Editor (Text (Some msg)) camping in
  ∃ item',
    JsMap.get "i1" (items s') = Some item'
    ∧ (∀ f v, msg_fields msg !! f = Some v → item_fields item' !! f = Some v)
    ∧ (∀ f, msg_fields msg !! f = None → item_fields item' !! f = item_fields tent !! f)
    ∧ item_updatedAt item' = 200
    ∧ item_checked item' = item_checked tent
    ∧ item_id item' = item_id tent
    ∧ (∀ k, k ≠ "i1" → JsMap.get k (items s') = JsMap.get k (items camping))
    ∧ JsMap.keys (items s') = JsMap.keys (items camping).
Proof.
  intros msg.
  apply (update_fields_changes_only_named_fields all_up 200 "k1" Editor msg tent camping).
  - reflexivity.
  - reflexivity.
  - reflexivity.
Defined.

(** ** What every handler preserves

    A preorder on states that every elementary update respects is
    respected by every handler, hence by every run of the actor. *)

Section Preserved.
Variable R : ListDO → ListDO → Prop.
Hypothesis R_refl : ∀ s, R s s.
Hypothesis R_trans : ∀ s1 s2 s3, R s1 s2 → R s2 s3 → R s1 s3.
Hypothesis R_emit : ∀ e s, R s (emit e s).
Hypothesis R_storage : ∀ st s, R s (set_storage st s).
Hypothesis R_schema : ∀ f s, R s (set_schema f s).
Hypothesis R_listMeta : ∀ m s, R s (set_listMeta m s).
Hypothesis R_yjsDocState : ∀ y s, R s (set_yjsDocState y s).
Hypothesis R_timers : ∀ n s, R s (set_timers n s).
Hypothesis R_item_set : ∀ k v s, R s (set_items (JsMap.set k v (items s)) s).
Hypothesis R_item_delete : ∀ k s, R s (set_items (JsMap.delete k (items s)) s).
Hypothesis R_client_set : ∀ k c s, R s (set_clients (JsMap.set k c (clients s)) s).
Hypothesis R_client_delete : ∀ k s, R s (set_clients (JsMap.delete k (clients s)) s).

Variable down : string -> bool.
Variable now : Z.

Lemma R_put p s : R s (put p s).
Proof. unfold put. eapply R_trans; [apply R_storage | apply R_emit]. Qed.

Lemma R_saveItems s : R s (saveItems s).
Proof. apply R_put. Qed.

Lemma R_saveSchema s : R s (saveSchema s).
Proof. apply R_put. Qed.

Lemma R_saveYjsDoc s : R s (saveYjsDoc s).
Proof. unfold saveYjsDoc. destruct (yjsDocState s); [apply R_put | apply R_refl]. Qed.

Lemma R_saveMeta s : R s (saveMeta s).
Proof.
  unfold saveMeta. destruct (listMeta s); [|apply R_refl].
  eapply R_trans; [apply R_put | apply R_emit].
Qed.

Lemma R_merge_update update s : R s (merge_update update s).
Proof. unfold merge_update. destruct (yjsDocState s); apply R_yjsDocState. Qed.

Lemma R_send_loop message excludeKey entries s :
  R s (send_loop down message excludeKey entries s).
Proof.
  revert s. induction entries as [|[key c] rest IH]; intros s; simpl; [apply R_refl|].
  destruct (excluded key excludeKey); [apply IH|].
  destruct (down key).
  - eapply R_trans; [|apply IH].
    eapply R_trans; [apply (R_emit (EvSendFailed key message))|].
    exact (R_client_delete key (emit (EvSendFailed key message) s)).
  - eapply R_trans; [apply (R_emit (EvSend key message)) | apply IH].
Qed.

Lemma R_broadcast message excludeKey s : R s (broadcast down message excludeKey s).
Proof. apply R_send_loop. Qed.

Lemma R_broadcastPresence s : R s (broadcastPresence down s).
Proof. apply R_broadcast. Qed.

Lemma R_clear_loop toDelete s : R s (clear_loop down toDelete s).
Proof.
  revert s. induction toDelete as [|id rest IH]; intros s; simpl; [apply R_refl|].
  eapply R_trans; [|apply IH].
  eapply R_trans; [apply (R_item_delete id) | apply R_broadcast].
Qed.

Lemma R_server_send clientKey m s : R s (flow_state (server_send down clientKey m s)).
Proof. unfold server_send. destruct (down clientKey); apply R_emit. Qed.

Lemma R_and_then f k s :
  R s (flow_state f) → (∀ s1, R s1 (flow_state (k s1))) → R s (flow_state (f >>> k)).
Proof.
  intros Hf Hk. destruct f as [s1|s1|s1]; simpl in *; [|done..].
  eapply R_trans; [exact Hf | apply Hk].
Qed.

Lemma R_caught f s : R s (flow_state f) → R s (caught f).
Proof.
  intros Hf. destruct f as [s1|s1|s1]; simpl in *; [done..|].
  eapply R_trans; [exact Hf | apply R_emit].
Qed.

Lemma R_set_save_broadcast message excludeKey k v s :
  R s (broadcast down message excludeKey (saveItems (set_items (JsMap.set k v (items s)) s))).
Proof.
  eapply R_trans; [apply (R_item_set k v)|].
  eapply R_trans; [apply R_saveItems | apply R_broadcast].
Qed.

Lemma R_delete_save_broadcast message excludeKey k s :
  R s (broadcast down message excludeKey (saveItems (set_items (JsMap.delete k (items s)) s))).
Proof.
  eapply R_trans; [apply (R_item_delete k)|].
  eapply R_trans; [apply R_saveItems | apply R_broadcast].
Qed.

Lemma R_handleWebSocket u s : R s (fst (handleWebSocket down u s)).
Proof.
  unfold handleWebSocket. cbv zeta.
  set (s1 := set_clients _ s).
  assert (H1 : R s s1) by apply R_client_set.
  match goal with |- R s (fst match ?f with _ => _ end) =>
    assert (Hf : R s (flow_state f));
      [|destruct f; simpl in *; [eapply R_trans; [exact Hf | apply R_timers] | done..]]
  end.
  apply R_and_then.
  - eapply R_trans; [exact H1 | apply R_server_send].
  - intros s2. destruct (yjsDocState s2) as [bytes|]; [|apply R_refl].
    destruct (0 <? length bytes)%nat; [apply R_server_send | apply R_refl].
Qed.

Lemma R_fetch req s : R s (fst (fetch down now req s)).
Proof.
  destruct req; simpl; try apply R_refl.
  - apply R_handleWebSocket.
  - eapply R_trans; [apply (R_listMeta (Some meta))|].
    eapply R_trans; [apply (R_schema (meta_schema meta))|].
    eapply R_trans; [apply R_saveMeta | apply R_saveSchema].
  - apply R_set_save_broadcast.
  - destruct (JsMap.get itemId (items s)); simpl;
      [apply R_set_save_broadcast | apply R_refl].
  - apply R_delete_save_broadcast.
  - eapply R_trans; [apply (R_schema schema0)|].
    eapply R_trans; [|apply R_broadcast].
    eapply R_trans; [|apply R_saveSchema].
    simpl. destruct (listMeta s) as [m|]; [|apply R_refl].
    eapply R_trans; [|apply R_saveMeta]. apply R_listMeta.
  - eapply R_trans; [apply R_clear_loop | apply R_saveItems].
Qed.

Lemma R_onMessage clientKey userRole data s :
  R s (onMessage down now clientKey userRole data s).
Proof.
  unfold onMessage. apply R_caught.
  destruct data as [update|[msg|]]; [| |apply R_refl].
  - destruct (is_viewer userRole); simpl; [apply R_refl|].
    eapply R_trans; [|apply R_send_loop].
    eapply R_trans; [apply R_merge_update | apply R_saveYjsDoc].
  - repeat apply R_and_then; intros;
      repeat match goal with
      | |- R _ (flow_state (if ?b then _ else _)) => destruct b
      | |- R _ (flow_state (match ?o with Some _ => _ | None => _ end)) => destruct o
      | |- R _ (flow_state (_ >>> _)) => apply R_and_then; intros
      end; simpl;
      try apply R_refl; try apply R_server_send; try apply R_set_save_broadcast.
    eapply R_trans; [|apply R_broadcast].
    eapply R_trans; [apply R_merge_update | apply R_saveYjsDoc].
Qed.

Lemma R_onClose clientKey s : R s (onClose down clientKey s).
Proof.
  unfold onClose. eapply R_trans; [apply (R_client_delete clientKey) | apply R_broadcastPresence].
Qed.

Lemma R_onTimer s : R s (onTimer down s).
Proof.
  unfold onTimer. destruct (timers s) as [|n]; [apply R_refl|].
  eapply R_trans; [apply (R_timers n) | apply R_broadcastPresence].
Qed.
End Preserved.

Section PreservedByRuns.
Variable R : ListDO → ListDO → Prop.
Hypothesis R_refl : ∀ s, R s s.
Hypothesis R_trans : ∀ s1 s2 s3, R s1 s2 → R s2 s3 → R s1 s3.
Hypothesis R_emit : ∀ e s, R s (emit e s).
Hypothesis R_storage : ∀ st s, R s (set_storage st s).
Hypothesis R_schema : ∀ f s, R s (set_schema f s).
Hypothesis R_listMeta : ∀ m s, R s (set_listMeta m s).
Hypothesis R_yjsDocState : ∀ y s, R s (set_yjsDocState y s).
Hypothesis R_timers : ∀ n s, R s (set_timers n s).
Hypothesis R_item_set : ∀ k v s, R s (set_items (JsMap.set k v (items s)) s).
Hypothesis R_item_delete : ∀ k s, R s (set_items (JsMap.delete k (items s)) s).
Hypothesis R_client_set : ∀ k c s, R s (set_clients (JsMap.set k c (clients s)) s).
Hypothesis R_client_delete : ∀ k s, R s (set_clients (JsMap.delete k (clients s)) s).

Lemma R_step s a : R s (step s a).
Proof.
  unfold step. destruct (at_input a).
  - by apply R_fetch.
  - by apply R_onMessage.
  - by apply R_onClose.
  - by apply R_onClose.
  - by apply R_onTimer.
Qed.

Lemma R_run s arrivals : R s (run s arrivals).
Proof.
  revert s. induction arrivals as [|a rest IH]; intros s; simpl; [apply R_refl|].
  eapply R_trans; [apply R_step | apply IH].
Qed.
End PreservedByRuns.

(** *** The log only grows *)

Lemma extends_same_log s s' : log s' = log s → extends s s'.
Proof. unfold extends. by intros ->. Qed.

Lemma extends_run s arrivals : extends s (run s arrivals).
Proof.
  apply R_run; clear s arrivals; intros; try by apply extends_same_log.
  - unfold extends in *. by etrans.
  - unfold extends. simpl. by apply prefix_app_r.
Qed.

(** *** The registry and the item store stay well-formed maps *)

Lemma well_formed_run s arrivals : well_formed s → well_formed (run s arrivals).
Proof.
  apply (R_run (fun s s' => well_formed s → well_formed s')); clear s arrivals;
    unfold well_formed; simpl; try (intros; tauto).
  - intros k v s [Hc Hi]. split; [done | by apply wf_set].
  - intros k s [Hc Hi]. split; [done | by apply wf_delete].
  - intros k c s [Hc Hi]. split; [by apply wf_set | done].
  - intros k s [Hc Hi]. split; [by apply wf_delete | done].
Qed.

Lemma well_formed_reachable arrivals : well_formed (run initial arrivals).
Proof. apply well_formed_run. split; apply NoDup_nil_2. Qed.

(** ** Snapshot on connect *)

Lemma received_own_sends key l : received key (map (EvSend key) l) = l.
Proof.
  induction l as [|m l IH]; simpl; [done|]. by rewrite String.eqb_refl, IH.
Qed.

Lemma handleWebSocket_accepts down u s :
  down (clientKeyOf u) = false →
  let key := clientKeyOf u in
  let out := handleWebSocket down u s in
  snd out = Some (mkResponse 101 (BodySocket key))
  ∧ log (fst out)
    = log s ++ map (EvSend key) (ItemsChanged (JsMap.values (items s)) :: ledger_snapshot s)
  ∧ timers (fst out) = S (timers s)
  ∧ items (fst out) = items s
  ∧ clients (fst out)
    = JsMap.set key
        (mkClient (mkPresenceUser (or_default "" (up_email u))
                                  (or_default "Anonymous" (up_name u))
                                  (or_default "#3B82F6" (up_color u)))
                  (default Viewer (up_role u)))
        (clients s).
Proof.
  intros Hup key out. subst key out.
  unfold handleWebSocket, ledger_snapshot, server_send. cbv zeta.
  generalize dependent (clientKeyOf u). intros key Hup. rewrite Hup. simpl.
  destruct (yjsDocState s) as [bytes|]; simpl.
  - destruct (0 <? length bytes)%nat; simpl.
    + split_and!; try done. by rewrite <- app_assoc.
    + by split_and!.
  - by split_and!.
Qed.

Lemma get_Some_listed {V} (m : list (string * V)) k v :
  JsMap.get k m = Some v → v ∈ map snd m.
Proof.
  induction m as [|[k0 v0] m IH]; simpl; [done|].
  destruct (String.eqb k k0).
  - intros [= ->]. by left.
  - intros H. right. by apply IH.
Qed.

(** C5. A session that is accepted (its socket takes the sends) is sent, by
    [handleWebSocket] itself and in this order, one [items-changed] message
    with the current items (the item of every entry of the item store, in
    the order of the store, so every item that a lookup in the store finds)
    and, when ledger bytes are stored, one [crdt-sync] message with them;
    nothing else is sent while it is accepted, the presence broadcast is
    only scheduled, and whatever arrives at the coordinator afterwards, the
    messages the new session receives start with this snapshot. *)
Theorem snapshot_precedes_every_broadcast down u s arrivals :
  down (clientKeyOf u) = false →
  received (clientKeyOf u) (log s) = [] →
  let key := clientKeyOf u in
  let out := handleWebSocket down u s in
  let current := map snd (items s) in
  let snapshot := ItemsChanged current :: ledger_snapshot s in
  snd out = Some (mkResponse 101 (BodySocket key))
  ∧ since s (fst out) = map (EvSend key) snapshot
  ∧ (∀ id item, JsMap.get id (items s) = Some item → item ∈ current)
  ∧ timers (fst out) = S (timers s)
  ∧ ∃ later, received key (log (run (fst out) arrivals)) = snapshot ++ later.
Proof.
  intros Hup Hfresh key out current snapshot. subst key out current snapshot.
  pose proof (handleWebSocket_accepts down u s Hup) as H. cbv zeta in H.
  destruct H as (Hresp & Hlog & Htim & _).
  split_and!; try done.
  - by apply since_app.
  - intros id item Hget. by eapply get_Some_listed.
  - destruct (extends_run (fst (handleWebSocket down u s)) arrivals) as [ext Hext].
    exists (received (clientKeyOf u) ext).
    rewrite Hext, Hlog, !received_app, Hfresh.
    by rewrite received_own_sends.
Qed.

Lemma snapshot_precedes_every_broadcast_witness :
  let s := set_yjsDocState (Some [1; 2]) camping in
  let u := mkUpgrade (Some "dave@example.org") (Some "Dave") None (Some Editor)
                     "1700000000000-0.42" in
  let arrivals := [mkArrival 250 all_up InTimer;
                   mkArrival 300 all_up
                     (InMessage "k1" Editor (Text (Some (toggle_intent "i1" false))))] in
  let key := clientKeyOf u in
  let out := handleWebSocket all_up u s in
  let current := map snd (items s) in
  let snapshot := ItemsChanged current :: ledger_snapshot s in
  snd out = Some (mkResponse 101 (BodySocket key))
  ∧ since s (fst out) = map (EvSend key) snapshot
  ∧ (∀ id item, JsMap.get id (items s) = Some item → item ∈ current)
  ∧ timers (fst out) = S (timers s)
  ∧ ∃ later, received key (log (run (fst out) arrivals)) = snapshot ++ later.
Proof.
  intros s u arrivals.
  apply (snapshot_precedes_every_broadcast all_up u s arrivals).
  - reflexivity.
  - reflexivity.
Defined.

(** ** Shares *)

Section ShareFacts.
Variable toLowerCase : string -> string.
Variable trim : string -> string.
Variable decodeURIComponent : string -> option string.

Lemma index_ok_put_list listId meta env :
  index_ok env → shares_ok meta → index_ok (put_list listId meta env).
Proof.
  intros Hok Hmeta id m. unfold put_list. simpl. rewrite lookup_insert.
  case_decide; [by intros [= <-] | apply Hok].
Qed.

Lemma index_ok_addListToUserIndex email listId env :
  index_ok env → index_ok (addListToUserIndex email listId env).
Proof. unfold addListToUserIndex. by case_bool_decide. Qed.

Lemma index_ok_removeListFromUserIndex email listId env :
  index_ok env → index_ok (removeListFromUserIndex email listId env).
Proof. unfold removeListFromUserIndex. by destruct (kv_user_lists env !! email). Qed.

Lemma existsb_share_email email shares :
  existsb (fun sh => String.eqb (share_email sh) email) shares = false →
  email ∉ map share_email shares.
Proof.
  induction shares as [|sh rest IH]; simpl; [intros _; apply not_elem_of_nil|].
  intros H. apply orb_false_elim in H as [Hsh Hrest].
  apply String.eqb_neq in Hsh. apply not_elem_of_cons. split; [congruence | by apply IH].
Qed.

Lemma emails_set_role email role shares :
  map share_email (set_role email role shares) = map share_email shares.
Proof.
  induction shares as [|sh rest IH]; simpl; [done|].
  destruct (String.eqb (share_email sh) email); simpl; [done | by rewrite IH].
Qed.

Lemma emails_filter_sublist (P : Share → Prop) `{∀ sh, Decision (P sh)} shares :
  map share_email (filter P shares) `sublist_of` map share_email shares.
Proof.
  induction shares as [|sh rest IH]; simpl; [done|].
  rewrite filter_cons. destruct (decide (P sh)); simpl.
  - by apply sublist_skip.
  - by apply sublist_cons.
Qed.

(** Adding appends an email that is neither the owner's nor shared yet. *)
Lemma shares_ok_add meta email role :
  shares_ok meta → email ≠ meta_ownerEmail meta → email ∉ share_emails meta →
  shares_ok (with_shares (meta_shares meta ++ [mkShare email role]) meta).
Proof.
  intros [Hown Hnd] Hne Hnew. unfold shares_ok, share_emails in *. simpl.
  rewrite map_app. simpl. split.
  - rewrite elem_of_app, list_elem_of_singleton. intros [?|?]; [done | congruence].
  - apply NoDup_app. split_and!; [done | | apply NoDup_singleton].
    intros x Hx Hx'. apply list_elem_of_singleton in Hx'. by subst.
Qed.

Lemma shares_ok_set_role meta email role :
  shares_ok meta → shares_ok (with_shares (set_role email role (meta_shares meta)) meta).
Proof.
  unfold shares_ok, share_emails. simpl. by rewrite emails_set_role.
Qed.

Lemma shares_ok_filter meta (P : Share → Prop) `{∀ sh, Decision (P sh)} :
  shares_ok meta → shares_ok (with_shares (filter P (meta_shares meta)) meta).
Proof.
  intros [Hown Hnd]. unfold shares_ok, share_emails in *. simpl.
  pose proof (emails_filter_sublist P (meta_shares meta)) as Hsub. split.
  - intros Hin. apply Hown. by eapply elem_of_sublist.
  - by eapply sublist_NoDup.
Qed.

Lemma handleAddShare_keeps_invariant listId email role user env :
  index_ok env →
  index_ok (fst (handleAddShare toLowerCase trim listId email role user env)).
Proof.
  intros Hok. unfold handleAddShare, getListMeta.
  destruct (kv_lists env !! listId) as [meta|] eqn:Hmeta; [|done].
  destruct (String.eqb (meta_ownerEmail meta) (jwt_email user)) eqn:Howner; [|done].
  simpl. destruct (isAllowedEmail _ _ _ _); [|done]. simpl.
  destruct (String.eqb (toLowerCase email) (jwt_email user)) eqn:Hself; [done|].
  destruct (existsb _ _) eqn:Hdup; [done|]. simpl.
  apply index_ok_addListToUserIndex, index_ok_put_list; [done|].
  apply String.eqb_eq in Howner. apply String.eqb_neq in Hself.
  apply shares_ok_add; [by eapply Hok | congruence | by apply existsb_share_email].
Qed.

Lemma handleUpdateShare_keeps_invariant listId targetEmail role user env :
  index_ok env →
  index_ok (fst (handleUpdateShare toLowerCase decodeURIComponent
                   listId targetEmail role user env)).
Proof.
  intros Hok. unfold handleUpdateShare, getListMeta.
  destruct (kv_lists env !! listId) as [meta|] eqn:Hmeta; [|done].
  destruct (String.eqb (meta_ownerEmail meta) (jwt_email user)); [|done]. simpl.
  destruct (decodeURIComponent targetEmail) as [decoded|]; [|done].
  destruct (existsb _ _); [|done]. simpl.
  apply index_ok_put_list; [done|]. apply shares_ok_set_role. by eapply Hok.
Qed.

Lemma handleRemoveShare_keeps_invariant listId targetEmail user env :
  index_ok env →
  index_ok (fst (handleRemoveShare toLowerCase decodeURIComponent
                   listId targetEmail user env)).
Proof.
  intros Hok. unfold handleRemoveShare, getListMeta.
  destruct (kv_lists env !! listId) as [meta|] eqn:Hmeta; [|done].
  destruct (String.eqb (meta_ownerEmail meta) (jwt_email user)); [|done]. simpl.
  destruct (decodeURIComponent targetEmail) as [decoded|]; [|done]. simpl.
  apply index_ok_removeListFromUserIndex, index_ok_put_list; [done|].
  apply shares_ok_filter. by eapply Hok.
Qed.

Lemma share_op_keeps_invariant user op env :
  index_ok env →
  index_ok (fst (share_op toLowerCase trim decodeURIComponent user op env)).
Proof.
  intros Hok. destruct op; simpl.
  - by apply handleAddShare_keeps_invariant.
  - by apply handleUpdateShare_keeps_invariant.
  - by apply handleRemoveShare_keeps_invariant.
Qed.
End ShareFacts.

(** C7. When every stored list record has a share set without the owner and
    without a repeated email, the same holds after any share operation (add,
    update, remove) by any user, and so after any sequence of them. *)
Theorem share_operations_keep_invariant toLowerCase trim decodeURIComponent env ops :
  index_ok env →
  index_ok (share_ops toLowerCase trim decodeURIComponent env ops).
Proof.
  revert env. induction ops as [|[user op] ops IH]; intros env Hok; simpl; [done|].
  apply IH. by apply share_op_keeps_invariant.
Qed.

(** A new list record ([shares: []] in [handleCreateList]) satisfies the
    invariant. *)
Lemma shares_ok_new meta : meta_shares meta = [] → shares_ok meta.
Proof.
  intros H. unfold shares_ok, share_emails. rewrite H. simpl.
  split; [apply not_elem_of_nil | apply NoDup_nil_2].
Qed.

Lemma index_ok_camping : index_ok camping_env.
Proof.
  intros listId meta H. unfold camping_env in H. simpl in H.
  apply lookup_singleton_Some in H as [_ <-].
  unfold shares_ok, share_emails. simpl. split; compute_done.
Qed.

Lemma share_operations_keep_invariant_witness :
  index_ok
    (share_ops ascii_toLowerCase ascii_trim plain_decode camping_env
       [(owner_jwt, AddShare "L1" "Dave@Example.org" ShareViewer);
        (owner_jwt, AddShare "L1" "Carol@Example.org" ShareEditor);
        (owner_jwt, AddShare "L1" "ALICE@example.org" ShareViewer);
        (owner_jwt, UpdateShare "L1" "bob@example.org" ShareEditor);
        (owner_jwt, RemoveShare "L1" "alice@example.org")]).
Proof.
  apply (share_operations_keep_invariant ascii_toLowerCase ascii_trim plain_decode).
  exact index_ok_camping.
Defined.

(** The same run, computed: the owner and the repeated email are refused. *)
Example share_run_result :
  share_emails <$>
    kv_lists
      (share_ops ascii_toLowerCase ascii_trim plain_decode camping_env
         [(owner_jwt, AddShare "L1" "Dave@Example.org" ShareViewer);
          (owner_jwt, AddShare "L1" "Carol@Example.org" ShareEditor);
          (owner_jwt, AddShare "L1" "ALICE@example.org" ShareViewer);
          (owner_jwt, UpdateShare "L1" "bob@example.org" ShareEditor);
          (owner_jwt, RemoveShare "L1" "alice@example.org")]) !! "L1"
  = Some ["bob@example.org"; "dave@example.org"].
Proof. vm_compute. reflexivity. Qed.

(** * Further properties of the coordinator *)

(** ** Presence *)

Lemma presence_users_emails seen cs :
  NoDup (map pu_email (presence_users seen cs))
  ∧ (∀ e, e ∈ map pu_email (presence_users seen cs) ↔ e ∈ client_emails cs ∧ e ∉ seen).
Proof.
  revert seen. induction cs as [|[key c] rest IH]; intros seen; simpl.
  - split; [apply NoDup_nil_2|]. intros e. split.
    + intros H. by apply elem_of_nil in H.
    + intros [H _]. by apply elem_of_nil in H.
  - case_bool_decide as Hseen.
    + destruct (IH seen) as [Hnd Hiff]. split; [done|].
      intros e. rewrite Hiff, elem_of_cons. split; [tauto|].
      intros [[->|?] ?]; [done | tauto].
    + destruct (IH ({[pu_email (client_user c)]} ∪ seen)) as [Hnd Hiff]. simpl. split.
      * apply NoDup_cons. split; [|done]. rewrite Hiff. intros [_ Hn]. apply Hn.
        apply elem_of_union_l. by apply elem_of_singleton.
      * intros e. rewrite !elem_of_cons, Hiff, not_elem_of_union, elem_of_singleton.
        destruct (decide (e = pu_email (client_user c))) as [->|Hne]; tauto.
Qed.

(** X1. A presence broadcast lists every connected email exactly once, and
    every registered session whose socket works receives that one list. *)
Theorem presence_lists_each_email_once down s k :
  JsMap.wf (clients s) →
  k ∈ JsMap.keys (clients s) →
  down k = false →
  let users := presence_users ∅ (clients s) in
  received k (since s (broadcastPresence down s)) = [Presence users]
  ∧ NoDup (map pu_email users)
  ∧ ∀ e, e ∈ map pu_email users ↔ e ∈ client_emails (clients s).
Proof.
  intros Hwf Hk Hup users. subst users.
  destruct (presence_users_emails ∅ (clients s)) as [Hnd Hiff].
  split_and!; [|done|].
  - unfold broadcastPresence. erewrite since_app by apply broadcast_log.
    by apply received_loop_events.
  - intros e. rewrite Hiff. split; [by intros [? _] | intros ?; split; [done|]].
    apply not_elem_of_empty.
Qed.

Lemma presence_lists_each_email_once_witness :
  let s := set_clients (clients camping ++ [("k4", alice)]) camping in
  let users := presence_users ∅ (clients s) in
  received "k4" (since s (broadcastPresence all_up s)) = [Presence users]
  ∧ NoDup (map pu_email users)
  ∧ ∀ e, e ∈ map pu_email users ↔ e ∈ client_emails (clients s).
Proof.
  intros s.
  apply (presence_lists_each_email_once all_up s "k4").
  - unfold JsMap.wf. compute_done.
  - compute_done.
  - reflexivity.
Defined.

(** ** Deleting from a well-formed map *)

Section JsMapDelete.
Context {V : Type}.
Implicit Types (m : list (string * V)) (k : string).

Lemma filter_all m (P : string * V → Prop) `{∀ e, Decision (P e)} :
  (∀ e, e ∈ m → P e) → filter P m = m.
Proof.
  induction m as [|e m IH]; intros Hall; [done|].
  rewrite filter_cons, decide_True by (apply Hall; left).
  f_equal. apply IH. intros e' He'. apply Hall. by right.
Qed.

Lemma filter_agree m (P Q : string * V → Prop)
      `{∀ e, Decision (P e)} `{∀ e, Decision (Q e)} :
  (∀ e, e ∈ m → P e ↔ Q e) → filter P m = filter Q m.
Proof.
  induction m as [|e m IH]; intros Hall; [done|].
  rewrite !filter_cons.
  assert (Hm : filter P m = filter Q m).
  { apply IH. intros e' He'. apply Hall. by right. }
  destruct (decide (P e)) as [HP|HP], (decide (Q e)) as [HQ|HQ]; rewrite ?Hm; try done.
  - exfalso. apply HQ. apply (Hall e); [left | done].
  - exfalso. apply HP. apply (Hall e); [left | done].
Qed.

Lemma elem_of_keys m e : e ∈ m → fst e ∈ JsMap.keys m.
Proof.
  induction m as [|e' m IH]; intros He; [by apply elem_of_nil in He|].
  apply elem_of_cons in He as [->|He]; simpl; [left | right; by apply IH].
Qed.

(** In a well-formed map the key determines the entry. *)
Lemma wf_entry_unique m e e' : JsMap.wf m → e ∈ m → e' ∈ m → fst e = fst e' → e = e'.
Proof.
  unfold JsMap.wf. induction m as [|e0 m IH]; intros Hnd He He' Hk.
  { by apply elem_of_nil in He. }
  simpl in Hnd. apply NoDup_cons in Hnd as [Hfresh Hnd].
  apply elem_of_cons in He as [->|He]; apply elem_of_cons in He' as [->|He']; try done.
  - exfalso. apply Hfresh. rewrite Hk. by apply elem_of_keys.
  - exfalso. apply Hfresh. rewrite <- Hk. by apply elem_of_keys.
  - by apply IH.
Qed.

Lemma get_elem_of m e : JsMap.wf m → e ∈ m → JsMap.get (fst e) m = Some (snd e).
Proof.
  unfold JsMap.wf. induction m as [|[k0 v0] m IH]; intros Hnd He.
  { by apply elem_of_nil in He. }
  simpl in *. apply NoDup_cons in Hnd as [Hfresh Hnd].
  apply elem_of_cons in He as [->|He]; simpl.
  - by rewrite String.eqb_refl.
  - destruct (String.eqb (fst e) k0) eqn:E; [|by apply IH].
    apply String.eqb_eq in E. exfalso. apply Hfresh. rewrite <- E. by apply elem_of_keys.
Qed.

Lemma elem_of_get m k v : JsMap.get k m = Some v → (k, v) ∈ m.
Proof.
  induction m as [|[k0 v0] m IH]; simpl; [done|].
  destruct (String.eqb k k0) eqn:E.
  - apply String.eqb_eq in E. intros [= ->]. subst. left.
  - intros H. right. by apply IH.
Qed.

Lemma delete_as_filter m k : JsMap.wf m → JsMap.delete k m = filter (fun e => fst e ≠ k) m.
Proof.
  unfold JsMap.wf. induction m as [|[k0 v0] m IH]; intros Hnd; [done|].
  simpl in *. apply NoDup_cons in Hnd as [Hfresh Hnd]. rewrite filter_cons. simpl.
  destruct (String.eqb k k0) eqn:E.
  - apply String.eqb_eq in E. subst k0. rewrite decide_False by (by intros ?).
    symmetry. apply filter_all. intros e He Hk. apply Hfresh. rewrite <- Hk.
    by apply elem_of_keys.
  - apply String.eqb_neq in E. rewrite decide_True by congruence. f_equal. by apply IH.
Qed.

Lemma delete_all_as_filter m ids :
  JsMap.wf m →
  foldl (fun m id => JsMap.delete id m) m ids = filter (fun e => fst e ∉ ids) m.
Proof.
  revert m. induction ids as [|id ids IH]; intros m Hwf; simpl.
  - symmetry. apply filter_all. intros e _. apply not_elem_of_nil.
  - rewrite IH by by apply wf_delete. rewrite delete_as_filter by done.
    rewrite list_filter_filter. apply list_filter_iff. intros e.
    rewrite not_elem_of_cons. tauto.
Qed.

Lemma wf_filter m (P : string * V → Prop) `{∀ e, Decision (P e)} :
  JsMap.wf m → JsMap.wf (filter P m).
Proof.
  unfold JsMap.wf. induction m as [|e m IH]; intros Hnd; [done|].
  simpl in Hnd. apply NoDup_cons in Hnd as [Hfresh Hnd]. rewrite filter_cons.
  destruct (decide (P e)); [|by apply IH].
  simpl. apply NoDup_cons. split; [|by apply IH].
  intros Hin. apply Hfresh. clear -Hin.
  induction m as [|e' m IHm]; [done|]. rewrite filter_cons in Hin.
  destruct (decide (P e')); simpl in *.
  - apply elem_of_cons in Hin as [->|Hin]; [left | right; by apply IHm].
  - right. by apply IHm.
Qed.
End JsMapDelete.

(** ** Clearing the checked items *)

Lemma key_iff_get {V} (m : list (string * V)) k : k ∈ JsMap.keys m ↔ JsMap.get k m ≠ None.
Proof.
  rewrite get_None_not_key. split; [by intros ? ?|].
  intros H. by destruct (decide (k ∈ JsMap.keys m)).
Qed.

(** A session whose socket works survives every broadcast. *)
Lemma broadcast_keeps down message excludeKey s k :
  JsMap.wf (clients s) → k ∈ JsMap.keys (clients s) → down k = false →
  let s' := broadcast down message excludeKey s in
  JsMap.wf (clients s') ∧ k ∈ JsMap.keys (clients s').
Proof.
  intros Hwf Hk Hup s'. subst s'. unfold broadcast. rewrite send_loop_clients. split.
  - by apply wf_prune.
  - apply key_iff_get. rewrite get_prune_other; [by apply key_iff_get|].
    intros Hin. apply list_elem_of_filter in Hin as [Hp _].
    unfold pruned in Hp. by rewrite Hup, andb_false_r in Hp.
Qed.

Lemma clear_loop_frame down toDelete s :
  let s' := clear_loop down toDelete s in
  items s' = foldl (fun m id => JsMap.delete id m) (items s) toDelete
  ∧ yjsDocState s' = yjsDocState s ∧ storage s' = storage s
  ∧ schema s' = schema s ∧ listMeta s' = listMeta s ∧ timers s' = timers s.
Proof.
  revert s. induction toDelete as [|id rest IH]; intros s; simpl; [done|].
  set (s1 := broadcast down (ItemDeleted id) None (set_items (JsMap.delete id (items s)) s)).
  destruct (broadcast_frame down (ItemDeleted id) None
              (set_items (JsMap.delete id (items s)) s)) as (Hi & Hy & Hst & Hsc & Hm & Ht).
  destruct (IH s1) as (Hi' & Hy' & Hst' & Hsc' & Hm' & Ht').
  fold s1 in Hi, Hy, Hst, Hsc, Hm, Ht.
  rewrite Hi', Hy', Hst', Hsc', Hm', Ht', Hi, Hy, Hst, Hsc, Hm, Ht. by split_and!.
Qed.

Lemma clear_loop_extends down toDelete s : extends s (clear_loop down toDelete s).
Proof.
  revert s. induction toDelete as [|id rest IH]; intros s; simpl; [by unfold extends|].
  unfold extends in *. etrans; [|apply IH]. rewrite broadcast_log. simpl.
  by apply prefix_app_r.
Qed.

Lemma clear_loop_received down toDelete s k :
  JsMap.wf (clients s) → k ∈ JsMap.keys (clients s) → down k = false →
  received k (since s (clear_loop down toDelete s)) = map ItemDeleted toDelete.
Proof.
  revert s. induction toDelete as [|id rest IH]; intros s Hwf Hk Hup; simpl.
  { by rewrite since_refl. }
  set (s0 := set_items (JsMap.delete id (items s)) s).
  set (s1 := broadcast down (ItemDeleted id) None s0).
  destruct (broadcast_keeps down (ItemDeleted id) None s0 k Hwf Hk Hup) as [Hwf1 Hk1].
  fold s1 in Hwf1, Hk1.
  assert (Hlog1 : log s1 = log s ++ loop_events down (ItemDeleted id) None (JsMap.keys (clients s)))
    by exact (broadcast_log down (ItemDeleted id) None s0).
  destruct (clear_loop_extends down rest s1) as [ext Hext].
  specialize (IH s1 Hwf1 Hk1 Hup). rewrite (since_app _ _ _ Hext) in IH.
  erewrite since_app; [|by rewrite Hext, Hlog1, <- app_assoc].
  rewrite received_app, IH. by rewrite received_loop_events.
Qed.

(** X2. [POST /clear-done] removes exactly the checked items: the unchecked
    ones stay, in their order; it answers with the number of items removed,
    leaves in storage the new item store (each item under its identifier,
    none under "__proto__"), and every registered session whose socket works
    receives one [item-deleted] per removed item, in store order. *)
Theorem clear_done_removes_checked_items down now s k :
  well_formed s →
  k ∈ JsMap.keys (clients s) →
  down k = false →
  let out := fetch down now ReqClearDone s in
  let done := filter (fun e => item_checked (snd e) = true) (items s) in
  items (fst out) = filter (fun e => item_checked (snd e) = false) (items s)
  ∧ snd out = Some (mkResponse 200 (BodyCleared (length done)))
  ∧ (∃ obj, st_items (storage (fst out)) = Some obj ∧ stored_as (items (fst out)) obj)
  ∧ received k (since s (fst out)) = map (fun e => ItemDeleted (fst e)) done.
Proof.
  intros [Hwfc Hwfi] Hk Hup out done. subst out done. simpl.
  destruct (clear_loop_frame down (checked_ids (items s)) s) as (Hi & _).
  rewrite Hi. split_and!.
  - rewrite delete_all_as_filter by done. apply filter_agree. intros e He.
    unfold checked_ids. split.
    + intros Hn. destruct (item_checked (snd e)) eqn:Hc; [|done].
      exfalso. apply Hn. apply (elem_of_keys (filter _ (items s)) e).
      apply list_elem_of_filter. by split.
    + intros Hc Hin.
      assert (∃ e', e' ∈ filter (fun e => item_checked (snd e) = true) (items s)
                    ∧ fst e' = fst e) as (e' & He' & Hfst).
      { clear -Hin. induction (filter _ (items s)) as [|e0 l IH]; simpl in Hin.
        - by apply elem_of_nil in Hin.
        - apply elem_of_cons in Hin as [Heq|Hin].
          + exists e0. split; [left | done].
          + destruct (IH Hin) as (e' & ? & ?). exists e'. split; [by right | done]. }
      apply list_elem_of_filter in He' as [Hc' He'].
      assert (e' = e) by by apply (wf_entry_unique (items s)). subst. congruence.
  - unfold checked_ids. by rewrite length_map.
  - eexists. split; [reflexivity|]. rewrite <- Hi.
    apply items_object_stored. rewrite Hi. by apply wf_deletes.
  - destruct (clear_loop_extends down (checked_ids (items s)) s) as [ext Hext].
    pose proof (clear_loop_received down (checked_ids (items s)) s k Hwfc Hk Hup) as Hr.
    rewrite (since_app _ _ _ Hext) in Hr.
    erewrite since_app; [|by simpl; rewrite Hext, <- app_assoc].
    rewrite received_app, Hr. simpl. rewrite app_nil_r.
    unfold checked_ids. by rewrite map_map.
Qed.

Lemma well_formed_camping : well_formed camping.
Proof. split; unfold JsMap.wf; compute_done. Qed.

Lemma clear_done_removes_checked_items_witness :
  let out := fetch all_up 200 ReqClearDone camping in
  let done := filter (fun e => item_checked (snd e) = true) (items camping) in
  items (fst out) = filter (fun e => item_checked (snd e) = false) (items camping)
  ∧ snd out = Some (mkResponse 200 (BodyCleared (length done)))
  ∧ (∃ obj, st_items (storage (fst out)) = Some obj ∧ stored_as (items (fst out)) obj)
  ∧ received "k2" (since camping (fst out)) = map (fun e => ItemDeleted (fst e)) done.
Proof.
  apply (clear_done_removes_checked_items all_up 200 camping "k2").
  - exact well_formed_camping.
  - compute_done.
  - reflexivity.
Defined.

(** ** Deleting, updating and toggling one item *)

(** X3. [DELETE /item/:id] always answers 200; afterwards the identifier is
    absent from the item store, every other item is as before, storage holds
    the new store (each item under its identifier, none under "__proto__"),
    and [item-deleted] is sent to every registered session, also when the
    identifier was unknown. *)
Theorem delete_item_removes_it down now itemId s :
  JsMap.wf (items s) →
  let out := fetch down now (ReqDeleteItem itemId) s in
  snd out = Some (mkResponse 200 BodyOk)
  ∧ JsMap.get itemId (items (fst out)) = None
  ∧ (∀ k, k ≠ itemId → JsMap.get k (items (fst out)) = JsMap.get k (items s))
  ∧ (∃ obj, st_items (storage (fst out)) = Some obj ∧ stored_as (items (fst out)) obj)
  ∧ attempts (since s (fst out))
    = map (fun k => (k, ItemDeleted itemId)) (JsMap.keys (clients s)).
Proof.
  intros Hwf out. subst out. simpl.
  destruct (save_then_broadcast down (ItemDeleted itemId) None
              (JsMap.delete itemId (items s)) s) as (Hi & Hst & _ & _ & Hl).
  rewrite Hi, Hst, Hl. split_and!; try done.
  - by apply get_delete_eq.
  - intros k Hne. by apply get_delete_ne.
  - eexists. split; [done|]. by apply items_object_stored, wf_delete.
  - simpl. apply attempts_broadcast_all.
Qed.

Lemma delete_item_removes_it_witness :
  let out := fetch all_up 200 (ReqDeleteItem "i2") camping in
  snd out = Some (mkResponse 200 BodyOk)
  ∧ JsMap.get "i2" (items (fst out)) = None
  ∧ (∀ k, k ≠ "i2" → JsMap.get k (items (fst out)) = JsMap.get k (items camping))
  ∧ (∃ obj, st_items (storage (fst out)) = Some obj ∧ stored_as (items (fst out)) obj)
  ∧ attempts (since camping (fst out))
    = map (fun k => (k, ItemDeleted "i2")) (JsMap.keys (clients camping)).
Proof.
  apply (delete_item_removes_it all_up 200 "i2" camping).
  unfold JsMap.wf. compute_done.
Defined.



(** X5. An [item-toggle] intent from a session that may edit, on a stored
    item, changes that item's checked flag to the one of the message and
    its [updatedAt] to the current time and nothing else: its fields and
    identifier, the other items and the order of the store stay, and the
    ledger is not touched; storage holds the new store (each item under its
    identifier, none under "__proto__"). *)
Theorem toggle_changes_only_the_flag down now clientKey userRole msg item s :
  JsMap.wf (items s) →
  msg_type msg = "item-toggle" →
  is_viewer userRole = false →
  JsMap.get (msg_itemId msg) (items s) = Some item →
  let s' := onMessage down now clientKey userRole (Text (Some msg)) s in
  JsMap.get (msg_itemId msg) (items s')
  = Some (mkItem (item_id item) (item_fields item) (msg_checked msg) now)
  ∧ (∀ k, k ≠ msg_itemId msg → JsMap.get k (items s') = JsMap.get k (items s))
  ∧ JsMap.keys (items s') = JsMap.keys (items s)
  ∧ yjsDocState s' = yjsDocState s
  ∧ ∃ obj, st_items (storage s') = Some obj ∧ stored_as (items s') obj.
Proof.
  intros Hwf Ht Hr Hget s'. subst s'. rewrite onMessage_toggle by done. rewrite Hget.
  cbv zeta. set (item' := mkItem _ _ _ _).
  destruct (save_then_broadcast down (ItemUpdated item') None
              (JsMap.set (msg_itemId msg) item' (items s)) s) as (Hi & Hst & Hy & _).
  rewrite Hi, Hst, Hy. split_and!; try done.
  - apply get_set_eq.
  - intros k Hne. by apply get_set_ne.
  - by eapply keys_set_present.
  - eexists. split; [done|]. by apply items_object_stored, wf_set.
Qed.

Lemma toggle_changes_only_the_flag_witness :
  let msg := toggle_intent "i2" true in
  let s' := onMessage all_up 200 "k3" Owner (Text (Some msg)) camping in
  JsMap.get "i2" (items s')
  = Some (mkItem (item_id stove) (item_fields stove) true 200)
  ∧ (∀ k, k ≠ "i2" → JsMap.get k (items s') = JsMap.get k (items camping))
  ∧ JsMap.keys (items s') = JsMap.keys (items camping)
  ∧ yjsDocState s' = yjsDocState camping
  ∧ ∃ obj, st_items (storage s') = Some obj ∧ stored_as (items s') obj.
Proof.
  intros msg.
  apply (toggle_changes_only_the_flag all_up 200 "k3" Owner msg stove camping).
  - unfold JsMap.wf. compute_done.
  - reflexivity.
  - reflexivity.
  - reflexivity.
Defined.

(** ** Adding a new item, and what is persisted *)

Lemma values_set_absent {V} (m : list (string * V)) k v :
  JsMap.get k m = None → JsMap.values (JsMap.set k v m) = JsMap.values m ++ [v].
Proof.
  induction m as [|[k' v'] m IH]; simpl; [done|].
  destruct (String.eqb k k'); [done|]. intros H. simpl. f_equal. by apply IH.
Qed.

(** X6. After [POST /item] with an identifier the store does not hold,
    [GET /items] lists the items that were there, in their order, followed by
    the new item, with the schema unchanged. *)
Theorem added_item_is_listed_last down now item s :
  JsMap.get (item_id item) (items s) = None →
  let s' := fst (fetch down now (ReqAddItem item) s) in
  snd (fetch down now ReqGetItems s')
  = Some (mkResponse 200 (BodyListing (schema s) (JsMap.values (items s) ++ [item])))
  ∧ fst (fetch down now ReqGetItems s') = s'.
Proof.
  intros Hget s'. subst s'. simpl.
  destruct (save_then_broadcast down (ItemAdded item) None
              (JsMap.set (item_id item) item (items s)) s) as (Hi & _).
  destruct (broadcast_frame down (ItemAdded item) None
              (saveItems (set_items (JsMap.set (item_id item) item (items s)) s)))
    as (_ & _ & _ & Hsc & _).
  rewrite Hi, Hsc. simpl. by rewrite values_set_absent.
Qed.

Lemma added_item_is_listed_last_witness :
  let lamp := mkItem "i3" {[ "item" := JStr "Lamp" ]} false 150 in
  let s' := fst (fetch all_up 200 (ReqAddItem lamp) camping) in
  snd (fetch all_up 200 ReqGetItems s')
  = Some (mkResponse 200 (BodyListing (schema camping) (JsMap.values (items camping) ++ [lamp])))
  ∧ fst (fetch all_up 200 ReqGetItems s') = s'.
Proof.
  intros lamp.
  apply (added_item_is_listed_last all_up 200 lamp camping).
  reflexivity.
Defined.

(** X7. What [saveItems] writes is the item store as a dictionary, with one
    exception: looking up an identifier other than "__proto__" in the stored
    object gives the item the store holds under it, and nothing for an
    identifier the store does not hold; under "__proto__" the stored object
    has nothing, also when the store holds an item there, so that item is
    not persisted. *)
Theorem saved_items_mirror_the_store s :
  JsMap.wf (items s) →
  ∃ obj, st_items (storage (saveItems s)) = Some obj
         ∧ (∀ id, id ≠ "__proto__" → obj !! id = JsMap.get id (items s))
         ∧ obj !! "__proto__" = None.
Proof.
  intros Hwf. exists (items_object (items s)).
  destruct (items_object_stored (items s) Hwf) as [Hproto Hother]. by split_and!.
Qed.

Lemma saved_items_mirror_the_store_witness :
  let hidden := mkItem "__proto__" {[ "item" := JStr "Rope" ]} false 150 in
  let s := set_items (items camping ++ [("__proto__", hidden)]) camping in
  JsMap.get "__proto__" (items s) = Some hidden
  ∧ ∃ obj, st_items (storage (saveItems s)) = Some obj
           ∧ (∀ id, id ≠ "__proto__" → obj !! id = JsMap.get id (items s))
           ∧ obj !! "__proto__" = None.
Proof.
  intros hidden s. split; [reflexivity|].
  apply (saved_items_mirror_the_store s).
  unfold JsMap.wf. compute_done.
Defined.

(** ** The outcomes of the message listener *)

Lemma onMessage_viewer down now clientKey msg s :
  onMessage down now clientKey Viewer (Text (Some msg)) s
  = if is_intent msg then caught (server_send down clientKey view_only s >>> Return) else s.
Proof.
  unfold onMessage, is_intent. simpl.
  destruct (String.eqb (msg_type msg) "crdt-update"); simpl.
  { by rewrite reply_ends_listener. }
  destruct (String.eqb (msg_type msg) "item-toggle"); simpl.
  { by rewrite reply_ends_listener. }
  by destruct (String.eqb (msg_type msg) "item-update-fields").
Qed.

Lemma onMessage_other down now clientKey userRole msg s :
  is_intent msg = false → onMessage down now clientKey userRole (Text (Some msg)) s = s.
Proof.
  unfold onMessage, is_intent. intros H.
  apply orb_false_elim in H as [H H3]. apply orb_false_elim in H as [H1 H2].
  by rewrite H1, H2, H3.
Qed.

Lemma is_viewer_true r : is_viewer r = true → r = Viewer.
Proof. by destruct r. Qed.

Lemma onMessage_outcome down now clientKey userRole data s :
  MessageOutcome down clientKey s (onMessage down now clientKey userRole data s).
Proof.
  destruct data as [update|[msg|]].
  - unfold onMessage. destruct (is_viewer userRole); simpl; [constructor|].
    by apply (DeltaStored down clientKey s update (BinaryFrame update)).
  - destruct (is_viewer userRole) eqn:Hr.
    { apply is_viewer_true in Hr. subst. rewrite onMessage_viewer.
      destruct (is_intent msg); constructor. }
    destruct (String.eqb (msg_type msg) "crdt-update") eqn:E1.
    { apply String.eqb_eq in E1. rewrite onMessage_crdt_update by done.
      by apply DeltaStored. }
    destruct (String.eqb (msg_type msg) "item-toggle") eqn:E2.
    { apply String.eqb_eq in E2. rewrite onMessage_toggle by done.
      destruct (JsMap.get (msg_itemId msg) (items s)) as [item|] eqn:G; [|constructor].
      eapply ItemReplaced; [exact G | done | by left]. }
    destruct (String.eqb (msg_type msg) "item-update-fields") eqn:E3.
    { apply String.eqb_eq in E3. rewrite onMessage_update_fields by done.
      destruct (JsMap.get (msg_itemId msg) (items s)) as [item|] eqn:G; [|constructor].
      eapply ItemReplaced; [exact G | done | by right]. }
    rewrite onMessage_other; [constructor|]. unfold is_intent. by rewrite E1, E2, E3.
  - constructor.
Qed.

(** ** Memory and storage agree after every handler *)

Lemma durable_emit e s : durable s → durable (emit e s).
Proof. done. Qed.

Lemma durable_send_loop down message excludeKey entries s :
  durable s → durable (send_loop down message excludeKey entries s).
Proof.
  intros (Hi & Hy & Hsc & Hm).
  destruct (send_loop_frame down message excludeKey entries s) as (Ei & Ey & Est & Esc & Em & _).
  unfold durable. by rewrite Ei, Ey, Est, Esc, Em.
Qed.

Lemma durable_broadcast down message excludeKey s :
  durable s → durable (broadcast down message excludeKey s).
Proof. apply durable_send_loop. Qed.

Lemma durable_saveItems its s :
  JsMap.wf its → durable s → durable (saveItems (set_items its s)).
Proof.
  intros Hwf (Hi & Hy & Hsc & Hm). split_and!; try done.
  by apply items_object_stored.
Qed.

Lemma durable_ledger bytes s : durable s → durable (saveYjsDoc (merge_update bytes s)).
Proof.
  intros (Hi & Hy & Hsc & Hm). unfold saveYjsDoc, merge_update.
  destruct (yjsDocState s); by split_and!.
Qed.

Lemma durable_clear_loop down toDelete s :
  JsMap.wf (items s) → durable s → durable (saveItems (clear_loop down toDelete s)).
Proof.
  intros Hwf (Hi & Hy & Hsc & Hm).
  destruct (clear_loop_frame down toDelete s) as (Ei & Ey & Est & Esc & Em & _).
  unfold durable. simpl. rewrite Ey, Est, Esc, Em. split_and!; try done.
  apply items_object_stored. rewrite Ei. by apply wf_deletes.
Qed.

Lemma durable_handleWebSocket down u s :
  durable s → durable (fst (handleWebSocket down u s)).
Proof.
  intros H. unfold handleWebSocket, server_send. cbv zeta.
  destruct (down (clientKeyOf u)); simpl; [done|].
  destruct (yjsDocState s) as [bytes|]; simpl; [|done].
  by destruct (0 <? length bytes)%nat.
Qed.

Lemma durable_fetch down now req s :
  JsMap.wf (items s) → durable s → durable (fst (fetch down now req s)).
Proof.
  intros Hwf H. destruct req; simpl; try done.
  - by apply durable_handleWebSocket.
  - destruct H as (Hi & Hy & Hsc & Hm). by split_and!.
  - by apply durable_broadcast, durable_saveItems; [apply wf_set|].
  - destruct (JsMap.get itemId (items s)); simpl; [|done].
    by apply durable_broadcast, durable_saveItems; [apply wf_set|].
  - by apply durable_broadcast, durable_saveItems; [apply wf_delete|].
  - apply durable_broadcast. destruct H as (Hi & Hy & Hsc & Hm).
    unfold durable. simpl. destruct (listMeta s) as [m|] eqn:E; simpl;
      rewrite ?E; by split_and!.
  - by apply durable_clear_loop.
Qed.

Lemma durable_onMessage down now clientKey userRole data s :
  JsMap.wf (items s) → durable s → durable (onMessage down now clientKey userRole data s).
Proof.
  intros Hwf H. destruct (onMessage_outcome down now clientKey userRole data s); try done.
  - unfold server_send. by destruct (down clientKey).
  - by apply durable_broadcast, durable_ledger.
  - by apply durable_broadcast, durable_saveItems; [apply wf_set|].
Qed.

Lemma durable_step s a : JsMap.wf (items s) → durable s → durable (step s a).
Proof.
  intros Hwf H. unfold step. destruct (at_input a).
  - by apply durable_fetch.
  - by apply durable_onMessage.
  - by apply durable_broadcast.
  - by apply durable_broadcast.
  - unfold onTimer. destruct (timers s); [done|]. by apply durable_broadcast.
Qed.

(** A freshly constructed object starts in agreement. *)
Lemma durable_initial : durable initial.
Proof. by split_and!. Qed.

(** X8. At the end of every handler the storage holds what the memory holds,
    as far as an object can hold it: if, before a sequence of requests,
    socket messages, closes and timers, whichever sockets fail, the stored
    ledger, schema and list record are the in-memory ones and the stored
    items are those of the item store (each under its identifier, none under
    "__proto__"), then the same is true after it. An item kept under the
    identifier "__proto__" is never in storage. *)
Theorem storage_follows_memory s arrivals :
  well_formed s → durable s → durable (run s arrivals).
Proof.
  revert s. induction arrivals as [|a rest IH]; intros s Hwf H; simpl; [done|].
  apply IH.
  - apply (well_formed_run s [a] Hwf).
  - apply durable_step; [apply Hwf | done].
Qed.

Lemma storage_follows_memory_witness :
  let hidden := mkItem "__proto__" {[ "item" := JStr "Rope" ]} false 5 in
  durable
    (run initial
       [mkArrival 5 all_up (InFetch (ReqAddItem hidden));
        mkArrival 10 all_up (InFetch (ReqAddItem tent));
        mkArrival 20 all_up (InFetch (ReqUpgrade
          (mkUpgrade (Some "alice@example.org") None None (Some Editor) "20-0.5")));
        mkArrival 30 (String.eqb "alice@example.org-20-0.5")
          (InMessage "alice@example.org-20-0.5" Editor (Binary [2; 1; 2]));
        mkArrival 40 all_up (InFetch ReqClearDone)]).
Proof.
  intros hidden.
  apply (storage_follows_memory initial).
  - split; apply NoDup_nil_2.
  - exact durable_initial.
Defined.

(** ** The ledger only grows *)

Lemma handleWebSocket_ledger down u s :
  yjsDocState (fst (handleWebSocket down u s)) = yjsDocState s.
Proof.
  unfold handleWebSocket, server_send. cbv zeta.
  destruct (down (clientKeyOf u)); simpl; [done|].
  destruct (yjsDocState s) as [bytes|] eqn:E; simpl; [|done].
  by destruct (0 <? length bytes)%nat.
Qed.

Lemma fetch_ledger down now req s : yjsDocState (fst (fetch down now req s)) = yjsDocState s.
Proof.
  destruct req as [|u|meta| |item|itemId updates|itemId|schema0| |]; simpl; try done.
  - apply handleWebSocket_ledger.
  - by destruct (broadcast_frame down (ItemAdded item) None
                   (saveItems (set_items (JsMap.set (item_id item) item (items s)) s)))
      as (_ & -> & _).
  - destruct (JsMap.get itemId (items s)) as [existing|]; simpl; [|done].
    by destruct (broadcast_frame down (ItemUpdated (apply_updates existing updates now)) None
                   (saveItems (set_items (JsMap.set itemId (apply_updates existing updates now)
                                            (items s)) s))) as (_ & -> & _).
  - by destruct (broadcast_frame down (ItemDeleted itemId) None
                   (saveItems (set_items (JsMap.delete itemId (items s)) s))) as (_ & -> & _).
  - match goal with |- yjsDocState (broadcast _ _ _ ?s0) = _ =>
      destruct (broadcast_frame down (SchemaChanged schema0) None s0) as (_ & -> & _) end.
    simpl. by destruct (listMeta s).
  - by destruct (clear_loop_frame down (checked_ids (items s)) s) as (_ & -> & _).
Qed.

Lemma onMessage_ledger down now clientKey userRole data s :
  ledger_bytes s `prefix_of` ledger_bytes (onMessage down now clientKey userRole data s).
Proof.
  unfold ledger_bytes.
  destruct (onMessage_outcome down now clientKey userRole data s); try done.
  - unfold server_send. by destruct (down clientKey).
  - destruct (broadcast_frame down m (Some clientKey) (saveYjsDoc (merge_update bytes s)))
      as (_ & -> & _).
    destruct (ledger_store bytes s) as (_ & _ & -> & _). simpl. unfold appended.
    by apply prefix_app_r.
  - by destruct (broadcast_frame down (ItemUpdated new) excludeKey
                   (saveItems (set_items (JsMap.set k new (items s)) s))) as (_ & -> & _).
Qed.

Lemma broadcastPresence_frame down s :
  items (broadcastPresence down s) = items s
  ∧ yjsDocState (broadcastPresence down s) = yjsDocState s.
Proof.
  unfold broadcastPresence.
  destruct (broadcast_frame down (Presence (presence_users ∅ (clients s))) None s)
    as (-> & -> & _). done.
Qed.

Lemma step_ledger s a : ledger_bytes s `prefix_of` ledger_bytes (step s a).
Proof.
  unfold step. destruct (at_input a).
  - unfold ledger_bytes. by rewrite fetch_ledger.
  - apply onMessage_ledger.
  - unfold ledger_bytes, onClose. by rewrite (proj2 (broadcastPresence_frame _ _)).
  - unfold ledger_bytes, onClose. by rewrite (proj2 (broadcastPresence_frame _ _)).
  - unfold ledger_bytes, onTimer. destruct (timers s) as [|n]; [done|].
    by rewrite (proj2 (broadcastPresence_frame _ _)).
Qed.

(** X9. The stored ledger is append-only: after any sequence of requests,
    socket messages, closes and timers, the ledger bytes stored before are a
    prefix of the ledger bytes stored after. Nothing ever removes or
    rewrites a byte of the ledger. *)
Theorem ledger_is_append_only s arrivals :
  ledger_bytes s `prefix_of` ledger_bytes (run s arrivals).
Proof.
  revert s. induction arrivals as [|a rest IH]; intros s; simpl; [done|].
  etrans; [apply step_ledger | apply IH].
Qed.

(** X10. A delta sent by a session that may edit reaches every later
    joiner: the snapshot of a session accepted afterwards is the item list
    followed by one [crdt-sync] message carrying the ledger stored before
    the delta with the delta's bytes appended. *)
Theorem delta_reaches_later_joiner down down' now clientKey userRole update u s :
  is_viewer userRole = false →
  update ≠ [] →
  down' (clientKeyOf u) = false →
  let s1 := onMessage down now clientKey userRole (Binary update) s in
  let s2 := fst (handleWebSocket down' u s1) in
  since s1 s2
  = [EvSend (clientKeyOf u) (ItemsChanged (JsMap.values (items s)));
     EvSend (clientKeyOf u) (CrdtSync (ledger_bytes s ++ update))].
Proof.
  intros Hr Hne Hup s1 s2. subst s1 s2.
  destruct (binary_delta_ledger down now clientKey userRole update s Hr) as (Hy & _ & Hi & _).
  pose proof (handleWebSocket_accepts down' u
                (onMessage down now clientKey userRole (Binary update) s) Hup) as H.
  cbv zeta in H. destruct H as (_ & Hlog & _).
  rewrite (since_app _ _ _ Hlog), Hi. unfold ledger_snapshot. rewrite Hy.
  unfold appended, ledger_bytes.
  destruct (0 <? length (default [] (yjsDocState s) ++ update))%nat eqn:E; [done|].
  apply Nat.ltb_ge in E. rewrite length_app in E.
  destruct update; [done | simpl in E; lia].
Qed.

Lemma delta_reaches_later_joiner_witness :
  let u := mkUpgrade (Some "dave@example.org") (Some "Dave") None (Some Viewer) "30-0.1" in
  let s1 := onMessage all_up 200 "k1" Editor (Binary [2; 9; 9]) camping in
  let s2 := fst (handleWebSocket all_up u s1) in
  since s1 s2
  = [EvSend (clientKeyOf u) (ItemsChanged (JsMap.values (items camping)));
     EvSend (clientKeyOf u) (CrdtSync (ledger_bytes camping ++ [2; 9; 9]))].
Proof.
  intros u.
  apply (delta_reaches_later_joiner all_up all_up 200 "k1" Editor [2; 9; 9] u camping).
  - reflexivity.
  - discriminate.
  - reflexivity.
Defined.

(** ** Leaving and joining *)

Lemma broadcast_received down message excludeKey s k :
  JsMap.wf (clients s) → k ∈ JsMap.keys (clients s) →
  excluded k excludeKey = false → down k = false →
  received k (since s (broadcast down message excludeKey s)) = [message].
Proof.
  intros Hwf Hk Hex Hup. erewrite since_app by apply broadcast_log.
  by apply received_loop_events.
Qed.

(** X11. When a socket closes or errors, its session leaves the registry
    and is sent nothing; every other registered session whose socket works
    receives exactly one presence list, computed without the session that
    left; the items are not touched. *)
Theorem closed_session_is_dropped down clientKey s :
  JsMap.wf (clients s) →
  let s' := onClose down clientKey s in
  JsMap.get clientKey (clients s') = None
  ∧ received clientKey (since s s') = []
  ∧ items s' = items s
  ∧ ∀ k, k ≠ clientKey → k ∈ JsMap.keys (clients s) → down k = false →
         received k (since s s')
         = [Presence (presence_users ∅ (JsMap.delete clientKey (clients s)))].
Proof.
  intros Hwf s'. subst s'. unfold onClose.
  set (s0 := set_clients (JsMap.delete clientKey (clients s)) s).
  assert (Hwf0 : JsMap.wf (clients s0)) by by apply wf_delete.
  assert (Hgone : JsMap.get clientKey (clients s0) = None) by by apply get_delete_eq.
  assert (Hsince : since s (broadcastPresence down s0) = since s0 (broadcastPresence down s0))
    by done.
  rewrite Hsince. split_and!.
  - unfold broadcastPresence, broadcast. rewrite send_loop_clients. by apply get_prune_None.
  - unfold broadcastPresence. erewrite since_app by apply broadcast_log.
    apply received_loop_events_other. by apply get_None_not_key.
  - by rewrite (proj1 (broadcastPresence_frame _ _)).
  - intros k Hne Hk Hup. unfold broadcastPresence. apply broadcast_received; try done.
    apply key_iff_get. simpl. rewrite get_delete_ne by done. by apply key_iff_get.
Qed.

Lemma closed_session_is_dropped_witness :
  let s' := onClose all_up "k1" camping in
  JsMap.get "k1" (clients s') = None
  ∧ received "k1" (since camping s') = []
  ∧ items s' = items camping
  ∧ ∀ k, k ≠ "k1" → k ∈ JsMap.keys (clients camping) → all_up k = false →
         received k (since camping s')
         = [Presence (presence_users ∅ (JsMap.delete "k1" (clients camping)))].
Proof.
  apply (closed_session_is_dropped all_up "k1" camping).
  unfold JsMap.wf. compute_done.
Defined.

Lemma client_email_registered (cs : list (string * ConnectedClient)) k c :
  JsMap.get k cs = Some c → pu_email (client_user c) ∈ client_emails cs.
Proof.
  intros H. apply elem_of_get in H. unfold client_emails.
  induction cs as [|e cs IH]; [by apply elem_of_nil in H|].
  apply elem_of_cons in H as [<-|H]; simpl; [left | right; by apply IH].
Qed.

(** X12. After a session is accepted and the presence timer it scheduled
    fires, the session, if its socket still works, receives one presence
    list, and that list contains the session's own email. *)
Theorem joiner_sees_itself_present down down' u s :
  JsMap.wf (clients s) →
  down (clientKeyOf u) = false →
  down' (clientKeyOf u) = false →
  let s1 := fst (handleWebSocket down u s) in
  let s2 := onTimer down' s1 in
  ∃ users, received (clientKeyOf u) (since s1 s2) = [Presence users]
           ∧ or_default "" (up_email u) ∈ map pu_email users
           ∧ timers s2 = timers s.
Proof.
  intros Hwf Hup Hup' s1 s2. subst s1 s2.
  pose proof (handleWebSocket_accepts down u s Hup) as H. cbv zeta in H.
  destruct H as (_ & _ & Htim & _ & Hcl).
  set (s1 := fst (handleWebSocket down u s)) in *.
  unfold onTimer. rewrite Htim.
  set (s1' := set_timers (timers s) s1).
  assert (Hcl' : clients s1' = clients s1) by done.
  assert (Hwf1 : JsMap.wf (clients s1')) by (rewrite Hcl', Hcl; by apply wf_set).
  assert (Hget : JsMap.get (clientKeyOf u) (clients s1') ≠ None)
    by (rewrite Hcl', Hcl, get_set_eq; done).
  exists (presence_users ∅ (clients s1')). split_and!.
  - unfold broadcastPresence.
    change (since s1 (broadcast down' (Presence (presence_users ∅ (clients s1'))) None s1'))
      with (since s1' (broadcast down' (Presence (presence_users ∅ (clients s1'))) None s1')).
    apply broadcast_received; try done. by apply key_iff_get.
  - destruct (presence_users_emails ∅ (clients s1')) as [_ Hiff]. apply Hiff.
    split; [|apply not_elem_of_empty].
    rewrite Hcl', Hcl.
    apply (client_email_registered _ (clientKeyOf u)
             (mkClient (mkPresenceUser (or_default "" (up_email u))
                                       (or_default "Anonymous" (up_name u))
                                       (or_default "#3B82F6" (up_color u)))
                       (default Viewer (up_role u)))).
    apply get_set_eq.
  - unfold broadcastPresence.
    by destruct (broadcast_frame down' (Presence (presence_users ∅ (clients s1'))) None s1')
      as (_ & _ & _ & _ & _ & ->).
Qed.

Lemma joiner_sees_itself_present_witness :
  let u := mkUpgrade (Some "dave@example.org") (Some "Dave") None (Some Viewer) "30-0.1" in
  let s1 := fst (handleWebSocket all_up u camping) in
  let s2 := onTimer all_up s1 in
  ∃ users, received (clientKeyOf u) (since s1 s2) = [Presence users]
           ∧ or_default "" (up_email u) ∈ map pu_email users
           ∧ timers s2 = timers camping.
Proof.
  intros u.
  apply (joiner_sees_itself_present all_up all_up u camping).
  - unfold JsMap.wf. compute_done.
  - reflexivity.
  - reflexivity.
Defined.

(** ** Broadcasting to editors only *)

Lemma editors_loop_as_send_loop down message excludeKey entries s :
  editors_loop down message excludeKey entries s
  = send_loop down message excludeKey
      (filter (fun e => is_viewer (client_role (snd e)) = false) entries) s.
Proof.
  revert s. induction entries as [|[key c] rest IH]; intros s; simpl; [done|].
  rewrite filter_cons. simpl.
  destruct (is_viewer (client_role c)) eqn:Hv; simpl.
  - destruct (excluded key excludeKey); apply IH.
  - destruct (excluded key excludeKey); [apply IH|].
    destruct (down key); apply IH.
Qed.

Lemma key_of_filtered {V} (m : list (string * V)) (P : string * V → Prop)
      `{∀ e, Decision (P e)} k :
  k ∈ JsMap.keys (filter P m) → ∃ v, (k, v) ∈ m ∧ P (k, v).
Proof.
  induction m as [|[k0 v0] m IH]; [intros H'; by apply elem_of_nil in H'|].
  rewrite filter_cons. destruct (decide (P (k0, v0))) as [HP|HP]; simpl.
  - intros [->|Hin]%elem_of_cons.
    + exists v0. split; [left | done].
    + destruct (IH Hin) as (v & ? & ?). exists v. split; [by right | done].
  - intros Hin. destruct (IH Hin) as (v & ? & ?). exists v. split; [by right | done].
Qed.

(** X13. [broadcastToEditors] never sends to a viewer session and never
    removes one; every owner or editor session that is not excluded and whose
    socket works receives the message once; the items are not touched. *)
Theorem editors_broadcast_skips_viewers down message excludeKey s :
  JsMap.wf (clients s) →
  let s' := broadcastToEditors down message excludeKey s in
  (∀ k c, JsMap.get k (clients s) = Some c → is_viewer (client_role c) = true →
          received k (since s s') = [] ∧ JsMap.get k (clients s') = Some c)
  ∧ (∀ k c, JsMap.get k (clients s) = Some c → is_viewer (client_role c) = false →
            excluded k excludeKey = false → down k = false →
            received k (since s s') = [message])
  ∧ items s' = items s.
Proof.
  intros Hwf s'. subst s'. unfold broadcastToEditors. rewrite editors_loop_as_send_loop.
  set (editors := filter (fun e => is_viewer (client_role (snd e)) = false) (clients s)).
  erewrite since_app by apply send_loop_log. rewrite send_loop_clients.
  assert (Hviewer : ∀ k c, JsMap.get k (clients s) = Some c →
                           is_viewer (client_role c) = true → k ∉ JsMap.keys editors).
  { intros k c Hget Hv Hin. apply key_of_filtered in Hin as (c' & Hin & Hc'). simpl in Hc'.
    apply elem_of_get in Hget.
    assert ((k, c') = (k, c)) as [= ->] by by apply (wf_entry_unique (clients s)).
    congruence. }
  split_and!.
  - intros k c Hget Hv. split.
    + apply received_loop_events_other. by eapply Hviewer.
    + rewrite get_prune_other; [done|]. intros Hin.
      apply list_elem_of_filter in Hin as [_ Hin]. by eapply Hviewer.
  - intros k c Hget Hv Hex Hup. apply received_loop_events; try done.
    + by apply (wf_filter (clients s)).
    + apply (elem_of_keys editors (k, c)). apply list_elem_of_filter.
      split; [done | by apply elem_of_get].
  - by destruct (send_loop_frame down message excludeKey editors s) as (-> & _).
Qed.

Lemma editors_broadcast_skips_viewers_witness :
  let s' := broadcastToEditors (String.eqb "k2") (ItemDeleted "i1") (Some "k3") camping in
  (∀ k c, JsMap.get k (clients camping) = Some c → is_viewer (client_role c) = true →
          received k (since camping s') = [] ∧ JsMap.get k (clients s') = Some c)
  ∧ (∀ k c, JsMap.get k (clients camping) = Some c → is_viewer (client_role c) = false →
            excluded k (Some "k3") = false → String.eqb "k2" k = false →
            received k (since camping s') = [ItemDeleted "i1"])
  ∧ items s' = items camping.
Proof.
  apply (editors_broadcast_skips_viewers (String.eqb "k2") (ItemDeleted "i1") (Some "k3") camping).
  unfold JsMap.wf. compute_done.
Defined.

(** * The client's mirror follows the coordinator *)

(** ** Item stores keyed by identifier *)

Section Keyed.
Implicit Types (m : list (string * Item)) (k : string).

Lemma keyed_get m k item : keyed m → JsMap.get k m = Some item → item_id item = k.
Proof.
  intros Hk Hget. apply elem_of_get in Hget.
  unfold keyed in Hk. rewrite Forall_forall in Hk. by apply (Hk (k, item)).
Qed.

Lemma keyed_ids m : keyed m → map item_id (JsMap.values m) = JsMap.keys m.
Proof.
  induction m as [|[k0 v0] m IH]; intros Hk; [done|].
  apply Forall_cons in Hk as [Hk0 Hk]. simpl in *. by rewrite Hk0, IH.
Qed.

Lemma keyed_set m k item : keyed m → item_id item = k → keyed (JsMap.set k item m).
Proof.
  intros Hk Hid. induction m as [|[k0 v0] m IH]; simpl.
  - by apply Forall_cons.
  - apply Forall_cons in Hk as [Hk0 Hk]. destruct (String.eqb k k0) eqn:E.
    + apply String.eqb_eq in E. subst k0. by apply Forall_cons.
    + apply Forall_cons. split; [done | by apply IH].
Qed.

Lemma keyed_delete m k : keyed m → keyed (JsMap.delete k m).
Proof.
  intros Hk. induction m as [|[k0 v0] m IH]; simpl; [done|].
  apply Forall_cons in Hk as [Hk0 Hk]. destruct (String.eqb k k0); [done|].
  apply Forall_cons. split; [done | by apply IH].
Qed.

Lemma keyed_delete_all m ids : keyed m → keyed (foldl (fun m id => JsMap.delete id m) m ids).
Proof.
  revert m. induction ids as [|id ids IH]; intros m Hk; simpl; [done|].
  by apply IH, keyed_delete.
Qed.

Lemma wf_delete_all m ids :
  JsMap.wf m → JsMap.wf (foldl (fun m id => JsMap.delete id m) m ids).
Proof.
  revert m. induction ids as [|id ids IH]; intros m Hk; simpl; [done|].
  by apply IH, wf_delete.
Qed.

(** No stored item carries an identifier that is not a key. *)
Lemma onItemUpdated_absent m k item :
  keyed m → JsMap.get k m = None → item_id item = k →
  onItemUpdated (JsMap.values m) item = JsMap.values m.
Proof.
  intros Hk Hget Hid. subst k. unfold onItemUpdated.
  induction m as [|[k0 v0] m IH]; [done|].
  apply Forall_cons in Hk as [Hk0 Hk]. simpl in *.
  destruct (String.eqb (item_id item) k0) eqn:E; [done|].
  rewrite Hk0, String.eqb_sym, E. f_equal. by apply IH.
Qed.

(** Replacing an item in place is what [onItemUpdated] does to the list. *)
Lemma values_set_present m k old new :
  JsMap.wf m → keyed m → JsMap.get k m = Some old → item_id new = k →
  JsMap.values (JsMap.set k new m) = onItemUpdated (JsMap.values m) new.
Proof.
  unfold JsMap.wf. intros Hwf Hk Hget Hid. subst k.
  induction m as [|[k0 v0] m IH]; [done|].
  apply Forall_cons in Hk as [Hk0 Hk]. simpl in *.
  apply NoDup_cons in Hwf as [Hfresh Hwf].
  destruct (String.eqb (item_id new) k0) eqn:E; simpl.
  - unfold onItemUpdated. simpl. rewrite Hk0, String.eqb_sym, E. f_equal.
    symmetry. apply (onItemUpdated_absent m (item_id new) new); [done | | done].
    apply String.eqb_eq in E. rewrite E. by apply get_None_not_key.
  - unfold onItemUpdated. simpl. rewrite Hk0, String.eqb_sym, E. f_equal. by apply IH.
Qed.

(** Deleting a key is what [onItemDeleted] does to the list. *)
Lemma values_delete m k :
  JsMap.wf m → keyed m → JsMap.values (JsMap.delete k m) = onItemDeleted (JsMap.values m) k.
Proof.
  unfold JsMap.wf, onItemDeleted. intros Hwf Hk.
  induction m as [|[k0 v0] m IH]; [done|].
  apply Forall_cons in Hk as [Hk0 Hk]. simpl in *.
  apply NoDup_cons in Hwf as [Hfresh Hwf]. rewrite filter_cons, Hk0.
  destruct (String.eqb k k0) eqn:E.
  - apply String.eqb_eq in E. rewrite decide_False by (intros ?; congruence).
    rewrite <- IH by done. f_equal. symmetry. apply delete_absent.
    rewrite E. by apply get_None_not_key.
  - apply String.eqb_neq in E. rewrite decide_True by congruence.
    simpl. f_equal. by apply IH.
Qed.

(** Appending a new key is what [onItemAdded] does to the list. *)
Lemma values_set_new m item :
  keyed m → JsMap.get (item_id item) m = None →
  JsMap.values (JsMap.set (item_id item) item m) = onItemAdded (JsMap.values m) item.
Proof.
  intros Hk Hget. rewrite values_set_absent by done. unfold onItemAdded.
  assert (existsb (fun p => String.eqb (item_id p) (item_id item)) (JsMap.values m) = false)
    as ->; [|done].
  induction m as [|[k0 v0] m IH]; [done|].
  apply Forall_cons in Hk as [Hk0 Hk]. simpl in *.
  destruct (String.eqb (item_id item) k0) eqn:E; [done|].
  rewrite Hk0, String.eqb_sym, E. simpl. by apply IH.
Qed.
End Keyed.

(** ** Replaying what a session received *)

Lemma replay_app mirror l1 l2 : replay mirror (l1 ++ l2) = replay (replay mirror l1) l2.
Proof. apply foldl_app. Qed.

Lemma replay_ignores mirror msgs :
  Forall (fun m => about_items m = false) msgs → replay mirror msgs = mirror.
Proof.
  revert mirror. induction msgs as [|m msgs IH]; intros mirror H; [done|].
  apply Forall_cons in H as [Hm H]. simpl. rewrite <- (IH mirror H) at 2.
  f_equal. by destruct m.
Qed.

Lemma received_loop_events_all down message excludeKey keys k :
  Forall (eq message) (received k (loop_events down message excludeKey keys)).
Proof.
  induction keys as [|k0 keys IH]; [by apply Forall_nil|].
  rewrite loop_events_cons, received_app. apply Forall_app. split; [|done].
  unfold loop_event. destruct (excluded k0 excludeKey); [by apply Forall_nil|].
  destruct (down k0); simpl; [by apply Forall_nil|].
  destruct (String.eqb k0 k); [|by apply Forall_nil]. by apply Forall_singleton.
Qed.

Lemma quiet_refl k s : tracking k s → quiet k s s.
Proof.
  intros ([Hwfc _] & _ & Hk). split_and!; try done. exists []. by rewrite app_nil_r.
Qed.

Lemma tracking_quiet k s s0 : tracking k s → quiet k s s0 →
  tracking k s0 ∧ replay (JsMap.values (items s)) (received k (since s s0)) = JsMap.values (items s0).
Proof.
  intros ([Hwfc Hwfi] & Hkd & Hk) (Hwf0 & Hk0 & Hi & pre & Hlog & Hpre).
  split.
  - unfold tracking, well_formed. rewrite Hi. by split_and!.
  - by rewrite (since_app _ _ _ Hlog), Hpre, Hi.
Qed.

(** A broadcast that is not about items, after quiet steps, is quiet. *)
Lemma quiet_broadcast down message excludeKey k s s0 :
  quiet k s s0 → down k = false → about_items message = false →
  ∃ msgs, Forall (fun m => about_items m = false) msgs
          ∧ JsMap.wf (clients (broadcast down message excludeKey s0))
          ∧ k ∈ JsMap.keys (clients (broadcast down message excludeKey s0))
          ∧ items (broadcast down message excludeKey s0) = items s
          ∧ received k (since s (broadcast down message excludeKey s0)) = msgs.
Proof.
  intros (Hwf0 & Hk0 & Hi & pre & Hlog & Hpre) Hup Hm.
  destruct (broadcast_keeps down message excludeKey s0 k Hwf0 Hk0 Hup) as [Hwf' Hk'].
  exists (received k (loop_events down message excludeKey (JsMap.keys (clients s0)))).
  split_and!; try done.
  - eapply Forall_impl; [apply received_loop_events_all|]. by intros m <-.
  - by destruct (broadcast_frame down message excludeKey s0) as (-> & _).
  - erewrite since_app; [|by rewrite broadcast_log, Hlog, <- app_assoc].
    by rewrite received_app, Hpre.
Qed.

Lemma tracking_quiet_broadcast down message excludeKey k s s0 :
  tracking k s → quiet k s s0 → down k = false → about_items message = false →
  let s' := broadcast down message excludeKey s0 in
  tracking k s'
  ∧ replay (JsMap.values (items s)) (received k (since s s')) = JsMap.values (items s').
Proof.
  intros Ht Hq Hup Hm s'. subst s'.
  destruct (quiet_broadcast down message excludeKey k s s0 Hq Hup Hm)
    as (msgs & Hall & Hwf' & Hk' & Hi' & ->).
  destruct Ht as ([Hwfc Hwfi] & Hkd & Hk). split.
  - unfold tracking, well_formed. rewrite Hi'. by split_and!.
  - by rewrite replay_ignores, Hi'.
Qed.

(** An item mutation that persists and then broadcasts one message about
    the change. *)
Lemma tracking_save_broadcast down message excludeKey k its s :
  tracking k s → down k = false → excluded k excludeKey = false →
  JsMap.wf its → keyed its →
  reconcile (JsMap.values (items s)) message = JsMap.values its →
  let s' := broadcast down message excludeKey (saveItems (set_items its s)) in
  tracking k s'
  ∧ replay (JsMap.values (items s)) (received k (since s s')) = JsMap.values (items s').
Proof.
  intros ([Hwfc Hwfi] & Hkd & Hk) Hup Hex Hwf' Hkd' Hrec s'. subst s'.
  destruct (save_then_broadcast down message excludeKey its s) as (Hi & _ & _ & _ & Hl).
  destruct (broadcast_keeps down message excludeKey (saveItems (set_items its s)) k)
    as [Hwfc' Hk']; try done.
  split.
  - unfold tracking, well_formed. rewrite Hi. by split_and!.
  - rewrite Hl, Hi. simpl. rewrite received_loop_events by done. done.
Qed.

(** ** Every handler, seen from a passive session *)

Section Following.
Variable k : string.
Variable down : string → bool.
Variable now : Z.
Hypothesis k_up : down k = false.

Let follows (s s' : ListDO) : Prop :=
  tracking k s'
  ∧ replay (JsMap.values (items s)) (received k (since s s')) = JsMap.values (items s').

Lemma follows_refl s : tracking k s → follows s s.
Proof. intros Ht. split; [done|]. by rewrite since_refl. Qed.

Lemma follows_quiet s s0 : tracking k s → quiet k s s0 → follows s s0.
Proof. apply tracking_quiet. Qed.

Lemma quiet_events s s0 pre :
  tracking k s → clients s0 = clients s → items s0 = items s →
  log s0 = log s ++ pre → received k pre = [] → quiet k s s0.
Proof.
  intros ([Hwfc _] & _ & Hk) Hc Hi Hlog Hpre. unfold quiet. rewrite Hc.
  split_and!; try done. by exists pre.
Qed.

Lemma follows_handleWebSocket u s :
  tracking k s → follows s (fst (handleWebSocket down u s)).
Proof.
  intros Ht. destruct (decide (clientKeyOf u = k)) as [Heq|Hne].
  - pose proof (handleWebSocket_accepts down u s) as H. rewrite Heq in H.
    specialize (H k_up). cbv zeta in H. destruct H as (_ & Hlog & _ & Hi & Hcl).
    destruct Ht as ([Hwfc Hwfi] & Hkd & Hk). split.
    + unfold tracking, well_formed. rewrite Hi, Hcl. split_and!; try done.
      * by apply wf_set.
      * apply key_iff_get. by rewrite get_set_eq.
    + rewrite (since_app _ _ _ Hlog), received_own_sends, Hi. simpl.
      apply replay_ignores. unfold ledger_snapshot.
      destruct (yjsDocState s) as [bytes|]; [|by apply Forall_nil].
      destruct (0 <? length bytes)%nat; [by apply Forall_singleton | by apply Forall_nil].
  - apply follows_quiet; [done|].
    destruct Ht as ([Hwfc Hwfi] & Hkd & Hk).
    assert (Hne' : String.eqb (clientKeyOf u) k = false) by by apply String.eqb_neq.
    unfold handleWebSocket, server_send, quiet. cbv zeta.
    assert (Hin : ∀ c, k ∈ JsMap.keys (JsMap.set (clientKeyOf u) c (clients s))).
    { intros c. apply key_iff_get. rewrite get_set_ne by done. by apply key_iff_get. }
    destruct (down (clientKeyOf u)); simpl.
    { split_and!; [by apply wf_set | apply Hin | done |].
      eexists. split; [done|]. done. }
    destruct (yjsDocState s) as [bytes|]; simpl.
    + destruct (0 <? length bytes)%nat; simpl.
      * destruct (down (clientKeyOf u)); simpl;
          (split_and!; [by apply wf_set | apply Hin | done |]);
          (eexists; split; [by rewrite <- app_assoc|]); simpl; by rewrite ?Hne'.
      * split_and!; [by apply wf_set | apply Hin | done |].
        eexists. split; [done|]. simpl. by rewrite Hne'.
    + split_and!; [by apply wf_set | apply Hin | done |].
      eexists. split; [done|]. simpl. by rewrite Hne'.
Qed.

Lemma replay_deletes m ids :
  JsMap.wf m → keyed m →
  replay (JsMap.values m) (map ItemDeleted ids)
  = JsMap.values (foldl (fun m id => JsMap.delete id m) m ids).
Proof.
  revert m. induction ids as [|id ids IH]; intros m Hwf Hkd; [done|].
  simpl. rewrite <- values_delete by done.
  apply IH; [by apply wf_delete | by apply keyed_delete].
Qed.

Lemma clear_loop_keeps toDelete s :
  JsMap.wf (clients s) → k ∈ JsMap.keys (clients s) →
  JsMap.wf (clients (clear_loop down toDelete s))
  ∧ k ∈ JsMap.keys (clients (clear_loop down toDelete s)).
Proof.
  revert s. induction toDelete as [|id rest IH]; intros s Hwf Hk; simpl; [done|].
  apply IH;
    by apply (broadcast_keeps down (ItemDeleted id) None
                (set_items (JsMap.delete id (items s)) s) k).
Qed.

Lemma follows_clear_done s :
  tracking k s → follows s (saveItems (clear_loop down (checked_ids (items s)) s)).
Proof.
  intros ([Hwfc Hwfi] & Hkd & Hk).
  destruct (clear_loop_frame down (checked_ids (items s)) s) as (Hi & _).
  destruct (clear_loop_keeps (checked_ids (items s)) s Hwfc Hk) as [Hwfc' Hk'].
  destruct (clear_loop_extends down (checked_ids (items s)) s) as [ext Hext].
  pose proof (clear_loop_received down (checked_ids (items s)) s k Hwfc Hk k_up) as Hr.
  rewrite (since_app _ _ _ Hext) in Hr.
  split.
  - unfold tracking, well_formed. simpl. rewrite Hi. split_and!; try done.
    + by apply wf_delete_all.
    + by apply keyed_delete_all.
  - erewrite since_app; [|by simpl; rewrite Hext, <- app_assoc].
    rewrite received_app, Hr. simpl. rewrite app_nil_r, Hi. by apply replay_deletes.
Qed.

Lemma follows_fetch req s :
  tracking k s → followable k s (mkArrival now down (InFetch req)) →
  follows s (fst (fetch down now req s)).
Proof.
  intros Ht [_ Hf]. simpl in Hf. pose proof Ht as ([Hwfc Hwfi] & Hkd & Hk).
  destruct req as [|u|meta| |item|itemId updates|itemId|schema0| |]; simpl.
  - by apply follows_refl.
  - by apply follows_handleWebSocket.
  - apply follows_quiet; [done|].
    eapply quiet_events; [done | done | done | | ];
      [simpl; rewrite <- !app_assoc; reflexivity | done].
  - by apply follows_refl.
  - apply tracking_save_broadcast; try done.
    + by apply wf_set.
    + by apply keyed_set.
    + simpl. symmetry. by apply values_set_new.
  - destruct (JsMap.get itemId (items s)) as [existing|] eqn:Hget; simpl;
      [|by apply follows_refl].
    assert (Hid : item_id (apply_updates existing updates now) = itemId).
    { simpl. destruct Hf as [->| ->]; simpl; [by eapply keyed_get | done]. }
    apply tracking_save_broadcast; try done.
    + by apply wf_set.
    + by apply keyed_set.
    + simpl. symmetry. by eapply values_set_present.
  - apply tracking_save_broadcast; try done.
    + by apply wf_delete.
    + by apply keyed_delete.
    + simpl. symmetry. by apply values_delete.
  - apply tracking_quiet_broadcast; try done.
    destruct (listMeta s) as [m|] eqn:E; simpl.
    + eapply quiet_events; [done | done | done | | ];
        [simpl; rewrite <- !app_assoc; reflexivity | done].
    + eapply quiet_events; [done | done | done | | ]; [simpl; reflexivity | done].
  - by apply follows_clear_done.
  - by apply follows_refl.
Qed.

Lemma follows_onMessage clientKey userRole data s :
  tracking k s → clientKey ≠ k →
  follows s (onMessage down now clientKey userRole data s).
Proof.
  intros Ht Hne. pose proof Ht as ([Hwfc Hwfi] & Hkd & Hk).
  assert (Hne' : String.eqb clientKey k = false) by by apply String.eqb_neq.
  destruct (onMessage_outcome down now clientKey userRole data s)
    as [| | |bytes m Hm|k0 old new ex Hget Hid Hex].
  - by apply follows_refl.
  - apply follows_quiet; [done|]. by eapply quiet_events.
  - apply follows_quiet; [done|]. unfold server_send.
    destruct (down clientKey); simpl.
    + eapply quiet_events; [done | done | done | | ];
        [simpl; rewrite <- !app_assoc; reflexivity | done].
    + eapply quiet_events; [done | done | done | simpl; reflexivity |].
      simpl. by rewrite Hne'.
  - apply tracking_quiet_broadcast; try done.
    destruct (ledger_store bytes s) as (Hc & Hi & _ & _ & _ & Hl).
    by eapply quiet_events.
  - apply tracking_save_broadcast; try done.
    + destruct Hex as [-> | ->]; [done|]. simpl. rewrite String.eqb_sym. done.
    + by apply wf_set.
    + apply keyed_set; [done|]. rewrite Hid. by eapply keyed_get.
    + simpl. symmetry. eapply values_set_present; try done.
      rewrite Hid. by eapply keyed_get.
Qed.

Lemma follows_onClose clientKey s :
  tracking k s → clientKey ≠ k → follows s (onClose down clientKey s).
Proof.
  intros Ht Hne. pose proof Ht as ([Hwfc Hwfi] & Hkd & Hk).
  unfold onClose, broadcastPresence. apply tracking_quiet_broadcast; try done.
  unfold quiet. simpl. split_and!; [by apply wf_delete | | done |].
  - apply key_iff_get. rewrite get_delete_ne by done. by apply key_iff_get.
  - exists []. by rewrite app_nil_r.
Qed.

Lemma follows_onTimer s : tracking k s → follows s (onTimer down s).
Proof.
  intros Ht. unfold onTimer. destruct (timers s) as [|n]; [by apply follows_refl|].
  unfold broadcastPresence. apply tracking_quiet_broadcast; try done.
  by eapply quiet_events; [done | done | done | symmetry; apply app_nil_r | done].
Qed.

Lemma follows_input input s :
  tracking k s → followable k s (mkArrival now down input) →
  follows s (step s (mkArrival now down input)).
Proof.
  intros Ht Hf. unfold step. simpl. destruct input.
  - by apply follows_fetch.
  - destruct Hf as [_ Hf]. by apply follows_onMessage.
  - destruct Hf as [_ Hf]. by apply follows_onClose.
  - destruct Hf as [_ Hf]. by apply follows_onClose.
  - by apply follows_onTimer.
Qed.
End Following.

(** ** Convergence *)

Lemma follows_step k s a :
  tracking k s → followable k s a →
  tracking k (step s a)
  ∧ replay (JsMap.values (items s)) (received k (since s (step s a)))
    = JsMap.values (items (step s a)).
Proof.
  intros Ht Hf. destruct a as [now down input]. pose proof Hf as [Hup _]. simpl in Hup.
  by apply (follows_input k down now Hup input s).
Qed.

Lemma since_run s a rest :
  since s (run (step s a) rest) = since s (step s a) ++ since (step s a) (run (step s a) rest).
Proof.
  destruct (extends_run s [a]) as [e1 H1]. simpl in H1.
  destruct (extends_run (step s a) rest) as [e2 H2].
  rewrite (since_app _ _ _ H1), (since_app _ _ _ H2).
  apply since_app. by rewrite H2, H1, <- app_assoc.
Qed.

Lemma follows_run k s arrivals :
  tracking k s → all_followable k s arrivals →
  tracking k (run s arrivals)
  ∧ replay (JsMap.values (items s)) (received k (since s (run s arrivals)))
    = JsMap.values (items (run s arrivals)).
Proof.
  revert s. induction arrivals as [|a rest IH]; intros s Ht Hall; simpl.
  { split; [done|]. by rewrite since_refl. }
  destruct Hall as [Hf Hall].
  destruct (follows_step k s a Ht Hf) as [Ht1 Hr1].
  destruct (IH (step s a) Ht1 Hall) as [Ht2 Hr2].
  split; [done|].
  by rewrite since_run, received_app, replay_app, Hr1.
Qed.

(** X14. A registered session that only listens holds the server's item
    list, as long as every item is stored under its own identifier: if that
    is so in the item store (the coordinator does not enforce it: an update
    over HTTP whose body gives another [id] breaks it) and the mirror of the
    session equals the item list, then after any sequence of arrivals the
    session can follow (its socket keeps working, it neither sends nor
    closes, added items have new identifiers and HTTP updates do not rename
    an item), applying in order the messages it was sent gives exactly the
    item list of the coordinator, in the coordinator's order, the session is
    still registered, and every item is still stored under its own
    identifier. *)
Theorem listening_mirror_follows_the_store k s arrivals :
  well_formed s →
  keyed (items s) →
  k ∈ JsMap.keys (clients s) →
  all_followable k s arrivals →
  replay (map snd (items s)) (received k (since s (run s arrivals)))
  = map snd (items (run s arrivals))
  ∧ k ∈ JsMap.keys (clients (run s arrivals))
  ∧ keyed (items (run s arrivals)).
Proof.
  intros Hwf Hkd Hk Hall.
  destruct (follows_run k s arrivals) as [(_ & Hkd' & Hk') Hr]; [by split_and! | done |].
  by split_and!.
Qed.

(** X15. A session that joins a list in which every item is stored under
    its own identifier (the coordinator does not enforce it: an update over
    HTTP whose body gives another [id] breaks it) and then only listens
    converges from any starting mirror: the snapshot it is sent on
    acceptance replaces whatever it held, and after any sequence of arrivals
    it can follow, replaying everything it received since it joined gives
    the coordinator's item list. *)
Theorem joining_mirror_converges down u s arrivals mirror :
  well_formed s →
  keyed (items s) →
  down (clientKeyOf u) = false →
  let s1 := fst (handleWebSocket down u s) in
  all_followable (clientKeyOf u) s1 arrivals →
  replay mirror (received (clientKeyOf u) (since s (run s1 arrivals)))
  = map snd (items (run s1 arrivals)).
Proof.
  intros [Hwfc Hwfi] Hkd Hup s1 Hall. subst s1.
  pose proof (handleWebSocket_accepts down u s Hup) as H. cbv zeta in H.
  destruct H as (_ & Hlog & _ & Hi & Hcl).
  set (s1 := fst (handleWebSocket down u s)) in *.
  assert (Ht : tracking (clientKeyOf u) s1).
  { unfold tracking, well_formed. rewrite Hi, Hcl. split_and!; try done.
    - by apply wf_set.
    - apply key_iff_get. by rewrite get_set_eq. }
  destruct (follows_run (clientKeyOf u) s1 arrivals Ht Hall) as [_ Hr].
  destruct (extends_run s1 arrivals) as [e2 H2].
  rewrite (since_app _ _ _ H2) in Hr.
  erewrite since_app; [|by rewrite H2, Hlog, <- app_assoc].
  rewrite received_app, replay_app, received_own_sends. simpl.
  rewrite (replay_ignores _ (ledger_snapshot s)).
  - by rewrite <- Hi.
  - unfold ledger_snapshot. destruct (yjsDocState s) as [bytes|]; [|by apply Forall_nil].
    destruct (0 <? length bytes)%nat; [by apply Forall_singleton | by apply Forall_nil].
Qed.

Lemma keyed_camping : keyed (items camping).
Proof. unfold keyed. by repeat constructor. Qed.

Lemma listening_mirror_follows_the_store_witness :
  replay (map snd (items camping)) (received "k2" (since camping (run camping afternoon)))
  = map snd (items (run camping afternoon))
  ∧ "k2" ∈ JsMap.keys (clients (run camping afternoon))
  ∧ keyed (items (run camping afternoon)).
Proof.
  apply (listening_mirror_follows_the_store "k2" camping afternoon).
  - exact well_formed_camping.
  - exact keyed_camping.
  - compute_done.
  - vm_compute. repeat split; try done; by left.
Defined.

Lemma joining_mirror_converges_witness :
  let u := mkUpgrade (Some "erin@example.org") None None None "205-0.3" in
  let s1 := fst (handleWebSocket all_up u camping) in
  replay [stove; stove] (received (clientKeyOf u) (since camping (run s1 afternoon)))
  = map snd (items (run s1 afternoon)).
Proof.
  intros u.
  apply (joining_mirror_converges all_up u camping afternoon [stove; stove]).
  - exact well_formed_camping.
  - exact keyed_camping.
  - reflexivity.
  - vm_compute. repeat split; try done; by left.
Defined.

(** The run, computed: the mirror of the listening viewer ends with the one
    unchecked item the coordinator holds. *)
Example afternoon_result :
  map item_id (JsMap.values (items (run camping afternoon))) = ["i1"]
  ∧ map item_id
      (replay (JsMap.values (items camping))
         (received "k2" (since camping (run camping afternoon)))) = ["i1"].
Proof. vm_compute. done. Qed.

(** * The worker in front of the coordinator *)

(** ** Who may do what *)

(** X16. A caller who is neither the owner nor an editor of a list cannot
    change it through the worker: every mutating route answers 403
    "Forbidden" and leaves the namespace and the list's object exactly as
    they were; a caller with no role at all is refused a socket in the same
    way. *)
Theorem outsiders_change_nothing down now listId op user meta w :
  getListMeta listId (w_env w) = Some meta →
  can_edit (getUserRole user meta) = false →
  is_socket op = false ∨ getUserRole user meta = None →
  list_op down now listId op user w = (w, reply 403 (WError "Forbidden")).
Proof.
  intros Hmeta Hedit Hop.
  destruct op; simpl;
    unfold handleUpdateSchema, handleAddItem, handleDeleteItem, handleUpdateItem,
           handleClearDone, routeWebSocket;
    rewrite Hmeta, ?Hedit; simpl; try done.
  destruct Hop as [Hop| ->]; [done | done].
Qed.

Lemma outsiders_change_nothing_witness :
  list_op all_up 200 "L1" (OpAddItem stove) bob_jwt camping_world
  = (camping_world, reply 403 (WError "Forbidden")).
Proof.
  apply (outsiders_change_nothing all_up 200 "L1" (OpAddItem stove) bob_jwt camping_meta).
  - reflexivity.
  - reflexivity.
  - by left.
Defined.

(** A route on a list that has no record answers 404 "Not found" and
    changes nothing. *)
Lemma unknown_list_is_not_found down now listId op user w :
  getListMeta listId (w_env w) = None →
  list_op down now listId op user w = (w, reply 404 (WError "Not found")).
Proof.
  intros Hmeta.
  destruct op; simpl;
    unfold handleUpdateSchema, handleAddItem, handleDeleteItem, handleUpdateItem,
           handleClearDone, routeWebSocket;
    by rewrite Hmeta.
Qed.

Lemma index_puts_nil env : index_puts env [] = env.
Proof. done. Qed.

(** X17. When an owner or editor updates, through the worker, an item the
    list does not hold, the object answers with the text "Not found", on
    which the worker's [resp.json()] throws: the caller gets no 404 but an
    unhandled failure. Nothing is changed. *)
Theorem update_of_missing_item_throws down now listId itemId updates user meta w :
  getListMeta listId (w_env w) = Some meta →
  can_edit (getUserRole user meta) = true →
  JsMap.get itemId (items (object_of listId w)) = None →
  let out := handleUpdateItem down now listId itemId updates user w in
  snd out = None
  ∧ w_env (fst out) = w_env w
  ∧ object_of listId (fst out) = object_of listId w.
Proof.
  intros Hmeta Hedit Hget out. subst out.
  unfold handleUpdateItem, stub_fetch. rewrite Hmeta, Hedit. simpl. rewrite Hget. simpl.
  split_and!; [done | by rewrite since_refl |].
  unfold object_of at 1. simpl. by rewrite lookup_insert_eq.
Qed.

Lemma update_of_missing_item_throws_witness :
  let updates := mkUpdates None None (Some true) None in
  let out := handleUpdateItem all_up 200 "L1" "ghost" updates alice_jwt camping_world in
  snd out = None
  ∧ w_env (fst out) = w_env camping_world
  ∧ object_of "L1" (fst out) = object_of "L1" camping_world.
Proof.
  intros updates.
  apply (update_of_missing_item_throws all_up 200 "L1" "ghost" updates alice_jwt camping_meta
           camping_world).
  - reflexivity.
  - reflexivity.
  - reflexivity.
Defined.

(** ** The user's index of lists *)

Lemma user_ids_add env email listId :
  user_ids (addListToUserIndex email listId env) email
  = if bool_decide (listId ∈ user_ids env email) then user_ids env email
    else user_ids env email ++ [listId].
Proof.
  unfold addListToUserIndex, user_ids. case_bool_decide; [done|].
  simpl. by rewrite lookup_insert_eq.
Qed.

Lemma user_ids_add_other env email email' listId :
  email' ≠ email →
  user_ids (addListToUserIndex email listId env) email' = user_ids env email'.
Proof.
  intros Hne. unfold addListToUserIndex, user_ids. case_bool_decide; [done|].
  simpl. by rewrite lookup_insert_ne.
Qed.

Lemma user_ids_remove env email listId :
  user_ids (removeListFromUserIndex email listId env) email
  = filter (fun id => id ≠ listId) (user_ids env email).
Proof.
  unfold removeListFromUserIndex, user_ids.
  destruct (kv_user_lists env !! email) as [ids|] eqn:E; simpl.
  - by rewrite lookup_insert_eq.
  - by rewrite E.
Qed.

Lemma user_ids_remove_other env email email' listId :
  email' ≠ email →
  user_ids (removeListFromUserIndex email listId env) email' = user_ids env email'.
Proof.
  intros Hne. unfold removeListFromUserIndex, user_ids.
  destruct (kv_user_lists env !! email) as [ids|] eqn:E; simpl; [|done].
  by rewrite lookup_insert_ne.
Qed.

Lemma lists_addListToUserIndex env email listId :
  kv_lists (addListToUserIndex email listId env) = kv_lists env.
Proof. unfold addListToUserIndex. by case_bool_decide. Qed.

Lemma lists_removeListFromUserIndex env email listId :
  kv_lists (removeListFromUserIndex email listId env) = kv_lists env.
Proof. unfold removeListFromUserIndex. by destruct (kv_user_lists env !! email). Qed.

(** X18. The index of a user's lists is a set kept in order of arrival:
    adding a list puts it in the index without ever repeating an identifier,
    adding it again changes nothing, removing it takes it out, and neither
    touches the index of another user. *)
Theorem user_index_is_a_set env email listId :
  NoDup (user_ids env email) →
  let env1 := addListToUserIndex email listId env in
  listId ∈ user_ids env1 email
  ∧ NoDup (user_ids env1 email)
  ∧ addListToUserIndex email listId env1 = env1
  ∧ (listId ∉ user_ids (removeListFromUserIndex email listId env1) email)
  ∧ NoDup (user_ids (removeListFromUserIndex email listId env1) email)
  ∧ ∀ other, other ≠ email →
             user_ids env1 other = user_ids env other
             ∧ user_ids (removeListFromUserIndex email listId env) other = user_ids env other.
Proof.
  intros Hnd env1. subst env1.
  assert (Hin : listId ∈ user_ids (addListToUserIndex email listId env) email).
  { rewrite user_ids_add. case_bool_decide; [done|].
    apply elem_of_app. right. by apply list_elem_of_singleton. }
  assert (Hnd1 : NoDup (user_ids (addListToUserIndex email listId env) email)).
  { rewrite user_ids_add. case_bool_decide as Hmem; [done|].
    apply NoDup_app. split_and!; [done | | apply NoDup_singleton].
    intros x Hx Hx'. apply list_elem_of_singleton in Hx'. by subst. }
  split_and!; try done.
  - unfold addListToUserIndex at 1. fold (user_ids (addListToUserIndex email listId env) email).
    by rewrite bool_decide_eq_true_2.
  - rewrite user_ids_remove. intros H. by apply list_elem_of_filter in H as [? _].
  - rewrite user_ids_remove. by apply NoDup_filter.
  - intros other Hne. split.
    + by apply user_ids_add_other.
    + by apply user_ids_remove_other.
Qed.

Lemma user_index_is_a_set_witness :
  let env1 := addListToUserIndex "alice@example.org" "L2" camping_env in
  "L2" ∈ user_ids env1 "alice@example.org"
  ∧ NoDup (user_ids env1 "alice@example.org")
  ∧ addListToUserIndex "alice@example.org" "L2" env1 = env1
  ∧ ("L2" ∉ user_ids (removeListFromUserIndex "alice@example.org" "L2" env1)
                     "alice@example.org")
  ∧ NoDup (user_ids (removeListFromUserIndex "alice@example.org" "L2" env1) "alice@example.org")
  ∧ ∀ other, other ≠ "alice@example.org" →
             user_ids env1 other = user_ids camping_env other
             ∧ user_ids (removeListFromUserIndex "alice@example.org" "L2" camping_env) other
               = user_ids camping_env other.
Proof.
  apply (user_index_is_a_set camping_env "alice@example.org" "L2").
  compute_done.
Defined.

(** ** Sharing grants and removes access *)

Lemma find_share_none email shares :
  existsb (fun sh => String.eqb (share_email sh) email) shares = false →
  List.find (fun sh => String.eqb (share_email sh) email) shares = None.
Proof.
  induction shares as [|sh rest IH]; simpl; [done|].
  destruct (String.eqb (share_email sh) email); simpl; [done | exact IH].
Qed.

Lemma find_share_app email shares sh :
  existsb (fun sh => String.eqb (share_email sh) email) shares = false →
  share_email sh = email →
  List.find (fun sh => String.eqb (share_email sh) email) (shares ++ [sh]) = Some sh.
Proof.
  intros Hnone Heq. induction shares as [|sh0 rest IH]; simpl in *.
  - by rewrite Heq, String.eqb_refl.
  - apply orb_false_elim in Hnone as [H0 Hrest]. rewrite H0. by apply IH.
Qed.

Lemma find_share_set_role email role shares :
  existsb (fun sh => String.eqb (share_email sh) email) shares = true →
  List.find (fun sh => String.eqb (share_email sh) email) (set_role email role shares)
  = Some (mkShare email role).
Proof.
  induction shares as [|sh rest IH]; simpl; [done|].
  destruct (String.eqb (share_email sh) email) eqn:E; simpl.
  - intros _. rewrite E. apply String.eqb_eq in E. by rewrite E.
  - intros H. rewrite E. by apply IH.
Qed.

Lemma find_share_filtered email shares :
  List.find (fun sh => String.eqb (share_email sh) email)
            (filter (fun sh => share_email sh ≠ email) shares) = None.
Proof.
  induction shares as [|sh rest IH]; [done|].
  rewrite filter_cons. destruct (decide (share_email sh ≠ email)) as [Hne|Heq]; [|exact IH].
  simpl. apply String.eqb_neq in Hne. by rewrite Hne.
Qed.

Lemma existsb_share_elem email shares :
  existsb (fun sh => String.eqb (share_email sh) email) shares = true →
  email ∈ map share_email shares.
Proof.
  induction shares as [|sh rest IH]; simpl; [done|].
  destruct (String.eqb (share_email sh) email) eqn:E; simpl.
  - apply String.eqb_eq in E. intros _. rewrite E. left.
  - intros H. right. by apply IH.
Qed.

Section Sharing.
Variable toLowerCase : string → string.
Variable trim : string → string.
Variable decodeURIComponent : string → option string.

(** X19. A share that was accepted gives access: after [handleAddShare]
    answered 200, the list record grants the invited (lower-cased) email
    exactly the role of the invitation, the list is in that user's index,
    and the owner is who it was. *)
Theorem accepted_share_grants_the_role listId email role user env u :
  succeeded (snd (handleAddShare toLowerCase trim listId email role user env)) = true →
  jwt_email u = toLowerCase email →
  let env' := fst (handleAddShare toLowerCase trim listId email role user env) in
  ∃ meta', getListMeta listId env' = Some meta'
           ∧ getUserRole u meta' = Some (role_of_share role)
           ∧ listId ∈ user_ids env' (toLowerCase email)
           ∧ getUserRole user meta' = Some Owner.
Proof.
  unfold handleAddShare, getListMeta. intros Hok Hu.
  destruct (kv_lists env !! listId) as [meta|] eqn:Hmeta; [|done].
  destruct (String.eqb (meta_ownerEmail meta) (jwt_email user)) eqn:Howner; [|done].
  simpl in *. destruct (isAllowedEmail _ _ _ _); [|done]. simpl in *.
  destruct (String.eqb (toLowerCase email) (jwt_email user)) eqn:Hself; [done|].
  destruct (existsb _ _) eqn:Hdup; [done|]. simpl in *.
  eexists. split_and!.
  - rewrite lists_addListToUserIndex. simpl. apply lookup_insert_eq.
  - unfold getUserRole. simpl. rewrite Hu.
    apply String.eqb_eq in Howner. rewrite Howner, String.eqb_sym, Hself.
    by rewrite (find_share_app _ _ (mkShare (toLowerCase email) role)).
  - rewrite user_ids_add. case_bool_decide; [done|].
    apply elem_of_app. right. by apply list_elem_of_singleton.
  - unfold getUserRole. simpl. by rewrite Howner.
Qed.

(** X20. A role change that was accepted takes effect: after
    [handleUpdateShare] answered 200 on a well-formed record, the record
    grants the addressed email the new role. *)
Theorem updated_share_grants_the_role listId targetEmail role user env decoded u :
  index_ok env →
  decodeURIComponent targetEmail = Some decoded →
  succeeded (snd (handleUpdateShare toLowerCase decodeURIComponent
                    listId targetEmail role user env)) = true →
  jwt_email u = toLowerCase decoded →
  let env' := fst (handleUpdateShare toLowerCase decodeURIComponent
                     listId targetEmail role user env) in
  ∃ meta', getListMeta listId env' = Some meta'
           ∧ getUserRole u meta' = Some (role_of_share role)
           ∧ Some (share_emails meta') = share_emails <$> getListMeta listId env.
Proof.
  unfold handleUpdateShare, getListMeta. intros Hinv Hdec Hok Hu.
  destruct (kv_lists env !! listId) as [meta|] eqn:Hmeta; [|done].
  destruct (String.eqb (meta_ownerEmail meta) (jwt_email user)) eqn:Howner; [|done].
  simpl in *. rewrite Hdec in *.
  destruct (existsb _ _) eqn:Hin; [|done]. simpl in *.
  destruct (Hinv listId meta Hmeta) as [Hnotowner _].
  eexists. split_and!.
  - apply lookup_insert_eq.
  - unfold getUserRole. simpl. rewrite Hu.
    destruct (String.eqb (meta_ownerEmail meta) (toLowerCase decoded)) eqn:E.
    { apply String.eqb_eq in E. exfalso. apply Hnotowner. rewrite E.
      by apply existsb_share_elem. }
    by rewrite find_share_set_role.
  - unfold share_emails. simpl. by rewrite emails_set_role.
Qed.

(** X21. Removing a share takes the access away: after [handleRemoveShare]
    answered 200, the record gives the addressed email no role, unless it is
    the owner's, and the list is gone from that user's index (the owner's
    included, should the owner address their own email); the other shares
    are kept in their order. *)
Theorem removed_share_loses_access listId targetEmail user env decoded u :
  decodeURIComponent targetEmail = Some decoded →
  succeeded (snd (handleRemoveShare toLowerCase decodeURIComponent
                    listId targetEmail user env)) = true →
  jwt_email u = toLowerCase decoded →
  let env' := fst (handleRemoveShare toLowerCase decodeURIComponent
                     listId targetEmail user env) in
  ∃ meta meta', getListMeta listId env = Some meta
           ∧ getListMeta listId env' = Some meta'
           ∧ (jwt_email u ≠ meta_ownerEmail meta → getUserRole u meta' = None)
           ∧ (listId ∉ user_ids env' (toLowerCase decoded))
           ∧ meta_shares meta'
             = filter (fun sh => share_email sh ≠ toLowerCase decoded) (meta_shares meta)
           ∧ meta_ownerEmail meta' = meta_ownerEmail meta.
Proof.
  unfold handleRemoveShare, getListMeta. intros Hdec Hok Hu.
  destruct (kv_lists env !! listId) as [meta|] eqn:Hmeta; [|done].
  destruct (String.eqb (meta_ownerEmail meta) (jwt_email user)) eqn:Howner; [|done].
  simpl in *. rewrite Hdec in *. simpl in *.
  exists meta. eexists. split_and!.
  - done.
  - rewrite lists_removeListFromUserIndex. simpl. apply lookup_insert_eq.
  - intros Hne. unfold getUserRole. simpl.
    destruct (String.eqb (meta_ownerEmail meta) (jwt_email u)) eqn:E.
    { apply String.eqb_eq in E. congruence. }
    rewrite Hu. by rewrite find_share_filtered.
  - rewrite user_ids_remove. intros H. by apply list_elem_of_filter in H as [? _].
  - done.
  - done.
Qed.
End Sharing.

Lemma accepted_share_grants_the_role_witness :
  let out := handleAddShare ascii_toLowerCase ascii_trim "L1" "Dave@Example.org" ShareEditor
               owner_jwt camping_env in
  ∃ meta', getListMeta "L1" (fst out) = Some meta'
           ∧ getUserRole (mkJWT "dave@example.org" "Dave" "#111111") meta' = Some Editor
           ∧ "L1" ∈ user_ids (fst out) (ascii_toLowerCase "Dave@Example.org")
           ∧ getUserRole owner_jwt meta' = Some Owner.
Proof.
  apply (accepted_share_grants_the_role ascii_toLowerCase ascii_trim "L1" "Dave@Example.org"
           ShareEditor owner_jwt camping_env (mkJWT "dave@example.org" "Dave" "#111111")).
  - reflexivity.
  - reflexivity.
Defined.

Lemma updated_share_grants_the_role_witness :
  let out := handleUpdateShare ascii_toLowerCase plain_decode "L1" "Bob@example.org"
               ShareEditor owner_jwt camping_env in
  ∃ meta', getListMeta "L1" (fst out) = Some meta'
           ∧ getUserRole bob_jwt meta' = Some Editor
           ∧ Some (share_emails meta') = share_emails <$> getListMeta "L1" camping_env.
Proof.
  apply (updated_share_grants_the_role ascii_toLowerCase plain_decode "L1" "Bob@example.org"
           ShareEditor owner_jwt camping_env "Bob@example.org" bob_jwt).
  - exact index_ok_camping.
  - reflexivity.
  - reflexivity.
  - reflexivity.
Defined.

Lemma removed_share_loses_access_witness :
  let out := handleRemoveShare ascii_toLowerCase plain_decode "L1" "Bob@example.org"
               owner_jwt camping_env in
  ∃ meta meta', getListMeta "L1" camping_env = Some meta
           ∧ getListMeta "L1" (fst out) = Some meta'
           ∧ (jwt_email bob_jwt ≠ meta_ownerEmail meta → getUserRole bob_jwt meta' = None)
           ∧ ("L1" ∉ user_ids (fst out) (ascii_toLowerCase "Bob@example.org"))
           ∧ meta_shares meta'
             = filter (fun sh => share_email sh ≠ ascii_toLowerCase "Bob@example.org")
                      (meta_shares meta)
           ∧ meta_ownerEmail meta' = meta_ownerEmail meta.
Proof.
  apply (removed_share_loses_access ascii_toLowerCase plain_decode "L1" "Bob@example.org"
           owner_jwt camping_env "Bob@example.org" bob_jwt).
  - reflexivity.
  - reflexivity.
  - reflexivity.
Defined.

(** ** Listing, creating and deleting lists *)

Lemma handleGetLists_spec user w :
  ∃ lists,
    handleGetLists user w = (w, reply 200 (WLists lists))
    ∧ ∀ meta role,
        (meta, role) ∈ lists
        ↔ ∃ listId, listId ∈ user_ids (w_env w) (jwt_email user)
                    ∧ getListMeta listId (w_env w) = Some meta
                    ∧ getUserRole user meta = Some role.
Proof.
  eexists. split; [reflexivity|]. intros meta role.
  fold (user_ids (w_env w) (jwt_email user)).
  rewrite list_elem_of_In, in_flat_map. split.
  - intros (listId & Hin & Hx). exists listId. apply list_elem_of_In in Hin.
    destruct (getListMeta listId (w_env w)) as [m|]; [|done].
    destruct (getUserRole user m) as [r|] eqn:Hr; [|done].
    apply list_elem_of_In, list_elem_of_singleton in Hx as [= -> ->]. done.
  - intros (listId & Hin & Hm & Hr). exists listId. split; [by apply list_elem_of_In|].
    rewrite Hm, Hr. by left.
Qed.

(** X22. [GET /lists] answers with exactly the lists of the caller's index
    that still have a record in which the caller has a role, each with that
    role: a stale index entry never shows a list the caller cannot open. *)
Theorem listed_lists_are_accessible user w :
  ∃ lists,
    handleGetLists user w = (w, reply 200 (WLists lists))
    ∧ ∀ meta role,
        (meta, role) ∈ lists
        ↔ ∃ listId, listId ∈ user_ids (w_env w) (jwt_email user)
                    ∧ getListMeta listId (w_env w) = Some meta
                    ∧ getUserRole user meta = Some role.
Proof. apply handleGetLists_spec. Qed.

Lemma fetch_init_log down now meta obj :
  since obj (fst (fetch down now (ReqInit meta) obj))
  = [EvPut (PutMeta meta); EvIndexPut meta; EvPut (PutSchema (meta_schema meta))].
Proof. apply since_app. simpl. by rewrite <- !app_assoc. Qed.

(** X23. A created list belongs to its creator: after [handleCreateList]
    the record has the creator as owner and no shares, the list's object has
    taken the schema, and the creator's next [GET /lists] shows the list with
    the role owner. *)
Theorem created_list_is_listed_as_owned down now id name schema0 user w :
  let w1 := fst (handleCreateList down now id name schema0 user w) in
  let meta := mkListMeta id name schema0 now (jwt_email user) [] in
  snd (handleCreateList down now id name schema0 user w) = reply 201 (WList meta Owner)
  ∧ getListMeta id (w_env w1) = Some meta
  ∧ schema (object_of id w1) = schema0
  ∧ listMeta (object_of id w1) = Some meta
  ∧ ∃ lists, snd (handleGetLists user w1) = reply 200 (WLists lists) ∧ (meta, Owner) ∈ lists.
Proof.
  intros w1 meta.
  assert (Henv : w_env w1
                 = put_list id meta (addListToUserIndex (jwt_email user) id
                                       (put_list id meta (w_env w)))).
  { unfold w1, handleCreateList, stub_fetch. cbv zeta. cbn [fst w_env].
    by rewrite fetch_init_log. }
  assert (Hmeta : getListMeta id (w_env w1) = Some meta).
  { rewrite Henv. unfold getListMeta. simpl. apply lookup_insert_eq. }
  split_and!; try done.
  - unfold w1, handleCreateList, stub_fetch, object_of. simpl. by rewrite lookup_insert_eq.
  - unfold w1, handleCreateList, stub_fetch, object_of. simpl. by rewrite lookup_insert_eq.
  - destruct (handleGetLists_spec user w1) as (lists & Heq & Hiff).
    exists lists. rewrite Heq. split; [done|]. apply Hiff. exists id. split_and!; [| done |].
    + rewrite Henv.
      change (user_ids (put_list id meta ?e) ?u) with (user_ids e u).
      rewrite user_ids_add. case_bool_decide; [done|].
      apply elem_of_app. right. by apply list_elem_of_singleton.
    + unfold getUserRole. simpl. by rewrite String.eqb_refl.
Qed.

Lemma no_id_after_removal env email email' listId :
  listId ∉ user_ids env email →
  listId ∉ user_ids (removeListFromUserIndex email' listId env) email.
Proof.
  intros H. destruct (decide (email = email')) as [->|Hne].
  - rewrite user_ids_remove. intros Hin. by apply list_elem_of_filter in Hin as [? _].
  - by rewrite user_ids_remove_other.
Qed.

Lemma no_id_after_removals env shares email listId :
  (listId ∉ user_ids env email) ∨ email ∈ map share_email shares →
  listId ∉ user_ids
             (foldl (fun env share => removeListFromUserIndex (share_email share) listId env)
                    env shares) email.
Proof.
  revert env. induction shares as [|sh rest IH]; intros env H; simpl.
  - destruct H as [H|H]; [done | by apply elem_of_nil in H].
  - apply IH. destruct H as [H|H].
    + left. by apply no_id_after_removal.
    + simpl in H. apply elem_of_cons in H as [->|H]; [|by right].
      left. rewrite user_ids_remove. intros Hin. by apply list_elem_of_filter in Hin as [? _].
Qed.

Lemma lists_after_removals env shares listId :
  kv_lists (foldl (fun env share => removeListFromUserIndex (share_email share) listId env)
                  env shares) = kv_lists env.
Proof.
  revert env. induction shares as [|sh rest IH]; intros env; simpl; [done|].
  by rewrite IH, lists_removeListFromUserIndex.
Qed.

(** X24. When its owner deletes a list, the record is gone, the list is
    out of the index of the owner and of everyone it was shared with, and
    every later route on the list answers 404; the list's object, with its
    items and ledger, is not touched. *)
Theorem deleted_list_is_gone down now listId user meta w :
  getListMeta listId (w_env w) = Some meta →
  meta_ownerEmail meta = jwt_email user →
  let out := handleDeleteList listId user w in
  snd out = reply 200 WOk
  ∧ getListMeta listId (w_env (fst out)) = None
  ∧ (∀ email, email = jwt_email user ∨ email ∈ share_emails meta →
              listId ∉ user_ids (w_env (fst out)) email)
  ∧ w_objects (fst out) = w_objects w
  ∧ ∀ op u, list_op down now listId op u (fst out)
            = (fst out, reply 404 (WError "Not found")).
Proof.
  intros Hmeta Howner out. subst out. unfold handleDeleteList.
  rewrite Hmeta, Howner, String.eqb_refl. simpl.
  assert (Hgone : getListMeta listId
            (foldl (fun env share => removeListFromUserIndex (share_email share) listId env)
               (removeListFromUserIndex (jwt_email user) listId
                  (mkEnv (ALLOWED_EMAILS (w_env w)) (delete listId (kv_lists (w_env w)))
                         (kv_user_lists (w_env w))))
               (meta_shares meta)) = None).
  { unfold getListMeta. rewrite lists_after_removals, lists_removeListFromUserIndex.
    simpl. apply lookup_delete_eq. }
  split_and!; try done.
  - intros email [->|Hin]; apply no_id_after_removals.
    + left. rewrite user_ids_remove. intros Hin. by apply list_elem_of_filter in Hin as [? _].
    + by right.
  - intros op u. by apply unknown_list_is_not_found.
Qed.

Lemma deleted_list_is_gone_witness :
  let out := handleDeleteList "L1" owner_jwt camping_world in
  snd out = reply 200 WOk
  ∧ getListMeta "L1" (w_env (fst out)) = None
  ∧ (∀ email, email = jwt_email owner_jwt ∨ email ∈ share_emails camping_meta →
              "L1" ∉ user_ids (w_env (fst out)) email)
  ∧ w_objects (fst out) = w_objects camping_world
  ∧ ∀ op u, list_op all_up 200 "L1" op u (fst out)
            = (fst out, reply 404 (WError "Not found")).
Proof.
  apply (deleted_list_is_gone all_up 200 "L1" owner_jwt camping_meta camping_world).
  - reflexivity.
  - reflexivity.
Defined.

(** X25. A schema update through the worker leaves the record of the list
    with the new schema and with the owner and the shares it had, although
    the object mirrors its own, older copy of the record into the namespace
    first; the object takes the schema, keeps its items and sends
    [schema-changed] to every registered session. *)
Theorem schema_update_keeps_the_shares down now listId schema0 user meta w :
  getListMeta listId (w_env w) = Some meta →
  can_edit (getUserRole user meta) = true →
  let out := handleUpdateSchema down now listId schema0 user w in
  snd out = reply 200 WOk
  ∧ getListMeta listId (w_env (fst out))
    = Some (mkListMeta (meta_id meta) (meta_name meta) schema0 (meta_createdAt meta)
                       (meta_ownerEmail meta) (meta_shares meta))
  ∧ schema (object_of listId (fst out)) = schema0
  ∧ items (object_of listId (fst out)) = items (object_of listId w)
  ∧ attempts (since (object_of listId w) (object_of listId (fst out)))
    = map (fun k => (k, SchemaChanged schema0)) (JsMap.keys (clients (object_of listId w))).
Proof.
  intros Hmeta Hedit out. subst out. unfold handleUpdateSchema.
  rewrite Hmeta, Hedit. simpl.
  split_and!; try done.
  - unfold getListMeta. simpl. apply lookup_insert_eq.
  - unfold object_of at 1. simpl. rewrite lookup_insert_eq. simpl.
    match goal with |- schema (broadcast _ _ _ ?s0) = _ =>
      destruct (broadcast_frame down (SchemaChanged schema0) None s0)
        as (_ & _ & _ & -> & _) end.
    by destruct (listMeta (object_of listId w)).
  - unfold object_of at 1. simpl. rewrite lookup_insert_eq. simpl.
    match goal with |- items (broadcast _ _ _ ?s0) = _ =>
      destruct (broadcast_frame down (SchemaChanged schema0) None s0) as (-> & _) end.
    simpl. by destruct (listMeta (object_of listId w)).
  - unfold object_of at 2. simpl. rewrite lookup_insert_eq. simpl.
    set (obj := object_of listId w).
    match goal with |- context [broadcast _ _ _ ?s0] => set (s1 := s0) end.
    assert (Hc : clients s1 = clients obj).
    { unfold s1. simpl. by destruct (listMeta obj). }
    assert (Hl : ∃ puts, log s1 = log obj ++ puts ∧ attempts puts = []).
    { unfold s1. simpl. destruct (listMeta obj); simpl.
      - eexists. split; [by rewrite <- !app_assoc | done].
      - eexists. split; [done | done]. }
    destruct Hl as (puts & Hl & Hputs).
    erewrite since_app; [|by rewrite broadcast_log, Hl, Hc, <- app_assoc].
    rewrite attempts_app, Hputs. simpl. apply attempts_broadcast_all.
Qed.

Lemma schema_update_keeps_the_shares_witness :
  let schema0 := [mkField "item" "Item" TText None; mkField "weight" "Weight" TNumber None] in
  let out := handleUpdateSchema all_up 200 "L1" schema0 alice_jwt camping_world in
  snd out = reply 200 WOk
  ∧ getListMeta "L1" (w_env (fst out))
    = Some (mkListMeta (meta_id camping_meta) (meta_name camping_meta) schema0
                       (meta_createdAt camping_meta) (meta_ownerEmail camping_meta)
                       (meta_shares camping_meta))
  ∧ schema (object_of "L1" (fst out)) = schema0
  ∧ items (object_of "L1" (fst out)) = items (object_of "L1" camping_world)
  ∧ attempts (since (object_of "L1" camping_world) (object_of "L1" (fst out)))
    = map (fun k => (k, SchemaChanged schema0))
          (JsMap.keys (clients (object_of "L1" camping_world))).
Proof.
  intros schema0.
  apply (schema_update_keeps_the_shares all_up 200 "L1" schema0 alice_jwt camping_meta
           camping_world).
  - reflexivity.
  - reflexivity.
Defined.

(** * The token utilities *)

Section Base64UrlFacts.

Opaque Ascii.eqb.

Lemma replace_char_app c d s1 s2 :
  replace_char c d (String.append s1 s2)
  = String.append (replace_char c d s1) (replace_char c d s2).
Proof. induction s1 as [|x s1 IH]; simpl; [done | by rewrite IH]. Qed.

Lemma replace_char_padding c d n : c ≠ "="%char → replace_char c d (padding n) = padding n.
Proof.
  intros Hne. induction n as [|n IH]; simpl; [done|]. rewrite IH.
  destruct (Ascii.eqb "=" c) eqn:E; [|done]. apply Ascii.eqb_eq in E. congruence.
Qed.

Lemma replace_char_length c d s : String.length (replace_char c d s) = String.length s.
Proof. induction s as [|x s IH]; simpl; [done | by rewrite IH]. Qed.

Lemma strip_padding_padding n : strip_padding (padding n) = EmptyString.
Proof. induction n as [|n IH]; simpl; [done | by rewrite IH]. Qed.

(** Stripping undoes appended padding, and only that. *)
Lemma strip_padding_app body n :
  has_char "="%char body = false → strip_padding (String.append body (padding n)) = body.
Proof.
  induction body as [|x body IH]; simpl; [intros _; apply strip_padding_padding|].
  intros H. apply orb_false_elim in H as [Hx Hbody]. rewrite IH by done.
  destruct body; [by rewrite Hx | done].
Qed.

Lemma strip_padding_spec s :
  s = String.append (strip_padding s)
                    (padding (String.length s - String.length (strip_padding s))).
Proof.
  induction s as [|x s IH]; simpl; [done|].
  destruct (strip_padding s) as [|y rest] eqn:E; simpl in *.
  - rewrite Nat.sub_0_r in IH. destruct (Ascii.eqb x "=") eqn:Ex; simpl.
    + apply Ascii.eqb_eq in Ex. subst x. by rewrite IH at 1.
    + rewrite Nat.sub_0_r. by rewrite IH at 1.
  - by rewrite IH at 1.
Qed.

Lemma has_char_replace c d e s :
  d ≠ e → has_char e s = false → has_char e (replace_char c d s) = false.
Proof.
  intros Hne. induction s as [|x s IH]; simpl; [done|].
  intros H. apply orb_false_elim in H as [Hx Hs]. rewrite IH by done.
  destruct (Ascii.eqb x c); [|by rewrite Hx].
  destruct (Ascii.eqb d e) eqn:E; [|done]. apply Ascii.eqb_eq in E. congruence.
Qed.

Lemma has_char_app_l c s1 s2 : has_char c (String.append s1 s2) = false → has_char c s1 = false.
Proof.
  induction s1 as [|x s1 IH]; simpl; [done|].
  intros H. apply orb_false_elim in H as [Hx Hs]. by rewrite Hx, IH.
Qed.

(** On text without [-] and [_], the decoder's replacements undo the
    encoder's. *)
Lemma replace_back s :
  has_char "-"%char s = false → has_char "_"%char s = false →
  replace_char "_"%char "/"%char
    (replace_char "-"%char "+"%char
       (replace_char "/"%char "_"%char (replace_char "+"%char "-"%char s))) = s.
Proof.
  induction s as [|x s IH]; simpl; [done|].
  intros H1 H2. apply orb_false_elim in H1 as [Hx1 Hs1].
  apply orb_false_elim in H2 as [Hx2 Hs2]. rewrite IH by done. f_equal.
  destruct (Ascii.eqb x "+") eqn:Ep.
  { apply Ascii.eqb_eq in Ep. by subst x. }
  destruct (Ascii.eqb x "/") eqn:Es.
  { apply Ascii.eqb_eq in Es. by subst x. }
  by rewrite Hx1, Hx2.
Qed.

Lemma length_append s1 s2 :
  String.length (String.append s1 s2) = (String.length s1 + String.length s2)%nat.
Proof. induction s1 as [|x s1 IH]; simpl; [done | by rewrite IH]. Qed.

Lemma length_padding n : String.length (padding n) = n.
Proof. induction n as [|n IH]; simpl; [done | by rewrite IH]. Qed.

Lemma padding_needed n k :
  ((n + k) mod 4 = 0 → k ≤ 2 → (4 - n mod 4) mod 4 = k)%nat.
Proof.
  intros H Hk. rewrite Nat.Div0.add_mod in H by lia.
  pose proof (Nat.mod_upper_bound n 4 ltac:(lia)) as Hr.
  destruct (n mod 4)%nat as [|[|[|[|r]]]]; [| | | |lia];
    destruct k as [|[|[|k]]]; try lia; try done.
Qed.

Variable btoa : string → string.
Variable atob : string → option string.

(** X26. The URL-safe decoder undoes the URL-safe encoder: whenever [btoa]
    yields standard base64 for a text, decoding the encoded text hands
    [atob] exactly what [btoa] produced, so the round trip gives what
    [atob (btoa text)] gives. *)
Theorem base64url_round_trip str :
  is_base64 (btoa str) = true →
  base64UrlDecode atob (base64UrlEncode btoa str) = atob (btoa str).
Proof.
  unfold is_base64, base64UrlDecode, base64UrlEncode. intros H.
  repeat (apply andb_prop in H as [H ?]).
  repeat match goal with Hn : negb _ = true |- _ => apply negb_true_iff in Hn end.
  apply Nat.eqb_eq in H.
  match goal with Hle : (_ <=? 2)%nat = true |- _ => apply Nat.leb_le in Hle end.
  set (b := btoa str) in *. set (body := strip_padding b) in *.
  set (k := (String.length b - String.length body)%nat) in *.
  assert (Hb : b = String.append body (padding k)) by apply strip_padding_spec.
  assert (Hdash : has_char "-"%char body = false).
  { apply (has_char_app_l _ body (padding k)). by rewrite <- Hb. }
  assert (Hunder : has_char "_"%char body = false).
  { apply (has_char_app_l _ body (padding k)). by rewrite <- Hb. }
  assert (Hlen : String.length b = (String.length body + k)%nat).
  { rewrite Hb at 1. by rewrite length_append, length_padding. }
  assert (Henc : strip_padding (replace_char "/"%char "_"%char
                                  (replace_char "+"%char "-"%char b))
                 = replace_char "/"%char "_"%char (replace_char "+"%char "-"%char body)).
  { rewrite Hb at 1. rewrite !replace_char_app, !replace_char_padding by done.
    apply strip_padding_app. by repeat apply has_char_replace. }
  cbv zeta. f_equal. rewrite Henc, replace_back by done.
  rewrite (padding_needed (String.length body) k); [by rewrite <- Hb | | done].
  by rewrite <- Hlen.
Qed.

Transparent Ascii.eqb.
End Base64UrlFacts.

Lemma base64url_round_trip_witness :
  base64UrlDecode atob_ascii (base64UrlEncode btoa_ascii ">>?~~~~")
  = atob_ascii (btoa_ascii ">>?~~~~").
Proof.
  apply (base64url_round_trip btoa_ascii atob_ascii ">>?~~~~").
  reflexivity.
Defined.

(** The tilde and the question mark give the characters that differ between
    the two alphabets. *)
Example base64url_example :
  btoa_ascii ">>?~~~~" = "Pj4/fn5+fg=="
  ∧ base64UrlEncode btoa_ascii ">>?~~~~" = "Pj4_fn5-fg"
  ∧ base64UrlDecode atob_ascii "Pj4_fn5-fg" = Some ">>?~~~~".
Proof. vm_compute. done. Qed.
